(** * Resize tables and batched resampling of DALI (new_resize / ResizeCropMirror)

    A shallow embedding of the rational grid calculator ([gcf], [lcm]), the
    batch coordinator ([DataDependentSetupCPU], [DataDependentSetupGPU]), the
    pixel mapping table builder ([PixMappingHelper], [constructTable]) and the
    resampling kernel ([ResizeFunc]), followed by the properties proved of
    them.

    Conventions of the embedding.
    - C++ [int] is embedded in [Z]: signed overflow is undefined, so [int]
      arithmetic is taken exactly; [/] and [%] on [int] are [Z.quot] and
      [Z.rem] (truncation).  The embedding agrees with the code where no
      [int] operation overflows and no divisor is zero; a theorem that
      asserts the value of [gcf] or [lcm] for arbitrary arguments, or that
      the coordinator returns, carries these conditions as hypotheses
      ([Z.lcm _ _ <= INT_MAX], [extents_ok], [setup_defined]), and [lcm_int]
      is the value of [lcm] when the product wraps.
    - Unsigned types wrap: [uint32_t] results go through [u32], [size_t]
      through [u64], [uint16_t] through [u16], [uint8] through [u8].  On
      non-negative operands C's [/] and [%] are [Z.div] and [Z.modulo].
    - Rasters and tables reached through raw pointers are addressed memories
      [Z -> _] or lists indexed from the pointer. *)

From Stdlib Require Import ZArith List Bool Lia String Znumtheory.
Import ListNotations.
Local Open Scope Z_scope.

(* ================================================================== *)
(** * Machine integers *)

Definition u8  (z : Z) : Z := z mod 2 ^ 8.
Definition u16 (z : Z) : Z := z mod 2 ^ 16.
Definition u32 (z : Z) : Z := z mod 2 ^ 32.
Definition u64 (z : Z) : Z := z mod 2 ^ 64.

Definition UINT_MAX : Z := 2 ^ 32 - 1.
Definition INT_MAX : Z := 2 ^ 31 - 1.

(* ================================================================== *)
(** * Rational grid calculator *)

(** The [while (b)] loop of [gcf]; [fuel] bounds the number of iterations
    ([gcf_loop_fuel] shows that [S |b|] always suffices). *)
Fixpoint gcf_loop (fuel : nat) (a b : Z) : Z :=
  match fuel with
  | O => a
  | S fuel' => if b =? 0 then a else gcf_loop fuel' b (Z.rem a b)
  end.

(** Greatest Common Factor.  [a % b] is [Z.rem a b] for every pair of [int]
    except [INT_MIN % -1], which traps; the loop reaches it only when one of
    the arguments is [INT_MIN]. *)
Definition gcf (a b : Z) : Z :=
  let '(a, b) := if b >? a then (b, a) else (a, b) in
  gcf_loop (S (Z.to_nat (Z.abs b))) a b.

(** Least Common Multiplier, the product taken exactly: the value the code
    returns when [a / gcf(a, b) * b] fits an [int] (see [lcm_int]). *)
Definition lcm (a b : Z) : Z := Z.quot a (gcf a b) * b.

(** The grid steps of one axis, as [DataDependentSetupGPU] and
    [ResizeMappingTable::constructTable] compute them from the source extent
    [d0] and the destination extent [d1]:
    [s0 = lcm / d0] (stepSrc) and [s1 = lcm / d1] (stepDst). *)
Definition stepSrc (d0 d1 : Z) : Z := Z.quot (lcm d0 d1) d0.
Definition stepDst (d0 d1 : Z) : Z := Z.quot (lcm d0 d1) d1.

(** Conversion of an unsigned value to [int] / [int32_t] (two's complement). *)
Definition to_int (z : Z) : Z := (z + 2 ^ 31) mod 2 ^ 32 - 2 ^ 31.

(* ================================================================== *)
(** * Containers reached through raw pointers *)

(** [p[n] = v] on the array behind [p]; a store outside the array is
    undefined in C++ and leaves the list unchanged here. *)
Fixpoint upd {A : Type} (l : list A) (n : nat) (v : A) : list A :=
  match l, n with
  | [], _ => []
  | _ :: t, O => v :: t
  | h :: t, S n' => h :: upd t n' v
  end.

(** [std::vector::resize]: the first [n] elements are kept, new elements are
    value-initialised to [d]. *)
Definition vec_resize {A : Type} (d : A) (n : nat) (l : list A) : list A :=
  firstn n l ++ repeat d (n - List.length l).

(** A [for (i = start; i < bound; i += step)] loop over a state.  [fuel]
    bounds the number of iterations; [Z.to_nat (bound - start)] suffices
    whenever [step >= 1]. *)
Fixpoint for_loop {S : Type} (fuel : nat) (i step bound : Z)
    (body : Z -> S -> S) (s : S) : S :=
  match fuel with
  | O => s
  | Datatypes.S fuel' =>
      if i <? bound then for_loop fuel' (i + step) step bound body (body i s)
      else s
  end.

Definition for_range {S : Type} (start step bound : Z)
    (body : Z -> S -> S) (s : S) : S :=
  for_loop (Z.to_nat (bound - start)) start step bound body s.

(* ================================================================== *)
(** * Errors *)

(** [DALI_ENFORCE] throws; a computation either returns or throws the
    message of the failed check. *)
Inductive result (A : Type) : Type :=
| Ok (a : A)
| Throw (msg : string).
Arguments Ok {A} a.
Arguments Throw {A} msg.

Definition bind {A B : Type} (r : result A) (k : A -> result B) : result B :=
  match r with
  | Ok a => k a
  | Throw m => Throw m
  end.

Definition DALI_ENFORCE (cond : bool) (msg : string) : result unit :=
  if cond then Ok tt else Throw msg.

Notation "x <- c ;; k" := (bind c (fun x => k))
  (at level 61, c at next level, right associativity).
Notation "c ;;; k" := (bind c (fun _ => k))
  (at level 61, right associativity).

Definition is_ok {A : Type} (r : result A) : bool :=
  match r with Ok _ => true | Throw _ => false end.

(* ================================================================== *)
(** * Batch resize coordinator *)

Record DALISize : Type := { height : Z; width : Z }.

(** [ResizeGridParam]: a pair of [int]s, fields [x] and [y]. *)
Record ResizeGridParam : Type := { px : Z; py : Z }.

(** [MirroringInfo] shares the layout of [ResizeGridParam] ([RunImpl] keeps
    both in the one vector [resizeParam_]); [x] and [y] are the flags. *)
Definition MirroringInfo : Type := ResizeGridParam.

Definition grid_eqb (a b : ResizeGridParam) : bool :=
  (px a =? px b) && (py a =? py b).

(** Modelled from the spec: the constant [N_GRID_PARAMS] of new_resize.h is
    not part of the sources; an image's descriptor holds the GridParam
    (stepSrc, stepDst) and the CropOffset, the three pairs
    [resizeParam[0..2]] that [DataDependentSetupGPU] and [ResizeFunc] use. *)
Definition N_GRID_PARAMS : nat := 3.

(** What the coordinator uses of the operator ([pResize_], class
    [ResizeAttr], whose code is not part of the sources): [SetSize] yields
    the input and the output size of sample [i] from its shape; [DefineCrop]
    yields the crop offset [(cropX, cropY)] and may redefine the output size;
    [MirrorNeeded] yields the mirror flags. *)
Record ResizeAttr : Type := {
  SetSize : list Z -> nat -> DALISize * DALISize;
  DefineCrop : DALISize -> nat -> DALISize * (Z * Z);
  MirrorNeeded : nat -> MirroringInfo
}.

Record TensorList : Type := {
  tl_is_uint8 : bool;            (* IsType<uint8>(input.type()) *)
  tl_shapes : list (list Z)      (* tensor_shape(i) *)
}.

Definition tensor_shape (t : TensorList) (i : nat) : list Z :=
  nth i (tl_shapes t) [].

(** [ResizeParamDescr]: [pResizeParam_] and [pMirroring_] point into the
    vector of [ResizeGridParam] (offsets from its start), [pTotalSize_]
    points to the per-slice counters. *)
Record ResizeParamDescr : Type := {
  pResize_ : option ResizeAttr;
  pResizeParam_ : option nat;
  pMirroring_ : option nat;
  pTotalSize_ : bool;
  nBatchSlice_ : Z
}.

Record SetupState : Type := {
  newResize : bool;
  resizeParam : list ResizeGridParam;  (* memory of pResizeParam_, pMirroring_ *)
  totalSize : list Z;                  (* memory of pTotalSize_ ([size_t]) *)
  output_shape : list (list Z);
  sizes : list DALISize;               (* [*pSizes] *)
  pSizes : bool                        (* the local [pSizes] is not NULL *)
}.

Definition grid0 : ResizeGridParam := {| px := 0; py := 0 |}.

Definition param_at (mem : list ResizeGridParam) (p : nat) : ResizeGridParam :=
  nth p mem grid0.

(** The saturating accumulation of the table length of slice [idx]. *)
Definition addTotalSize (tot : list Z) (idx : nat) (sx0 sy0 : Z) : list Z :=
  if nth idx tot 0 <? u32 (UINT_MAX - sx0 * sy0)
  then upd tot idx (u64 (nth idx tot 0 + sx0 * sy0))
  else upd tot idx UINT_MAX.

(** The body of the loop over the images of the batch. *)
Definition setup_image (descr : option ResizeParamDescr) (input : TensorList)
    (batch_size : nat) (reshapeBatch : bool) (i : nat) (st : SetupState)
    : result SetupState :=
  let input_shape := tensor_shape input i in
  DALI_ENFORCE (List.length input_shape =? 3)%nat
               "Expects 3-dimensional image input." ;;;
  let C := nth 2 input_shape 0 in
  DALI_ENFORCE ((C =? 1) || (C =? 3))
               "Not valid color type argument (1 or 3)" ;;;
  let st1 :=
    match descr with
    | Some d =>
      match pResize_ d with
      | Some pResize =>
        let '(input_size, out_size) := SetSize pResize input_shape i in
        let '(st', out_size') :=
          match pResizeParam_ d with
          | Some base =>
            let H1 := height out_size in
            let W1 := width out_size in
            match pMirroring_ d with
            | Some mbase =>
              let rp := (base + i * N_GRID_PARAMS)%nat in
              let '(out_size', (cropX, cropY)) :=
                DefineCrop pResize out_size i in
              let H0 := height input_size in
              let W0 := width input_size in
              let lcmH := lcm H0 H1 in
              let lcmW := lcm W0 W1 in
              let sy0 := Z.quot lcmH H0 in
              let sy1 := Z.quot lcmH H1 in
              let sx0 := Z.quot lcmW W0 in
              let sx1 := Z.quot lcmW W1 in
              let mem := resizeParam st in
              let nr :=
                if negb (newResize st) then
                  negb (px (param_at mem rp) =? sx0) ||
                  negb (py (param_at mem rp) =? sy0) ||
                  negb (px (param_at mem (rp + 1)) =? sx1) ||
                  negb (py (param_at mem (rp + 1)) =? sy1) ||
                  negb (px (param_at mem (rp + 2)) =? cropX) ||
                  negb (py (param_at mem (rp + 2)) =? cropY)
                else newResize st in
              let mem1 :=
                if nr then
                  upd (upd (upd mem rp {| px := sx0; py := sy0 |})
                           (rp + 1) {| px := sx1; py := sy1 |})
                      (rp + 2) {| px := cropX; py := cropY |}
                else mem in
              let tot :=
                if pTotalSize_ d then
                  addTotalSize (totalSize st)
                    (Z.to_nat (Z.of_nat i mod nBatchSlice_ d)) sx0 sy0
                else totalSize st in
              let mem2 := upd mem1 (mbase + i) (MirrorNeeded pResize i) in
              ({| newResize := nr; resizeParam := mem2; totalSize := tot;
                  output_shape := output_shape st; sizes := sizes st;
                  pSizes := pSizes st |}, out_size')
            | None =>
              let rp := (base + i * 2)%nat in
              let mem1 :=
                upd (upd (resizeParam st) rp {| px := W1; py := H1 |})
                    (rp + 1) {| px := 0; py := 0 |} in
              ({| newResize := newResize st; resizeParam := mem1;
                  totalSize := totalSize st;
                  output_shape := output_shape st; sizes := sizes st;
                  pSizes := pSizes st |}, out_size)
            end
          | None => (st, out_size)
          end in
        {| newResize := newResize st'; resizeParam := resizeParam st';
           totalSize := totalSize st';
           output_shape :=
             upd (output_shape st') i
                 [height out_size'; width out_size'; nth 2 input_shape 0];
           sizes := sizes st'; pSizes := pSizes st' |}
      | None =>
        {| newResize := newResize st; resizeParam := resizeParam st;
           totalSize := totalSize st;
           output_shape := upd (output_shape st) i input_shape;
           sizes := sizes st; pSizes := pSizes st |}
      end
    | None =>
      {| newResize := newResize st; resizeParam := resizeParam st;
         totalSize := totalSize st;
         output_shape := upd (output_shape st) i input_shape;
         sizes := sizes st; pSizes := pSizes st |}
    end in
  Ok (if pSizes st1 then
        let h := nth 0 input_shape 0 in
        let w := nth 1 input_shape 0 in
        if reshapeBatch then
          (* only one image will be used *)
          {| newResize := newResize st1; resizeParam := resizeParam st1;
             totalSize := totalSize st1; output_shape := output_shape st1;
             sizes := upd (sizes st1) i
                          {| height := h * Z.of_nat batch_size; width := w |};
             pSizes := false |}
        else
          {| newResize := newResize st1; resizeParam := resizeParam st1;
             totalSize := totalSize st1; output_shape := output_shape st1;
             sizes := upd (sizes st1) i {| height := h; width := w |};
             pSizes := true |}
      else st1).

(** [for (size_t i = 0; i < batch_size; ++i)]: [n] images remain, [i] is the
    current one. *)
Fixpoint setup_loop (descr : option ResizeParamDescr) (input : TensorList)
    (batch_size : nat) (reshapeBatch : bool) (n i : nat) (st : SetupState)
    : result SetupState :=
  match n with
  | O => Ok st
  | S n' =>
      st' <- setup_image descr input batch_size reshapeBatch i st ;;
      setup_loop descr input batch_size reshapeBatch n' (S i) st'
  end.

(** [memset(pTotalSize, 0, nBatchSlice_ * sizeof(pTotalSize[0]))] *)
Definition memset0 (n : nat) (l : list Z) : list Z :=
  repeat 0 (Nat.min n (List.length l)) ++ skipn n l.

(** [DataDependentSetupGPU]: [mem] is the vector of [ResizeGridParam] of the
    operator, [tot] the counters behind [pTotalSize_], [szs] the vector
    behind [pSizes] ([None] for NULL).  The returned state holds the flag
    [newResize] the function returns, the shapes the output is resized to,
    and the memories as the call leaves them. *)
Definition DataDependentSetupGPU (input : TensorList) (batch_size : nat)
    (reshapeBatch : bool) (szs : option (list DALISize))
    (pResizeDescr : option ResizeParamDescr)
    (mem : list ResizeGridParam) (tot : list Z) : result SetupState :=
  DALI_ENFORCE (tl_is_uint8 input) "Expected input data stored in uint8." ;;;
  let tot0 :=
    match pResizeDescr with
    | Some d =>
        if pTotalSize_ d then memset0 (Z.to_nat (nBatchSlice_ d)) tot else tot
    | None => tot
    end in
  setup_loop pResizeDescr input batch_size reshapeBatch batch_size 0
    {| newResize := false; resizeParam := mem; totalSize := tot0;
       output_shape := repeat [] batch_size;
       sizes := match szs with Some s => s | None => [] end;
       pSizes := match szs with Some _ => true | None => false end |}.

(** [DataDependentSetupCPU] for one sample: [ndim] and [shape] describe the
    input tensor; the result is the shape the output is resized to. *)
Record Tensor : Type := {
  t_is_uint8 : bool;
  t_shape : list Z
}.

Definition DataDependentSetupCPU (input : Tensor) (pOpName : option string)
    (out_size : option DALISize) : result (list Z) :=
  DALI_ENFORCE (List.length (t_shape input) =? 3)%nat
               "DALI_ENFORCE(input.ndim() == 3)" ;;;
  DALI_ENFORCE (t_is_uint8 input) "Expects input data in uint8." ;;;
  let shape := t_shape input in
  let C := nth 2 shape 0 in
  DALI_ENFORCE ((C =? 1) || (C =? 3))
    ((match pOpName with Some s => s | None => "Operation" end)
       ++ " supports only hwc rgb & grayscale inputs.") ;;;
  Ok (match out_size with
      | Some s => [height s; width s; C]
      | None => shape
      end).

(* ================================================================== *)
(** * Pixel mapping table builder *)

(** [PixMapping]: relative address of a source pixel and the area of its
    intersection with the resized pixel (both [uint32_t]). *)
Record PixMapping : Type := { pixAddr : Z; pixArea : Z }.

(** [ResizeMapping]: where the contributions of a sub-cell start in the
    [PixMapping] array, and how many they are. *)
Record ResizeMapping : Type := { intersectInfoAddr : Z; nPixels : Z }.

(** [MappingInfo]: the entry of the nearest-neighbour table. *)
Definition MappingInfo : Type := Z.

Definition pix0 : PixMapping := {| pixAddr := 0; pixArea := 0 |}.
Definition map0 : ResizeMapping := {| intersectInfoAddr := 0; nPixels := 0 |}.

(** The [float] operations [PixMappingHelper] uses for the nearest-neighbour
    choice. *)
Class FloatOps (F : Type) : Type := {
  FLT_MAX : F;
  of_int : Z -> F;
  fadd : F -> F -> F;
  fsub : F -> F -> F;
  fmul : F -> F -> F;
  fgt : F -> F -> bool
}.

(** Exact arithmetic: what [float] computes as long as every value is an
    integer below [2^24]. *)
#[export] Instance ExactFloat : FloatOps Z := {
  FLT_MAX := 2 ^ 128 - 2 ^ 104;
  of_int := fun z => z;
  fadd := Z.add;
  fsub := Z.sub;
  fmul := Z.mul;
  fgt := Z.gtb
}.

Section Helper.
Context {F : Type} {FO : FloatOps F}.

Record PixMappingHelper : Type := {
  numPixMapMax_ : Z;       (* length of the allocated PixMapping array *)
  numPixMapUsed_ : Z;      (* number of already used elements *)
  pPixMapping_ : option (list PixMapping);  (* NULL, or the array *)
  mappingBase : list ResizeMapping;         (* memory at [pMappingBase_] *)
  pMapping_ : nat;                          (* offset from [pMappingBase_] *)
  mappingClosestBase : list MappingInfo;    (* memory at [pMappingClosestBase_] *)
  pMappingClosest_ : nat;                   (* offset from it *)
  area_ : Z;
  resizedArea_ : Z;
  closestDist_ : F;
  centerX_ : F;
  centerY_ : F
}.

Definition numUsed (h : PixMappingHelper) : Z := numPixMapUsed_ h.

Definition distance (x y : F) : F := fadd (fmul x x) (fmul y y).

(** [resizeVector] *)
Definition resizeVector (pntr : list PixMapping) (nElem : Z) : list PixMapping :=
  vec_resize pix0 (Z.to_nat nElem) pntr.

(** [assignVectorElement] *)
Definition assignVectorElement (pntr : list PixMapping) (elemIdx : Z)
    (addr area : Z) : list PixMapping :=
  upd pntr (Z.to_nat elemIdx) {| pixAddr := addr; pixArea := area |}.

(** The constructor.  [pPixMapping] is [Some v] when the vector [v] is given
    together with [resizeVector] and [assignVectorElement] (the CPU table),
    [None] when the three arguments are left NULL (the GPU kernel). *)
Definition mkPixMappingHelper (area : Z) (pMapping : list ResizeMapping)
    (pMapInfo : list MappingInfo) (resizedArea : Z)
    (pPixMapping : option (list PixMapping)) : PixMappingHelper :=
  let area := u32 area in
  let resizedArea := u32 resizedArea in
  match pPixMapping with
  | Some v =>
      if resizedArea =? 0 then
        {| numPixMapMax_ := u32 (2 * area); numPixMapUsed_ := 0;
           pPixMapping_ := Some (resizeVector v (u32 (2 * area)));
           mappingBase := pMapping; pMapping_ := O;
           mappingClosestBase := pMapInfo; pMappingClosest_ := O;
           area_ := area; resizedArea_ := resizedArea;
           closestDist_ := FLT_MAX; centerX_ := of_int 0; centerY_ := of_int 0 |}
      else
        {| numPixMapMax_ := 1; numPixMapUsed_ := 0; pPixMapping_ := None;
           mappingBase := pMapping; pMapping_ := O;
           mappingClosestBase := pMapInfo; pMappingClosest_ := O;
           area_ := area; resizedArea_ := resizedArea;
           closestDist_ := FLT_MAX; centerX_ := of_int 0; centerY_ := of_int 0 |}
  | None =>
      {| numPixMapMax_ := 1; numPixMapUsed_ := 0; pPixMapping_ := None;
         mappingBase := pMapping; pMapping_ := O;
         mappingClosestBase := pMapInfo; pMappingClosest_ := O;
         area_ := area; resizedArea_ := resizedArea;
         closestDist_ := FLT_MAX; centerX_ := of_int 0; centerY_ := of_int 0 |}
  end.

Definition set_pix (h : PixMappingHelper) (mx used : Z)
    (pix : list PixMapping) (mb : list ResizeMapping) : PixMappingHelper :=
  {| numPixMapMax_ := mx; numPixMapUsed_ := used; pPixMapping_ := Some pix;
     mappingBase := mb; pMapping_ := pMapping_ h;
     mappingClosestBase := mappingClosestBase h;
     pMappingClosest_ := pMappingClosest_ h;
     area_ := area_ h; resizedArea_ := resizedArea_ h;
     closestDist_ := closestDist_ h;
     centerX_ := centerX_ h; centerY_ := centerY_ h |}.

(** [AddPixel(uint32_t addr, uint32_t area, int crdX, int crdY)] *)
Definition AddPixel (h : PixMappingHelper) (addr area crdX crdY : Z)
    : PixMappingHelper :=
  match pPixMapping_ h with
  | Some pix =>
      let '(mx, pix1) :=
        if numPixMapUsed_ h =? numPixMapMax_ h then
          (* previously allocated array needs to be extended *)
          let mx := u32 (Z.shiftl (numPixMapMax_ h) 1) in
          (mx, resizeVector pix mx)
        else (numPixMapMax_ h, pix) in
      let m := nth (pMapping_ h) (mappingBase h) map0 in
      let mb := upd (mappingBase h) (pMapping_ h)
                    {| intersectInfoAddr := intersectInfoAddr m;
                       nPixels := nPixels m + 1 |} in
      set_pix h mx (u32 (numPixMapUsed_ h + 1))
              (assignVectorElement pix1 (numPixMapUsed_ h) addr area) mb
  | None =>
      let newDist :=
        distance (fsub (of_int (Z.shiftl crdX 1)) (centerX_ h))
                 (fsub (of_int (Z.shiftl crdY 1)) (centerY_ h)) in
      if fgt (closestDist_ h) newDist then
        {| numPixMapMax_ := numPixMapMax_ h;
           numPixMapUsed_ := numPixMapUsed_ h;
           pPixMapping_ := None;
           mappingBase := mappingBase h; pMapping_ := pMapping_ h;
           mappingClosestBase :=
             upd (mappingClosestBase h) (pMappingClosest_ h) addr;
           pMappingClosest_ := pMappingClosest_ h;
           area_ := area_ h; resizedArea_ := resizedArea_ h;
           closestDist_ := newDist;
           centerX_ := centerX_ h; centerY_ := centerY_ h |}
      else h
  end.

(** [UpdateMapping(int shift, int centerX, int centerY)] *)
Definition UpdateMapping (h : PixMappingHelper) (shift centerX centerY : Z)
    : PixMappingHelper :=
  match pPixMapping_ h with
  | Some pix =>
      let m := nth (Z.to_nat shift) (mappingBase h) map0 in
      {| numPixMapMax_ := numPixMapMax_ h;
         numPixMapUsed_ := numPixMapUsed_ h;
         pPixMapping_ := Some pix;
         mappingBase :=
           upd (mappingBase h) (Z.to_nat shift)
               {| intersectInfoAddr := numUsed h; nPixels := nPixels m |};
         pMapping_ := Z.to_nat shift;
         mappingClosestBase := mappingClosestBase h;
         pMappingClosest_ := pMappingClosest_ h;
         area_ := area_ h; resizedArea_ := resizedArea_ h;
         closestDist_ := closestDist_ h;
         centerX_ := centerX_ h; centerY_ := centerY_ h |}
  | None =>
      {| numPixMapMax_ := numPixMapMax_ h;
         numPixMapUsed_ := numPixMapUsed_ h;
         pPixMapping_ := None;
         mappingBase := mappingBase h; pMapping_ := pMapping_ h;
         mappingClosestBase := mappingClosestBase h;
         pMappingClosest_ := Z.to_nat shift;
         area_ := area_ h; resizedArea_ := resizedArea_ h;
         closestDist_ := closestDist_ h;
         centerX_ := of_int centerX; centerY_ := of_int centerY |}
  end.

Section ConstructTable.
Variables (C W0 sx0 sy0 sx1 sy1 : Z).

(** The contributions of one row [y0] of the intersection, weighted by
    [rowMult].  [e0] is [endIdx[0]] after [endIdx[0] -= begIdx[0]]. *)
Section Row.
Variables (e0 extra0 lenFirst0 : Z) (y0 rowMult : Z).

(** [while (--x0 > 0) AddPixel(pixAddr -= C, sx0 * rowMult, x0, y0);]
    followed by [AddPixel(pixAddr -= C, lenFirst[0] * rowMult, x0, y0)];
    [k] is the value of [x0] after the first [--x0]. *)
Fixpoint xLoop (k : nat) (h : PixMappingHelper) (pixAddr : Z)
    : PixMappingHelper :=
  match k with
  | O =>
      AddPixel h (u32 (pixAddr - C)) (u32 (lenFirst0 * rowMult))
               (to_int 0) (to_int y0)
  | S k' =>
      let pixAddr' := u32 (pixAddr - C) in
      xLoop k'
        (AddPixel h pixAddr' (u32 (sx0 * rowMult))
                  (to_int (Z.of_nat k)) (to_int y0))
        pixAddr'
  end.

Definition addRow (h : PixMappingHelper) : PixMappingHelper :=
  let x0 := e0 in
  (* relative address of the last pixel in row y0, intersecting with PIX *)
  let pixAddr := u32 ((y0 * W0 + x0) * C) in
  let h1 :=
    if extra0 =? 0 then h
    else AddPixel h pixAddr (u32 (extra0 * rowMult)) (to_int x0) (to_int y0) in
  if x0 =? 0 then h1 else xLoop (Z.to_nat (x0 - 1)) h1 pixAddr.
End Row.

(** The [while (true)] loop over the rows of the intersection; it runs
    [e1 + 1] times at most ([e1] is [endIdx[1]] after the subtraction). *)
Fixpoint rowsLoop (e0 extra0 lenFirst0 e1 extra1 : Z) (fuel : nat)
    (h : PixMappingHelper) (y0 rowMult : Z) : PixMappingHelper :=
  match fuel with
  | O => h
  | S fuel' =>
      let h1 := addRow e0 extra0 lenFirst0 y0 rowMult h in
      let y0' := y0 + 1 in
      if y0' >=? e1 then
        if (y0' >? e1) || (extra1 =? 0) then h1
        else rowsLoop e0 extra0 lenFirst0 e1 extra1 fuel' h1 y0' extra1
      else rowsLoop e0 extra0 lenFirst0 e1 extra1 fuel' h1 y0' sy0
  end.

(** The body of the two [for] loops: the sub-cell [(x, y)]. *)
Definition cell (h : PixMappingHelper) (x y : Z) : PixMappingHelper :=
  let nX := x * sx1 in
  let nY := y * sy1 in
  (* the indices of the top-left pixel of the initial image, intersecting with PIX *)
  let begIdx0 := nX / sx0 in
  let begIdx1 := nY / sy0 in
  (* the indices of the bottom-right pixel *)
  let endIdx0 := (nX + sx1) / sx0 in
  let endIdx1 := (nY + sy1) / sy0 in
  (* intersection of the right (bottom) pixels with the PIX (could be 0) *)
  let extra0 := Z.min ((nX + sx1) mod sx0) sx1 in
  let extra1 := Z.min ((nY + sy1) mod sy0) sy1 in
  (* length of the left (top) pixels intersecting with the PIX *)
  let lenFirst0 := sx0 - nX mod sx0 in
  let lenFirst1 := sy0 - nY mod sy0 in
  (* doubled (x,y) coordinates of the pixel's center *)
  let lenX :=
    endIdx0 + begIdx0
    - (if negb (extra0 =? 0) || (endIdx0 =? begIdx0) then 0 else 1) in
  let lenY :=
    endIdx1 + begIdx1
    - (if negb (extra1 =? 0) || (endIdx1 =? begIdx1) then 0 else 1) in
  (* relative address to the first intersecting pixels *)
  let h1 :=
    UpdateMapping h (to_int (((y * sy1) mod sy0) * sx0 + (x * sx1) mod sx0))
                  (to_int lenX) (to_int lenY) in
  let e0 := endIdx0 - begIdx0 in
  let e1 := endIdx1 - begIdx1 in
  let rowMult := if e1 =? 0 then extra1 else lenFirst1 in
  rowsLoop e0 extra0 lenFirst0 e1 extra1 (S (S (Z.to_nat e1))) h1 0 rowMult.

(** [PixMappingHelper::constructTable] *)
Definition constructTable (h : PixMappingHelper)
    (stepW stepH startW startH : Z) : PixMappingHelper :=
  for_range startH stepH sy0
    (fun y h => for_range startW stepW sx0 (fun x h => cell h x y) h) h.

End ConstructTable.

(** [ResizeMappingTable]: the tables of one (H0,W0) -> (H1,W1) resize. *)
Record ResizeMappingTable : Type := {
  io_size : (Z * Z) * (Z * Z);
  C_ : Z;
  resizeMappingCPU : list ResizeMapping;
  resizeMappingSimpleCPU : list MappingInfo;
  pixMappingCPU : list PixMapping
}.

(** A table object before its first construction. *)
Definition emptyTable : ResizeMappingTable :=
  {| io_size := ((0, 0), (0, 0)); C_ := 0; resizeMappingCPU := [];
     resizeMappingSimpleCPU := []; pixMappingCPU := [] |}.

(** [ResizeMappingTable::initTable]; [xSize] and [ySize] are [uint16_t]. *)
Definition initTable (t : ResizeMappingTable) (H0 W0 H1 W1 C : Z)
    (xSize ySize : Z) (use_NN : bool) : ResizeMappingTable :=
  let n := Z.to_nat (u16 xSize * u16 ySize) in
  {| io_size := ((W0, H0), (W1, H1)); C_ := C;
     resizeMappingCPU :=
       if use_NN then resizeMappingCPU t
       else vec_resize map0 n (resizeMappingCPU t);
     resizeMappingSimpleCPU :=
       if use_NN then vec_resize 0 n (resizeMappingSimpleCPU t)
       else resizeMappingSimpleCPU t;
     pixMappingCPU := pixMappingCPU t |}.

(** Modelled from the spec: the enumeration of interpolation kinds is
    declared outside the sources; the spec has nearest-neighbour and
    area-weighted linear interpolation. *)
Inductive DALIInterpType : Type := DALI_INTERP_NN | DALI_INTERP_LINEAR.

Definition is_NN (t : DALIInterpType) : bool :=
  match t with DALI_INTERP_NN => true | DALI_INTERP_LINEAR => false end.

(** [ResizeMappingTable::constructTable] *)
Definition ResizeMappingTable_constructTable (t : ResizeMappingTable)
    (H0 W0 H1 W1 C : Z) (resizeType : DALIInterpType) : ResizeMappingTable :=
  (* H0 * sy0 = H1 * sy1,  W0 * sx0 = W1 * sx1 *)
  let lcmH := lcm H0 H1 in
  let lcmW := lcm W0 W1 in
  let sy0 := lcmH / H0 in
  let sy1 := lcmH / H1 in
  let sx0 := lcmW / W0 in
  let sx1 := lcmW / W1 in
  let use_NN := is_NN resizeType in
  let t1 := initTable t H0 W0 H1 W1 C sx0 sy0 use_NN in
  let helper :=
    mkPixMappingHelper (sx0 * sy0) (resizeMappingCPU t1)
      (resizeMappingSimpleCPU t1) (if use_NN then sx1 * sy1 else 0)
      (Some (pixMappingCPU t1)) in
  let h := constructTable C W0 sx0 sy0 sx1 sy1 helper 1 1 0 0 in
  {| io_size := io_size t1; C_ := C_ t1;
     resizeMappingCPU := mappingBase h;
     resizeMappingSimpleCPU := mappingClosestBase h;
     pixMappingCPU :=
       match pPixMapping_ h with
       | Some v => if use_NN then v else vec_resize pix0 (Z.to_nat (numUsed h)) v
       | None => pixMappingCPU t1
       end |}.

End Helper.

(* ================================================================== *)
(** * Resampling kernel *)

(** A raster behind a [uint8 *]: the byte at each offset from the pointer. *)
Definition raster : Type := Z -> Z.

Definition store (m : raster) (a v : Z) : raster :=
  fun a' => if a' =? a then v else m a'.

(** Modelled from the spec: the macro [nYoffset] of new_resize.h is not part
    of the sources; rasters are contiguous and row-major, so the row stride
    of an image of width [W] with [C] channels is [W * C]. *)
Definition nYoffset (W C : Z) : Z := W * C.

(** The accumulator [int pixColor[3]]. *)
Definition color : Type := (Z * Z * Z)%type.

(** [addWeitedColor(weight, C, pPix, pixColor)] with [pPix] at offset [pPix]
    of the raster [img]. *)
Definition addWeitedColor (weight C : Z) (img : raster) (pPix : Z)
    (pixColor : color) : color :=
  let '(c0, c1, c2) := pixColor in
  if weight =? 0 then pixColor
  else
    if C >? 1 then
      (c0 + weight * img pPix, c1 + weight * img (pPix + 1),
       c2 + weight * img (pPix + 2))
    else (c0 + weight * img pPix, c1, c2).

(** [setPixelColor(out, to, C, pixColor, area)]: the sum is converted to
    [uint32_t] by the addition of [area >> 1], the quotient is stored in a
    [uint8]. *)
Definition setPixelColor (img_out : raster) (out to C : Z) (pixColor : color)
    (area : Z) : raster :=
  let '(c0, c1, c2) := pixColor in
  let m0 := store img_out (out + to) (u8 (u32 (c0 + Z.shiftr area 1) / area)) in
  if C >? 1 then
    let m1 := store m0 (out + to + 1) (u8 (u32 (c1 + Z.shiftr area 1) / area)) in
    store m1 (out + to + 2) (u8 (u32 (c2 + Z.shiftr area 1) / area))
  else m0.

Section ResizeFunc.
Variables (W0 H0 : Z) (img_in : raster) (W H : Z) (C : Z).
Variables (sx0 sy0 sx1 sy1 cropX cropY : Z).
(** [in_]: offset of the image in [img_in]. *)
Variable (in_ : Z).

(** ** DALI_INTERP_NN *)
Definition pixelNN (pMapping : list MappingInfo) (x y : Z) : color :=
  let nY := u32 ((y + cropY) * sy1) in
  let pBaseY := in_ + u32 (nY / sy0 * nYoffset W0 C) in
  let idx := u32 ((nY mod sy0) * sx0) in
  let nX := u32 ((x + cropX) * sx1) in
  let pPix :=
    pBaseY + u32 (nX / sx0 * C)
    + nth (Z.to_nat (u32 (idx + nX mod sx0))) pMapping 0 in
  (img_in pPix, img_in (pPix + 1), img_in (pPix + 2)).

(** ** DALI_INTERP_LINEAR with pre-calculated tables *)

(** [for (int i = pResizePix->nPixels; i--;) addWeitedColor(...)] *)
Fixpoint tableLoop (pPixMapping : list PixMapping) (pPixMap : Z) (pBase : Z)
    (i : nat) (pixColor : color) : color :=
  match i with
  | O => pixColor
  | S i' =>
      let e := nth (Z.to_nat (pPixMap + Z.of_nat i')) pPixMapping pix0 in
      tableLoop pPixMapping pPixMap pBase i'
        (addWeitedColor (to_int (pixArea e)) C img_in (pBase + pixAddr e)
                        pixColor)
  end.

Definition pixelTable (pResizeMapping : list ResizeMapping)
    (pPixMapping : list PixMapping) (x y : Z) : color :=
  let nY := u32 ((y + cropY) * sy1) in
  let pBaseY := in_ + u32 (nY / sy0 * nYoffset W0 C) in
  let idx := u32 ((nY mod sy0) * sx0) in
  let nX := u32 ((x + cropX) * sx1) in
  let pBase := pBaseY + u32 (nX / sx0 * C) in
  let pResizePix := nth (Z.to_nat (idx + nX mod sx0)) pResizeMapping map0 in
  tableLoop pPixMapping (intersectInfoAddr pResizePix) pBase
            (Z.to_nat (nPixels pResizePix)) (0, 0, 0).

(** ** DALI_INTERP_LINEAR without pre-calculated tables *)

(** [while (--x0 > begIdx[0]) addWeitedColor(weight, C, pPix -= C, pixColor);]
    followed by [addWeitedColor(rowMult * lenFirst[0], C, pPix - C, pixColor)];
    [k] is the distance of [x0] to [begIdx[0]] after the first [--x0]. *)
Fixpoint xLoopF (rowMult lenFirst0 : Z) (k : nat) (pPix : Z)
    (pixColor : color) : color :=
  match k with
  | O =>
      addWeitedColor (to_int (u32 (rowMult * lenFirst0))) C img_in (pPix - C)
                     pixColor
  | S k' =>
      xLoopF rowMult lenFirst0 k' (pPix - C)
        (addWeitedColor (to_int (u32 (rowMult * sx0))) C img_in (pPix - C)
                        pixColor)
  end.

Definition rowF (begIdx0 endIdx0 extra0 lenFirst0 : Z) (y0 rowMult : Z)
    (pixColor : color) : color :=
  let x0 := endIdx0 in
  let pPix := in_ + u32 ((y0 * W0 + x0) * C) in
  let pc := addWeitedColor (to_int (u32 (rowMult * extra0))) C img_in pPix
                           pixColor in
  if x0 >? begIdx0 then
    xLoopF rowMult lenFirst0 (Z.to_nat (u32 (x0 - 1) - begIdx0)) pPix pc
  else pc.

(** The [while (true)] loop over the rows [y0 = begIdx[1] ..]. *)
Fixpoint rowsF (begIdx0 endIdx0 extra0 lenFirst0 endIdx1 extra1 : Z)
    (fuel : nat) (y0 rowMult : Z) (pixColor : color) : color :=
  match fuel with
  | O => pixColor
  | S fuel' =>
      let pc := rowF begIdx0 endIdx0 extra0 lenFirst0 y0 rowMult pixColor in
      let y0' := u32 (y0 + 1) in
      if y0' >=? endIdx1 then
        if (y0' >? endIdx1) || (extra1 =? 0) then pc
        else rowsF begIdx0 endIdx0 extra0 lenFirst0 endIdx1 extra1 fuel'
                   y0' extra1 pc
      else rowsF begIdx0 endIdx0 extra0 lenFirst0 endIdx1 extra1 fuel'
                 y0' sy0 pc
  end.

Definition pixelLinear (x y : Z) : color :=
  let nY := u32 ((y + cropY) * sy1) in
  let begIdx1 := nY / sy0 in
  let endIdx1 := u32 (nY + sy1) / sy0 in
  let extra1 := Z.min (u32 (nY + sy1) mod sy0) sy1 in
  let lenFirst1 := u32 (sy0 - nY mod sy0) in
  let nX := u32 ((x + cropX) * sx1) in
  let begIdx0 := nX / sx0 in
  let endIdx0 := u32 (nX + sx1) / sx0 in
  let extra0 := Z.min (u32 (nX + sx1) mod sx0) sx1 in
  let lenFirst0 := u32 (sx0 - nX mod sx0) in
  let rowMult := if endIdx1 >? begIdx1 then lenFirst1 else extra1 in
  rowsF begIdx0 endIdx0 extra0 lenFirst0 endIdx1 extra1
        (S (S (Z.to_nat (endIdx1 - begIdx1)))) begIdx1 rowMult (0, 0, 0).

(** ** The loops over the destination pixels

    Shared by the three branches: [for y] advances [out] by [shift], [for x]
    stores the colour [pixel x y] at [out + x * outStep]. *)
Definition pixelLoops (pixel : Z -> Z -> color) (area : Z)
    (startW stepW startH stepH : Z) (outStep shift : Z)
    (out : Z) (img_out : raster) : Z * raster :=
  for_range startH stepH H
    (fun y '(out, m) =>
       let out := out + shift in
       (out,
        for_range startW stepW W
          (fun x m => setPixelColor m out (x * outStep) C (pixel x y) area) m))
    (out, img_out).

End ResizeFunc.

(** [ResizeFunc]: [pMapping], [pResizeMapping], [pPixMapping] and
    [pMirrorInfo] are [None] for NULL; the result is the output raster. *)
Definition ResizeFunc (W0 H0 : Z) (img_in : raster) (W H : Z)
    (img_out : raster) (C : Z) (resizeParam : list ResizeGridParam)
    (pMirrorInfo : option (list MirroringInfo)) (imgIdx : Z)
    (startW stepW startH stepH : Z)
    (pMapping : option (list MappingInfo))
    (pResizeMapping : option (list ResizeMapping))
    (pPixMapping : option (list PixMapping)) : raster :=
  let sx0 := u32 (px (param_at resizeParam 0)) in
  let sy0 := u32 (py (param_at resizeParam 0)) in
  let sx1 := u32 (px (param_at resizeParam 1)) in
  let sy1 := u32 (py (param_at resizeParam 1)) in
  let cropX := u32 (px (param_at resizeParam 2)) in
  let cropY := u32 (py (param_at resizeParam 2)) in
  let area := u32 (sx1 * sy1) in
  (* both tables need to be defined, otherwise the pre-calculated tables are
     not used *)
  let pResizeMapping :=
    match pPixMapping with None => None | Some _ => pResizeMapping end in
  let outStep := C in
  let offset := u32 (nYoffset W C) in
  let shift := to_int (u32 (stepH * offset)) in
  let in_ := H0 * nYoffset W0 C * imgIdx in
  let out := u32 ((H * imgIdx + startH) * offset) - shift in
  let '(out, shift, outStep) :=
    match pMirrorInfo with
    | Some mi =>
        let m := nth (Z.to_nat imgIdx) mi grid0 in
        let '(out, shift) :=
          if py m =? 0 then (out, shift)
          else
            let shift := shift * -1 in
            (out + u32 (u32 ((H - 2 * startH - 1) * offset) - 2 * shift), shift) in
        if px m =? 0 then (out, shift, outStep)
        else (out + u32 (offset + - C), shift, - C)
    | None => (out, shift, outStep)
    end in
  let loops pixel area :=
    snd (pixelLoops W H C pixel area startW stepW startH stepH outStep shift
                    out img_out) in
  match pMapping with
  | Some mapping =>
      loops (pixelNN W0 img_in C sx0 sy0 sx1 sy1 cropX cropY in_ mapping) 1
  | None =>
      match pResizeMapping, pPixMapping with
      | Some rm, Some pm =>
          loops (pixelTable W0 img_in C sx0 sy0 sx1 sy1 cropX cropY in_ rm pm)
                area
      | _, _ =>
          loops (pixelLinear W0 img_in C sx0 sy0 sx1 sy1 cropX cropY in_) area
      end
  end.

(* ================================================================== *)
(** * Vocabulary of the statements *)

(** The checks of the setup functions on a shape: three dimensions and one
    or three channels. *)
Definition valid_shape (s : list Z) : bool :=
  (List.length s =? 3)%nat && ((nth 2 s 0 =? 1) || (nth 2 s 0 =? 3)).

(** The start of [NewResize<GPUBackend>::RunImpl]: the descriptor is built
    from the operator, its vector [resizeParam_] (grid parameters of the
    images, then their mirror flags) and the local [resizeMemory];
    [DataDependentSetupGPU] runs, and [rest] stands for what follows
    (copies of the tables and the dispatch of the kernels). *)
Definition RunImpl_descr (op : ResizeAttr) (batch_size_ : nat) (use_NN : bool)
    (BATCH_SLICE_NUMB : Z) : ResizeParamDescr :=
  {| pResize_ := Some op; pResizeParam_ := Some O;
     pMirroring_ := Some (N_GRID_PARAMS * batch_size_)%nat;
     pTotalSize_ := use_NN; nBatchSlice_ := BATCH_SLICE_NUMB |}.

Definition RunImpl {K : Type} (op : ResizeAttr) (batch_size_ : nat)
    (use_NN : bool) (BATCH_SLICE_NUMB : Z)
    (resizeParam_ : list ResizeGridParam) (resizeMemory : list Z)
    (input : TensorList) (rest : SetupState -> K) : result K :=
  st <- DataDependentSetupGPU input batch_size_ false None
          (Some (RunImpl_descr op batch_size_ use_NN BATCH_SLICE_NUMB))
          resizeParam_ resizeMemory ;;
  Ok (rest st).

(** The grid parameters [DataDependentSetupGPU] computes for image [i]:
    [(sx0, sy0)], [(sx1, sy1)] and [(cropX, cropY)]. *)
Definition gridOf (pResize : ResizeAttr) (input : TensorList) (i : nat)
    : ResizeGridParam * ResizeGridParam * ResizeGridParam :=
  let '(input_size, out_size) := SetSize pResize (tensor_shape input i) i in
  let '(_, (cropX, cropY)) := DefineCrop pResize out_size i in
  let lcmH := lcm (height input_size) (height out_size) in
  let lcmW := lcm (width input_size) (width out_size) in
  ({| px := Z.quot lcmW (width input_size);
      py := Z.quot lcmH (height input_size) |},
   {| px := Z.quot lcmW (width out_size);
      py := Z.quot lcmH (height out_size) |},
   {| px := cropX; py := cropY |}).

(** The three grid parameters recorded for image [i] at [base]. *)
Definition stored (mem : list ResizeGridParam) (base i : nat)
    : ResizeGridParam * ResizeGridParam * ResizeGridParam :=
  (param_at mem (base + i * N_GRID_PARAMS),
   param_at mem (base + i * N_GRID_PARAMS + 1),
   param_at mem (base + i * N_GRID_PARAMS + 2)).

(** The sum of the table lengths [sx0 * sy0] of the images [j < n] that
    belong to slice [k] of [S] slices. *)
Fixpoint sliceSum (pResize : ResizeAttr) (input : TensorList) (S : Z) (k : nat)
    (n : nat) : Z :=
  match n with
  | O => 0
  | Datatypes.S n' =>
      sliceSum pResize input S k n' +
      (if (Z.to_nat (Z.of_nat n' mod S) =? k)%nat
       then let '(p0, _, _) := gridOf pResize input n' in px p0 * py p0
       else 0)
  end.

(** An operator that resizes every sample to [out_sz] with the crop offset
    [crop] and no mirroring; the input size is read from the shape. *)
Definition resizeTo (out_sz : DALISize) (crop : Z * Z) : ResizeAttr :=
  {| SetSize := fun shape _ =>
       ({| height := nth 0 shape 0; width := nth 1 shape 0 |}, out_sz);
     DefineCrop := fun o _ => (o, crop);
     MirrorNeeded := fun _ => grid0 |}.

Definition state0 : SetupState :=
  {| newResize := false; resizeParam := []; totalSize := [];
     output_shape := []; sizes := []; pSizes := false |}.

(** The state a successful call returns. *)
Definition returned (r : result SetupState) : SetupState :=
  match r with Ok st => st | Throw _ => state0 end.

(** The comparison [DataDependentSetupGPU] makes between the parameters
    recorded for image [i] and the computed ones. *)
Definition changed (pResize : ResizeAttr) (input : TensorList) (base : nat)
    (mem : list ResizeGridParam) (i : nat) : bool :=
  let '(g0, g1, g2) := gridOf pResize input i in
  let rp := (base + i * N_GRID_PARAMS)%nat in
  negb (px (param_at mem rp) =? px g0) ||
  negb (py (param_at mem rp) =? py g0) ||
  negb (px (param_at mem (rp + 1)) =? px g1) ||
  negb (py (param_at mem (rp + 1)) =? py g1) ||
  negb (px (param_at mem (rp + 2)) =? px g2) ||
  negb (py (param_at mem (rp + 2)) =? py g2).

(** Descriptors and batches for the examples. *)
Definition descrOf (R : ResizeAttr) (base mbase : nat) (ptot : bool) (S : Z)
    : ResizeParamDescr :=
  {| pResize_ := Some R; pResizeParam_ := Some base; pMirroring_ := Some mbase;
     pTotalSize_ := ptot; nBatchSlice_ := S |}.

Definition gray (h w : Z) : TensorList :=
  {| tl_is_uint8 := true; tl_shapes := [[h; w; 1]] |}.

Definition size_of (h w : Z) : DALISize := {| height := h; width := w |}.

(** One image per batch, descriptor as [RunImpl] builds it. *)
Definition run1 (R : ResizeAttr) (input : TensorList)
    (mem : list ResizeGridParam) : result SetupState :=
  DataDependentSetupGPU input 1 false None (Some (descrOf R 0 3 false 1)) mem [].


(** Three images 1x1 resized to 46340x46340, one slice. *)
Definition big3 : TensorList :=
  {| tl_is_uint8 := true; tl_shapes := [[1; 1; 1]; [1; 1; 1]; [1; 1; 1]] |}.

Definition runBig3 : result SetupState :=
  DataDependentSetupGPU big3 3 false None
    (Some (descrOf (resizeTo (size_of 46340 46340) (0, 0)) 0 9 true 1))
    (repeat grid0 12) [0].

(* ------------------------------------------------------------------ *)
(** ** The calls of [AddPixel] for one sub-cell *)

(** The arguments of one call of [AddPixel]. *)
Record Call : Type := { c_addr : Z; c_area : Z; c_crdX : Z; c_crdY : Z }.

Definition addCall {F : Type} {FO : FloatOps F} (h : PixMappingHelper) (c : Call)
    : PixMappingHelper :=
  AddPixel h (c_addr c) (c_area c) (c_crdX c) (c_crdY c).

(** The columns of a row, as the code visits them: relative index and
    length of the intersection with the resized pixel. *)
Fixpoint colTail (s0 lenFirst : Z) (k : nat) : list (Z * Z) :=
  match k with
  | O => [(0, lenFirst)]
  | S k' => (Z.of_nat k, s0) :: colTail s0 lenFirst k'
  end.

Definition colList (s0 e extra lenFirst : Z) : list (Z * Z) :=
  (if extra =? 0 then [] else [(e, extra)]) ++
  (if e =? 0 then [] else colTail s0 lenFirst (Z.to_nat (e - 1))).

(** The rows of the intersection, as the [while (true)] loop visits them:
    relative index and multiplier. *)
Fixpoint rowList (s0 e extra : Z) (fuel : nat) (y0 rowMult : Z) : list (Z * Z) :=
  match fuel with
  | O => []
  | S fuel' =>
      (y0, rowMult) ::
      (let y0' := y0 + 1 in
       if y0' >=? e then
         if (y0' >? e) || (extra =? 0) then []
         else rowList s0 e extra fuel' y0' extra
       else rowList s0 e extra fuel' y0' s0)
  end.

(** The geometry of one axis for the scaled coordinate [n] of a resized
    pixel: [e = endIdx - begIdx], [extra], [lenFirst]. *)
Definition axis_e (s0 s1 n : Z) : Z := (n + s1) / s0 - n / s0.
Definition axis_extra (s0 s1 n : Z) : Z := Z.min ((n + s1) mod s0) s1.
Definition axis_lenFirst (s0 n : Z) : Z := s0 - n mod s0.

Definition cols (s0 s1 n : Z) : list (Z * Z) :=
  colList s0 (axis_e s0 s1 n) (axis_extra s0 s1 n) (axis_lenFirst s0 n).

Definition rows (s0 s1 n : Z) : list (Z * Z) :=
  rowList s0 (axis_e s0 s1 n) (axis_extra s0 s1 n)
          (S (S (Z.to_nat (axis_e s0 s1 n)))) 0
          (if axis_e s0 s1 n =? 0 then axis_extra s0 s1 n
           else axis_lenFirst s0 n).

Definition mkCall (C W0 : Z) (row col : Z * Z) : Call :=
  {| c_addr := u32 ((fst row * W0 + fst col) * C);
     c_area := u32 (snd col * snd row);
     c_crdX := to_int (fst col); c_crdY := to_int (fst row) |}.

Definition cellCalls (C W0 sx0 sy0 sx1 sy1 x y : Z) : list Call :=
  flat_map (fun row => map (mkCall C W0 row) (cols sx0 sx1 (x * sx1)))
           (rows sy0 sy1 (y * sy1)).

(** The entry of [ResizeMapping] that belongs to the sub-cell [(x, y)]. *)
Definition slot (sx0 sy0 sx1 sy1 x y : Z) : Z :=
  ((y * sy1) mod sy0) * sx0 + (x * sx1) mod sx0.

Definition pairOf (c : Call) : PixMapping :=
  {| pixAddr := c_addr c; pixArea := c_area c |}.

(** The contributions recorded for the sub-cell of entry [m]. *)
Definition slice (pix : list PixMapping) (m : ResizeMapping) : list PixMapping :=
  firstn (Z.to_nat (nPixels m)) (skipn (Z.to_nat (intersectInfoAddr m)) pix).


(* ------------------------------------------------------------------ *)
(** ** Sums and overlaps *)

(** [zsum f lo len] is the sum of [f j] for [lo <= j < lo + len]. *)
Fixpoint zsum (f : Z -> Z) (lo : Z) (len : nat) : Z :=
  match len with
  | O => 0
  | S len' => f lo + zsum f (lo + 1) len'
  end.

(** The weighted sum of [g] over a list of (index, weight), the indices
    counted from [q]. *)
Definition wsum (g : Z -> Z) (q : Z) (l : list (Z * Z)) : Z :=
  fold_right (fun p a => snd p * g (q + fst p) + a) 0 l.

(** The length of the intersection of the resized pixel [[n, n + s1)] with
    the source pixel [[j * s0, (j + 1) * s0)], in scaled coordinates. *)
Definition overlap (s0 s1 n j : Z) : Z :=
  Z.max 0 (Z.min (n + s1) ((j + 1) * s0) - Z.max n (j * s0)).

(* ------------------------------------------------------------------ *)
(** ** The helper in the area-weighted mode *)

(** [LinRel M h em tbl]: the helper [h] records contributions; [em] are the
    pairs recorded so far (the used part of its array), [tbl] is the table
    of [ResizeMapping], and the array can still grow while no more than [M]
    pairs are recorded. *)
Definition LinRel {F : Type} (M : Z) (h : @PixMappingHelper F)
    (em : list PixMapping) (tbl : list ResizeMapping) : Prop :=
  exists v,
    pPixMapping_ h = Some v /\ mappingBase h = tbl /\
    numPixMapUsed_ h = Z.of_nat (List.length em) /\
    numPixMapMax_ h = Z.of_nat (List.length v) /\
    firstn (List.length em) v = em /\
    (List.length em <= List.length v)%nat /\ (0 < List.length v)%nat /\
    Z.of_nat (List.length v) <= 2 * M.

(** The entry of a sub-cell after [k] more contributions. *)
Definition bump (tbl : list ResizeMapping) (s : nat) (k : Z)
    : list ResizeMapping :=
  upd tbl s {| intersectInfoAddr := intersectInfoAddr (nth s tbl map0);
               nPixels := nPixels (nth s tbl map0) + k |}.

(** The effect of one sub-cell on the recorded pairs and on the table. *)
Definition abs_cell (s : nat) (L : list PixMapping)
    (st : list PixMapping * list ResizeMapping)
    : list PixMapping * list ResizeMapping :=
  let '(em, tbl) := st in
  (em ++ L,
   upd tbl s {| intersectInfoAddr := Z.of_nat (List.length em);
                nPixels := nPixels (nth s tbl map0) + Z.of_nat (List.length L) |}).

(* ------------------------------------------------------------------ *)
(** ** The sub-cells of the period *)

(** [0; 1; ...; n-1] *)
Definition zrange (n : Z) : list Z := map Z.of_nat (seq 0 (Z.to_nat n)).

(** The sub-cells [(x, y)] in the order of the two [for] loops. *)
Definition allCells (sx0 sy0 : Z) : list (Z * Z) :=
  flat_map (fun y => map (fun x => (x, y)) (zrange sx0)) (zrange sy0).

Definition cellPairs (C W0 sx0 sy0 sx1 sy1 : Z) (c : Z * Z) : list PixMapping :=
  map pairOf (cellCalls C W0 sx0 sy0 sx1 sy1 (fst c) (snd c)).

Definition cellSlot (sx0 sy0 sx1 sy1 : Z) (c : Z * Z) : nat :=
  Z.to_nat (to_int (slot sx0 sy0 sx1 sy1 (fst c) (snd c))).

(** The pairs and the table after the sub-cells [cs]. *)
Definition abuild (C W0 sx0 sy0 sx1 sy1 : Z) (cs : list (Z * Z))
    (st : list PixMapping * list ResizeMapping)
    : list PixMapping * list ResizeMapping :=
  fold_left
    (fun st c => abs_cell (cellSlot sx0 sy0 sx1 sy1 c)
                          (cellPairs C W0 sx0 sy0 sx1 sy1 c) st) cs st.

Definition lsum {A : Type} (f : A -> Z) (l : list A) : Z :=
  fold_right (fun a acc => f a + acc) 0 l.

(* ------------------------------------------------------------------ *)
(** ** The helper in the nearest-neighbour mode *)

(** The helper records closest pixels, and every entry of its table is the
    one of [tbl0] or satisfies [R]. *)
Definition NNInv {F : Type} (R : Z -> Prop) (tbl0 : list MappingInfo)
    (h : @PixMappingHelper F) : Prop :=
  pPixMapping_ h = None /\
  forall idx, nth idx (mappingClosestBase h) 0 = nth idx tbl0 0 \/
              R (nth idx (mappingClosestBase h) 0).

(* ------------------------------------------------------------------ *)
(** ** The colour of a resized pixel *)

(** The accumulation of a list of (weight, offset of the source pixel). *)
Definition accum (C : Z) (img : raster) (l : list (Z * Z)) (pc : color) : color :=
  fold_left (fun pc p => addWeitedColor (fst p) C img (snd p) pc) l pc.

(** Channel [ch] of the sum over the rows and columns that intersect the
    resized pixel with scaled origin [(nX, nY)]. *)
Definition rcSum (W0 C : Z) (img : raster) (in_ : Z) (sx0 sy0 sx1 sy1 : Z)
    (nX nY ch : Z) : Z :=
  wsum (fun i =>
          wsum (fun j => img (in_ + (i * W0 + j) * C + ch))
               (nX / sx0) (cols sx0 sx1 nX))
       (nY / sy0) (rows sy0 sy1 nY).

(** Channel [ch] of the area-weighted sum over the whole source image: every
    source pixel [(i, j)] weighted by the area of its intersection with the
    resized pixel. *)
Definition areaSum (W0 H0 C : Z) (img : raster) (in_ : Z) (sx0 sy0 sx1 sy1 : Z)
    (nX nY ch : Z) : Z :=
  zsum (fun i =>
          overlap sy0 sy1 nY i *
          zsum (fun j => overlap sx0 sx1 nX j * img (in_ + (i * W0 + j) * C + ch))
               0 (Z.to_nat W0))
       0 (Z.to_nat H0).

(** The accumulator that holds the sums [S ch] of the channels in use. *)
Definition sumColor (C : Z) (S : Z -> Z) : color :=
  if C >? 1 then (S 0, S 1, S 2) else (S 0, 0, 0).

(** The source image mirrored on X: pixel [(i, j)] of the result is pixel
    [(i, W0 - 1 - j)] of [img]. *)
Definition mirrorX (W0 C : Z) (img : raster) : raster :=
  fun a =>
    let p := a / C in
    img (((p / W0) * W0 + (W0 - 1 - p mod W0)) * C + a mod C).

(** The contributions of the row [r] of the intersection: weight and offset
    of every source pixel, without wrap-around. *)
Definition rowIdeal (W0 C in_ sx0 sy0 sx1 nX nY : Z) (r : Z * Z) : list (Z * Z) :=
  map (fun p => (snd r * snd p,
                 in_ + ((nY / sy0 + fst r) * W0 + nX / sx0 + fst p) * C))
      (cols sx0 sx1 nX).

(** The grid parameters of an image as the coordinator records them: the
    steps of the source grid, the steps of the resized grid, the crop. *)
Definition gridParams (sx0 sy0 sx1 sy1 cropX cropY : Z) : list ResizeGridParam :=
  [ {| px := sx0; py := sy0 |}; {| px := sx1; py := sy1 |};
    {| px := cropX; py := cropY |} ].

(* ------------------------------------------------------------------ *)
(** ** The stores of the kernel *)

(** The byte that [setPixelColor] stores for the sum [v] of a channel. *)
Definition quant (area v : Z) : Z := u8 (u32 (v + Z.shiftr area 1) / area).

(** Channel [ch] of an accumulator. *)
Definition chan (c : color) (ch : Z) : Z :=
  let '(c0, c1, c2) := c in
  if ch =? 0 then c0 else if ch =? 1 then c1 else c2.

(** The stores of one call of [setPixelColor] at the address [a], in the
    order of the code. *)
Definition pixelWrites (C a : Z) (c : color) (area : Z) : list (Z * Z) :=
  if C >? 1 then
    [ (a, quant area (chan c 0)); (a + 1, quant area (chan c 1));
      (a + 2, quant area (chan c 2)) ]
  else [ (a, quant area (chan c 0)) ].

Definition writeAll (l : list (Z * Z)) (m : raster) : raster :=
  fold_left (fun m p => store m (fst p) (snd p)) l m.

(** The stores of the two loops over the pixels of the output, run from 0 in
    steps of 1, when pixel [(x, y)] is stored at [loc x y]. *)
Definition locWrites (W H C : Z) (loc : Z -> Z -> Z)
    (pixel : Z -> Z -> color) (area : Z) : list (Z * Z) :=
  flat_map (fun y =>
    flat_map (fun x => pixelWrites C (loc x y) (pixel x y) area) (zrange W))
    (zrange H).

Definition loopWrites (W H C : Z) (pixel : Z -> Z -> color) (area : Z)
    (outStep shift out : Z) : list (Z * Z) :=
  locWrites W H C (fun x y => out + (y + 1) * shift + x * outStep) pixel area.

(** The mirror flags [(x, y)] that [ResizeFunc] reads for the image. *)
Definition flagsOf (pMirrorInfo : option (list MirroringInfo)) (imgIdx : Z)
    : bool * bool :=
  match pMirrorInfo with
  | Some mi =>
      let m := nth (Z.to_nat imgIdx) mi grid0 in
      (negb (px m =? 0), negb (py m =? 0))
  | None => (false, false)
  end.

(** The offset in the output raster of pixel [(x, y)] of image [imgIdx] under
    the mirror flags [fl]: column [W - 1 - x] when mirrored on X, row
    [H - 1 - y] when mirrored on Y. *)
Definition outLoc (W H C : Z) (fl : bool * bool) (imgIdx x y : Z) : Z :=
  ((H * imgIdx + (if snd fl then H - 1 - y else y)) * W
   + (if fst fl then W - 1 - x else x)) * C.

(** The byte of channel [ch] of the resized pixel [(x, y)] under the
    area-weighted interpolation: the rounded mean of the source image over
    the resized pixel. *)
Definition linearValue (W0 H0 C : Z) (img : raster) (in_ : Z)
    (sx0 sy0 sx1 sy1 cropX cropY x y ch : Z) : Z :=
  quant (sx1 * sy1)
        (areaSum W0 H0 C img in_ sx0 sy0 sx1 sy1
                 ((x + cropX) * sx1) ((y + cropY) * sy1) ch).

(** A raster of [uint8]: every byte is in [[0, 256)]. *)
Definition bytes (m : raster) : Prop := forall a, 0 <= m a < 256.

(* ------------------------------------------------------------------ *)
(** ** What the coordinator leaves behind *)

(** The shape [DataDependentSetupGPU] gives to output [i] when the resize,
    the grid parameters and the mirroring are described: the size that
    [DefineCrop] returns and the channels of the input. *)
Definition outShapeOf (pResize : ResizeAttr) (input : TensorList) (i : nat)
    : list Z :=
  let shape := tensor_shape input i in
  let '(_, out_size) := SetSize pResize shape i in
  let '(out_size', _) := DefineCrop pResize out_size i in
  [height out_size'; width out_size'; nth 2 shape 0].

(* ------------------------------------------------------------------ *)
(** ** The threads of a block *)

(** The values [i, i + step, ...] below [bound] that a [for] loop visits. *)
Fixpoint strided (fuel : nat) (i step bound : Z) : list Z :=
  match fuel with
  | O => []
  | S fuel' => if i <? bound then i :: strided fuel' (i + step) step bound else []
  end.

Definition stridedRange (start step bound : Z) : list Z :=
  strided (Z.to_nat (bound - start)) start step bound.

(** The stores for the columns [xs] of the rows [ys], pixel [(x, y)] stored
    at [loc x y]. *)
Definition locWritesOn (xs ys : list Z) (C : Z) (loc : Z -> Z -> Z)
    (pixel : Z -> Z -> color) (area : Z) : list (Z * Z) :=
  flat_map (fun y =>
    flat_map (fun x => pixelWrites C (loc x y) (pixel x y) area) xs) ys.

(** The colour function and the divisor of the branch that [ResizeFunc]
    takes for the tables it is given. *)
Definition kernelPixel (W0 H0 : Z) (img_in : raster) (C : Z)
    (resizeParam : list ResizeGridParam) (imgIdx : Z)
    (pMapping : option (list MappingInfo))
    (pResizeMapping : option (list ResizeMapping))
    (pPixMapping : option (list PixMapping)) : (Z -> Z -> color) * Z :=
  let sx0 := u32 (px (param_at resizeParam 0)) in
  let sy0 := u32 (py (param_at resizeParam 0)) in
  let sx1 := u32 (px (param_at resizeParam 1)) in
  let sy1 := u32 (py (param_at resizeParam 1)) in
  let cropX := u32 (px (param_at resizeParam 2)) in
  let cropY := u32 (py (param_at resizeParam 2)) in
  let area := u32 (sx1 * sy1) in
  let in_ := H0 * nYoffset W0 C * imgIdx in
  match pMapping with
  | Some mapping =>
      (pixelNN W0 img_in C sx0 sy0 sx1 sy1 cropX cropY in_ mapping, 1)
  | None =>
      match pResizeMapping, pPixMapping with
      | Some rm, Some pm =>
          (pixelTable W0 img_in C sx0 sy0 sx1 sy1 cropX cropY in_ rm pm, area)
      | _, _ =>
          (pixelLinear W0 img_in C sx0 sy0 sx1 sy1 cropX cropY in_, area)
      end
  end.

(** The threads [(threadIdx.x, threadIdx.y)] of a block of
    [blockDim = (bdx, bdy)]. *)
Definition blockThreads (bdx bdy : Z) : list (Z * Z) :=
  flat_map (fun ty => map (fun tx => (tx, ty)) (zrange bdx)) (zrange bdy).

(** The threads [ths] of a block run one after the other on the output
    raster: [kernel tx ty m] is the raster after the thread
    [(tx, ty)] has run on [m]. *)
Definition runThreads (kernel : Z -> Z -> raster -> raster)
    (ths : list (Z * Z)) (m : raster) : raster :=
  fold_left (fun m th => kernel (fst th) (snd th) m) ths m.

(** [BatchedCongenericResizeKernel] for the thread [(tx, ty)] of the block
    [imagIdx] of a launch with [blockDim = (bdx, bdy)]; [pMirrorInfo + imagIdx]
    is the array from its entry [imagIdx] on. *)
Definition BatchedCongenericResizeKernel (H0 W0 : Z) (img_in : raster)
    (H W : Z) (img_out : raster) (C : Z) (resizeParam : list ResizeGridParam)
    (pMirrorInfo : list MirroringInfo)
    (ppMapping : option (list (list MappingInfo)))
    (pResizeMapping : option (list ResizeMapping))
    (pPixMapping : option (list PixMapping))
    (imagIdx : Z) (bdx bdy tx ty : Z) : raster :=
  ResizeFunc W0 H0 img_in W H img_out C resizeParam
    (Some (skipn (Z.to_nat imagIdx) pMirrorInfo)) imagIdx tx bdx ty bdy
    (match ppMapping with Some pp => Some (nth 0 pp []) | None => None end)
    pResizeMapping pPixMapping.

(** [BatchedResizeKernel] for the thread [(tx, ty)] of the block [imagIdx]:
    every image has its own sizes, rasters and grid parameters;
    [img_out] is the raster behind [imgs_out[imagIdx]]. *)
Definition BatchedResizeKernel (C : Z) (resizeDescr : list ResizeGridParam)
    (ppMapping : option (list (list MappingInfo)))
    (pMirrorInfo : list MirroringInfo)
    (in_sizes : list DALISize) (imgs_in : list raster)
    (out_sizes : list DALISize) (img_out : raster)
    (imagIdx : Z) (bdx bdy tx ty : Z) : raster :=
  let i := Z.to_nat imagIdx in
  let resizeParam := skipn (N_GRID_PARAMS * i) resizeDescr in
  let W0 := width (nth i in_sizes {| height := 0; width := 0 |}) in
  let H0 := height (nth i in_sizes {| height := 0; width := 0 |}) in
  let W := width (nth i out_sizes {| height := 0; width := 0 |}) in
  let H := height (nth i out_sizes {| height := 0; width := 0 |}) in
  ResizeFunc W0 H0 (nth i imgs_in (fun _ => 0)) W H img_out C resizeParam
    (Some (skipn i pMirrorInfo)) 0 tx bdx ty bdy
    (match ppMapping with Some pp => Some (nth i pp []) | None => None end)
    None None.

(** The source image mirrored on Y: pixel [(i, j)] of the result is pixel
    [(H0 - 1 - i, j)] of [img], for every image of the batch. *)
Definition mirrorY (W0 H0 C : Z) (img : raster) : raster :=
  fun a =>
    let p := a / C in
    let r := p / W0 in
    img ((((r / H0) * H0 + (H0 - 1 - r mod H0)) * W0 + p mod W0) * C + a mod C).

(** Channel [ch] of the sum of the source pixels of the block of [ky] rows
    and [kx] columns whose first pixel is [(i0, j0)]. *)
Definition blockSum (W0 C : Z) (img : raster) (in_ : Z) (i0 j0 ky kx ch : Z) : Z :=
  zsum (fun i => zsum (fun j => img (in_ + (i * W0 + j) * C + ch))
                      j0 (Z.to_nat kx))
       i0 (Z.to_nat ky).

(* ================================================================== *)
(** * The crop operator on the CPU *)

(** [p[a] = v] on a buffer of any element type. *)
Definition storeAt {V : Type} (m : Z -> V) (a : Z) (v : V) : Z -> V :=
  fun a' => if a' =? a then v else m a'.

Section CropKernel.
Context {Out : Type}.
(** [conv2(conv1(x))]: the conversion of an input byte to the type of the
    output. *)
Variable conv : Z -> Out.

(** [CropKernel] as [CROP_KERNEL] defines it; [nchw] is
    [layout == DALI_NCHW], the other branch is the layout NHWC. *)
Definition CropKernel (C H W : Z) (input_ptr : raster) (in_stride : Z)
    (nchw : bool) (output_ptr : Z -> Out) : Z -> Out :=
  if nchw then
    for_range 0 1 C (fun c out =>
      for_range 0 1 H (fun h out =>
        (* from HWC to CHW *)
        let in_idx := h * in_stride + c in
        let out_idx := (c * H + h) * W in
        for_range 0 1 W (fun w out =>
          storeAt out (out_idx + w) (conv (input_ptr (in_idx + w * C)))) out)
        out) output_ptr
  else
    for_range 0 1 C (fun c out =>
      for_range 0 1 H (fun h out =>
        (* from HWC to HWC *)
        let in_idx := h * in_stride + c in
        let out_idx := h * W * C + c in
        for_range 0 1 W (fun w out =>
          storeAt out (out_idx + w * C) (conv (input_ptr (in_idx + w * C)))) out)
        out) output_ptr.

(** [CropKernel] of the earlier version of the operator, which computes both
    indices inside the innermost loop. *)
Definition CropKernel_v0 (C H W : Z) (input_ptr : raster) (in_stride : Z)
    (nchw : bool) (output_ptr : Z -> Out) : Z -> Out :=
  if nchw then
    for_range 0 1 C (fun c out =>
      for_range 0 1 H (fun h out =>
        for_range 0 1 W (fun w out =>
          (* from HWC *)
          let in_idx := h * in_stride + w * C + c in
          (* to CHW *)
          let out_idx := (c * H + h) * W + w in
          storeAt out out_idx (conv (input_ptr in_idx))) out) out) output_ptr
  else
    for_range 0 1 C (fun c out =>
      for_range 0 1 H (fun h out =>
        for_range 0 1 W (fun w out =>
          (* from HWC *)
          let in_idx := h * in_stride + w * C + c in
          (* to HWC *)
          let out_idx := (h * W + w) * C + c in
          storeAt out out_idx (conv (input_ptr in_idx))) out) out) output_ptr.

(** Modelled from the spec: the macros [DALI_ASSERT] and [DALI_CALL] of
    error_handling.h are not part of the sources; a failed check of
    [ValidateCrop] is a configuration error, raised by [DALI_CALL] before the
    kernel runs.  [in_img] and [out_img] tell whether the pointers are not
    null. *)
Definition ValidateCrop (in_img : bool) (H W C : Z) (out_img : bool)
    : result unit :=
  DALI_ENFORCE (H >? 0) "H > 0" ;;;
  DALI_ENFORCE (W >? 0) "W > 0" ;;;
  DALI_ENFORCE ((C =? 1) || (C =? 3)) "C == 1 || C == 3" ;;;
  DALI_ENFORCE in_img "in_img != nullptr" ;;;
  DALI_ENFORCE out_img "out_img != nullptr".

(** [Crop<CPUBackend>::RunHelper] with [PrepareCropParam]: [crop_H], [crop_W]
    are [crop_[0]], [crop_[1]]; [W] is the width of the input image
    ([per_sample_dimensions_]) and [(crop_y, crop_x)] the corner of the crop
    window ([per_sample_crop_]); [input] and [output] are the buffers of the
    tensors ([None] for a null pointer).  The result is the output buffer
    after the kernel. *)
Definition RunHelper (C_ crop_H crop_W : Z) (nchw : bool)
    (input : option raster) (output : option (Z -> Out))
    (W crop_y crop_x : Z) : result (Z -> Out) :=
  ValidateCrop (match input with Some _ => true | None => false end)
               crop_H crop_W C_
               (match output with Some _ => true | None => false end) ;;;
  match input, output with
  | Some data, Some out =>
      let input_ptr := fun a => data ((crop_y * W + crop_x) * C_ + a) in
      let stride := W * C_ in
      Ok (CropKernel C_ crop_H crop_W input_ptr stride nchw out)
  | _, _ => Throw "null pointer"
  end.

End CropKernel.

(** The stores of a list on a buffer of any element type. *)
Definition writeAllV {V : Type} (l : list (Z * V)) (m : Z -> V) : Z -> V :=
  fold_left (fun m p => storeAt m (fst p) (snd p)) l m.

(** The stores of the three loops of [CropKernel], the element [(c, h, w)]
    stored at [addr c h w]. *)
Definition cropStores {V : Type} (conv : Z -> V) (C H W : Z) (input : raster)
    (stride : Z) (addr : Z -> Z -> Z -> Z) : list (Z * V) :=
  flat_map (fun c =>
    flat_map (fun h =>
      map (fun w => (addr c h w, conv (input (h * stride + w * C + c))))
          (zrange W)) (zrange H)) (zrange C).

(* ================================================================== *)
(** * The kernel that builds the nearest-neighbour tables *)

(** [ConstructResizeTables] for the thread [(tx, ty)] of the block [imagIdx]
    ([blockIdx.x]) with [bdx x bdy] threads.  A pointer to [MappingInfo] is an
    offset into the memory [mem] of the tables ([None] for NULL);
    [pResizeMapping] is the array of these pointers.  The result is the array
    after [pResizeMapping[imagIdx] = resizeMapping] and the helper after
    [constructTable], whose table is the memory from [resizeMapping] on. *)
Definition ConstructResizeTables {F : Type} {FO : FloatOps F}
    (nBatchSlice : Z) (resizeParam : list ResizeGridParam)
    (in_sizes : option (list DALISize)) (C W0 : Z)
    (pResizeMapping : list (option Z)) (mem : list MappingInfo)
    (imagIdx bdx bdy tx ty : Z) : list (option Z) * PixMappingHelper :=
  let idx := imagIdx mod nBatchSlice in
  let resizeMapping := nth (Z.to_nat idx) pResizeMapping None in
  let '(resizeMapping, pResizeMapping, resizeParam, imagIdx) :=
    if nBatchSlice >? 1 then
      let resizeMapping :=
        match resizeMapping with
        | Some p =>
            Some (snd (for_range (idx + nBatchSlice) nBatchSlice imagIdx
                         (fun i '(idx, p) =>
                            let g := nth (Z.to_nat idx * N_GRID_PARAMS)
                                         resizeParam grid0 in
                            (i, p + px g * py g))
                         (idx, p)))
        | None => None
        end in
      (resizeMapping, upd pResizeMapping (Z.to_nat imagIdx) resizeMapping,
       skipn (N_GRID_PARAMS * Z.to_nat imagIdx) resizeParam, imagIdx)
    else (resizeMapping, pResizeMapping, resizeParam, 0) in
  let W0 :=
    match in_sizes with
    | Some s => width (nth (Z.to_nat imagIdx) s {| height := 0; width := 0 |})
    | None => W0
    end in
  let sx0 := u32 (px (nth 0 resizeParam grid0)) in
  let sy0 := u32 (py (nth 0 resizeParam grid0)) in
  let sx1 := u32 (px (nth 1 resizeParam grid0)) in
  let sy1 := u32 (py (nth 1 resizeParam grid0)) in
  let helper :=
    mkPixMappingHelper (sx0 * sy0) []
      (match resizeMapping with
       | Some p => skipn (Z.to_nat p) mem
       | None => []
       end) (sx1 * sy1) None in
  (pResizeMapping,
   constructTable C W0 sx0 sy0 sx1 sy1 helper bdx bdy tx ty).

(** The length [sx0 * sy0] of the table of image [i], read from the grid
    parameters. *)
Definition tableLen (resizeParam : list ResizeGridParam) (i : Z) : Z :=
  let g := nth (Z.to_nat i * N_GRID_PARAMS) resizeParam grid0 in
  px g * py g.

(* ================================================================== *)
(** * The range of [int] *)

(** [lcm] as the compiled code evaluates it: [int] has 32 bits and the
    product [a / gcf(a, b) * b] wraps to it (the overflow is undefined in
    C++). *)
Definition lcm_int (a b : Z) : Z := to_int (Z.quot a (gcf a b) * b).

(** The input and the output extents of image [i] are positive and their
    least common multiples fit an [int]: the divisions [lcmH / H0],
    [lcmH / H1], [lcmW / W0], [lcmW / W1] of [DataDependentSetupGPU] have no
    zero divisor and [lcm] does not overflow. *)
Definition extents_ok (pResize : ResizeAttr) (input : TensorList) (i : nat)
    : Prop :=
  let '(input_size, out_size) := SetSize pResize (tensor_shape input i) i in
  0 < height input_size /\ 0 < width input_size /\
  0 < height out_size /\ 0 < width out_size /\
  Z.lcm (height input_size) (height out_size) <= INT_MAX /\
  Z.lcm (width input_size) (width out_size) <= INT_MAX.



(* ================================================================== *)
(** * Properties of the rational grid calculator *)

(** The loop of [gcf] stops by itself: fuel beyond [|b|] is never used. *)
Lemma gcf_loop_fuel : forall fuel fuel' a b,
  (Z.to_nat (Z.abs b) < fuel)%nat -> (Z.to_nat (Z.abs b) < fuel')%nat ->
  gcf_loop fuel a b = gcf_loop fuel' a b.
Proof.
  induction fuel as [|fuel IH]; intros fuel' a b Hf Hf'; [lia|].
  destruct fuel' as [|fuel']; [lia|]. simpl.
  destruct (Z.eqb_spec b 0) as [->|Hb]; [reflexivity|].
  pose proof (Z.rem_bound_abs a b Hb).
  apply IH; lia.
Qed.

Lemma gcf_loop_gcd : forall fuel a b,
  0 <= a -> 0 <= b -> (Z.to_nat b < fuel)%nat ->
  gcf_loop fuel a b = Z.gcd a b.
Proof.
  induction fuel as [|fuel IH]; intros a b Ha Hb Hf; [lia|]. simpl.
  destruct (Z.eqb_spec b 0) as [->|Hb0].
  - rewrite Z.gcd_0_r. lia.
  - rewrite Z.rem_mod_nonneg by lia.
    pose proof (Z.mod_pos_bound a b ltac:(lia)).
    rewrite IH by lia.
    rewrite (Z.gcd_comm b), Z.gcd_mod by lia. apply Z.gcd_comm.
Qed.

Lemma gcf_gcd a b : 0 <= a -> 0 <= b -> gcf a b = Z.gcd a b.
Proof.
  intros Ha Hb. unfold gcf.
  destruct (Z.gtb_spec b a).
  - rewrite gcf_loop_gcd by lia. apply Z.gcd_comm.
  - apply gcf_loop_gcd; lia.
Qed.

Lemma gcd_pos a b : 0 < a -> 0 < Z.gcd a b.
Proof.
  intros Ha. pose proof (Z.gcd_nonneg a b).
  destruct (Z.eq_dec (Z.gcd a b) 0) as [E|]; [|lia].
  apply Z.gcd_eq_0_l in E. lia.
Qed.

Lemma lcm_eq a b : 0 < a -> 0 < b -> lcm a b = a / Z.gcd a b * b.
Proof.
  intros Ha Hb. unfold lcm. rewrite gcf_gcd by lia.
  rewrite Z.quot_div_nonneg; [reflexivity|lia|apply gcd_pos; lia].
Qed.

(** The steps are the extents divided by their gcd, crosswise. *)
Lemma steps_eq d0 d1 : 0 < d0 -> 0 < d1 ->
  stepSrc d0 d1 = d1 / Z.gcd d0 d1 /\ stepDst d0 d1 = d0 / Z.gcd d0 d1 /\
  lcm d0 d1 = d0 * (d1 / Z.gcd d0 d1) /\ lcm d0 d1 = d1 * (d0 / Z.gcd d0 d1).
Proof.
  intros H0 H1. unfold stepSrc, stepDst. rewrite lcm_eq by lia.
  pose proof (gcd_pos d0 d1 H0) as Hg.
  destruct (Z.gcd_divide_l d0 d1) as [p Hp].
  destruct (Z.gcd_divide_r d0 d1) as [q Hq].
  set (g := Z.gcd d0 d1) in *. clearbody g. subst d0 d1.
  rewrite !Z.div_mul by lia.
  assert (0 < p) by nia. assert (0 < q) by nia.
  repeat split.
  - rewrite Z.quot_div_nonneg by nia.
    replace (p * (q * g)) with (q * (p * g)) by ring. apply Z.div_mul; nia.
  - rewrite Z.quot_div_nonneg by nia. apply Z.div_mul; nia.
  - ring.
  - ring.
Qed.

Lemma steps_pos d0 d1 : 0 < d0 -> 0 < d1 ->
  0 < stepSrc d0 d1 /\ 0 < stepDst d0 d1.
Proof.
  intros H0 H1. destruct (steps_eq d0 d1 H0 H1) as (-> & -> & _ & _).
  pose proof (gcd_pos d0 d1 H0) as Hg.
  destruct (Z.gcd_divide_l d0 d1) as [p Hp].
  destruct (Z.gcd_divide_r d0 d1) as [q Hq].
  set (g := Z.gcd d0 d1) in *. clearbody g. subst d0 d1.
  rewrite !Z.div_mul by lia. nia.
Qed.

Lemma steps_coprime d0 d1 : 0 < d0 -> 0 < d1 ->
  Z.gcd (stepSrc d0 d1) (stepDst d0 d1) = 1.
Proof.
  intros H0 H1. destruct (steps_eq d0 d1 H0 H1) as (-> & -> & _ & _).
  rewrite Z.gcd_comm. apply Z.gcd_div_gcd; [|reflexivity].
  pose proof (gcd_pos d0 d1 H0). lia.
Qed.

Lemma lcm_Zlcm a b : 0 < a -> 0 < b -> lcm a b = Z.lcm a b.
Proof.
  intros Ha Hb. rewrite lcm_eq by assumption. unfold Z.lcm.
  pose proof (gcd_pos a b Ha) as Hg.
  destruct (Z.gcd_divide_l a b) as [p Hp].
  destruct (Z.gcd_divide_r a b) as [q Hq].
  set (g := Z.gcd a b) in *. clearbody g.
  assert (Hp0 : 0 < p) by nia. assert (Hq0 : 0 < q) by nia.
  subst a b. rewrite !Z.div_mul by lia.
  rewrite Z.abs_eq by nia. ring.
Qed.

(** Where the least common multiple fits an [int] the product of [lcm] does
    not wrap: the code returns the exact value. *)
Lemma lcm_int_exact a b :
  0 < a -> 0 < b -> Z.lcm a b <= INT_MAX -> lcm_int a b = lcm a b.
Proof.
  intros Ha Hb Hfit. unfold lcm_int. fold (lcm a b).
  rewrite lcm_Zlcm by assumption.
  pose proof (Z.lcm_nonneg a b). unfold to_int, INT_MAX in *.
  rewrite Z.mod_small by lia. lia.
Qed.

(** C4 (amended). For positive extents [d0], [d1] whose least common
    multiple fits an [int], the product of [lcm] does not wrap and
    [gcf d0 d1 * lcm d0 d1 = d0 * d1]; the grid steps
    [stepSrc = lcm / d0] and [stepDst = lcm / d1] satisfy
    [d0 * stepSrc = d1 * stepDst = lcm d0 d1]; and both steps are 1 when
    [d0 = d1]. *)
Theorem C4_rational_exactness (d0 d1 : Z) :
  0 < d0 -> 0 < d1 -> Z.lcm d0 d1 <= INT_MAX ->
  lcm_int d0 d1 = lcm d0 d1 /\
  gcf d0 d1 * lcm d0 d1 = d0 * d1 /\
  d0 * stepSrc d0 d1 = lcm d0 d1 /\
  d1 * stepDst d0 d1 = lcm d0 d1 /\
  (d0 = d1 -> stepSrc d0 d1 = 1 /\ stepDst d0 d1 = 1).
Proof.
  intros H0 H1 Hfit.
  destruct (steps_eq d0 d1 H0 H1) as (Es & Ed & El0 & El1).
  pose proof (gcd_pos d0 d1 H0) as Hg.
  split; [apply lcm_int_exact; assumption|].
  split; [|split; [|split]].
  - rewrite gcf_gcd by lia. rewrite El0.
    destruct (Z.gcd_divide_r d0 d1) as [q Hq].
    set (g := Z.gcd d0 d1) in *. clearbody g. subst d1.
    rewrite Z.div_mul by lia. ring.
  - rewrite Es. lia.
  - rewrite Ed. lia.
  - intros E. rewrite Es, Ed. subst d1.
    rewrite Z.gcd_diag, Z.abs_eq by lia.
    split; apply Z.div_same; lia.
Qed.

Lemma C4_rational_exactness_witness :
  lcm_int 4 6 = lcm 4 6 /\ gcf 4 6 * lcm 4 6 = 4 * 6 /\
  4 * stepSrc 4 6 = lcm 4 6 /\ 6 * stepDst 4 6 = lcm 4 6.
Proof.
  pose proof (C4_rational_exactness 4 6 ltac:(lia) ltac:(lia)
                ltac:(vm_compute; discriminate)) as (A & B & D & E & _).
  repeat split; assumption.
Defined.

(** C4, as stated, fails: the least common multiple of 65536 and 65537 is
    [2 ^ 32 + 65536], and the product of [lcm] wraps to 65536; the steps
    computed from it are 1 and 0, so [d0 * stepSrc] is 65536 and
    [d1 * stepDst] is 0, and [gcf * lcm] is not [d0 * d1]. *)
Lemma C4_counterexample :
  let d0 := 65536 in
  let d1 := 65537 in
  let lcmW := lcm_int d0 d1 in
  lcmW = 65536 /\ Z.quot lcmW d0 = 1 /\ Z.quot lcmW d1 = 0 /\
  d0 * Z.quot lcmW d0 <> d1 * Z.quot lcmW d1 /\
  gcf d0 d1 * lcmW <> d0 * d1.
Proof.
  vm_compute. repeat split; discriminate.
Qed.


(* ================================================================== *)
(** * Properties of the arrays *)

Lemma upd_length {A} (l : list A) n v : List.length (upd l n v) = List.length l.
Proof.
  revert n; induction l as [|h t IH]; intros [|n]; simpl; auto.
Qed.

Lemma nth_upd_eq {A} (l : list A) n v d :
  (n < List.length l)%nat -> nth n (upd l n v) d = v.
Proof.
  revert n; induction l as [|h t IH]; intros [|n] H; simpl in *; try lia; auto.
  apply IH; lia.
Qed.

Lemma nth_upd_neq {A} (l : list A) n m v d :
  n <> m -> nth m (upd l n v) d = nth m l d.
Proof.
  revert n m; induction l as [|h t IH]; intros [|n] [|m] H; simpl; auto; try lia.
Qed.

Lemma nth_upd {A} (l : list A) n m v d :
  nth m (upd l n v) d =
  if (Nat.eqb n m && Nat.ltb n (List.length l))%bool then v else nth m l d.
Proof.
  destruct (Nat.eqb_spec n m) as [->|Hne]; simpl.
  - destruct (Nat.ltb_spec m (List.length l)).
    + apply nth_upd_eq; auto.
    + rewrite !nth_overflow; auto. rewrite upd_length; auto.
  - apply nth_upd_neq; auto.
Qed.

(* ================================================================== *)
(** * Properties of the coordinator *)

Lemma setup_image_invalid descr input bs rb i st :
  valid_shape (tensor_shape input i) = false ->
  exists msg, setup_image descr input bs rb i st = Throw msg.
Proof.
  unfold valid_shape, setup_image. intros Hv.
  destruct (List.length (tensor_shape input i) =? 3)%nat; simpl in *.
  - rewrite Hv. simpl. eauto.
  - eauto.
Qed.

Lemma setup_loop_invalid descr input bs rb : forall n i st j,
  (i <= j < i + n)%nat -> valid_shape (tensor_shape input j) = false ->
  exists msg, setup_loop descr input bs rb n i st = Throw msg.
Proof.
  induction n as [|n IH]; intros i st j Hj Hv; [lia|]. simpl.
  destruct (setup_image descr input bs rb i st) as [st'|msg] eqn:E; simpl.
  - destruct (Nat.eq_dec i j) as [->|Hne].
    + destruct (setup_image_invalid descr input bs rb j st Hv) as [m Hm].
      congruence.
    + apply (IH (S i) st' j); auto. lia.
  - eauto.
Qed.

(** C8. An input with a shape that is not three-dimensional, or with a
    channel count other than 1 and 3, makes the setup functions raise an
    error: [DataDependentSetupGPU] for any image of the batch,
    [DataDependentSetupCPU] for its sample; and [RunImpl], which runs the
    setup before everything else, raises it without reaching the dispatch
    of the kernels (its continuation [rest]). *)
Theorem C8_invalid_shape_raises_before_dispatch :
  (forall input batch_size reshapeBatch szs descr mem tot i,
      (i < batch_size)%nat ->
      valid_shape (tensor_shape input i) = false ->
      exists msg,
        DataDependentSetupGPU input batch_size reshapeBatch szs descr mem tot
        = Throw msg) /\
  (forall input pOpName out_size,
      valid_shape (t_shape input) = false ->
      exists msg, DataDependentSetupCPU input pOpName out_size = Throw msg) /\
  (forall (K : Type) op batch_size use_NN nslice mem tot input
          (rest : SetupState -> K) i,
      (i < batch_size)%nat ->
      valid_shape (tensor_shape input i) = false ->
      exists msg,
        RunImpl op batch_size use_NN nslice mem tot input rest = Throw msg).
Proof.
  assert (G : forall input batch_size reshapeBatch szs descr mem tot i,
      (i < batch_size)%nat ->
      valid_shape (tensor_shape input i) = false ->
      exists msg,
        DataDependentSetupGPU input batch_size reshapeBatch szs descr mem tot
        = Throw msg).
  { intros input bs rb szs descr mem tot i Hi Hv. unfold DataDependentSetupGPU.
    destruct (tl_is_uint8 input); simpl; [|eauto].
    apply (setup_loop_invalid descr input bs rb bs 0%nat _ i); auto. lia. }
  split; [exact G|split].
  - intros input name out_size Hv.
    unfold DataDependentSetupCPU, valid_shape in *.
    destruct (List.length (t_shape input) =? 3)%nat; simpl in *; [|eauto].
    destruct (t_is_uint8 input); simpl; [|eauto].
    rewrite Hv. simpl. eauto.
  - intros K op bs use_NN nslice mem tot input rest i Hi Hv. unfold RunImpl.
    destruct (G input bs false None
                (Some (RunImpl_descr op bs use_NN nslice)) mem tot i Hi Hv)
      as [msg ->].
    simpl. eauto.
Qed.

Lemma C8_invalid_shape_raises_before_dispatch_witness :
  exists msg,
    DataDependentSetupGPU
      {| tl_is_uint8 := true; tl_shapes := [[4; 4; 3]; [4; 4; 2]] |}
      2 false None None [] [] = Throw msg.
Proof.
  apply (proj1 C8_invalid_shape_raises_before_dispatch
           {| tl_is_uint8 := true; tl_shapes := [[4; 4; 3]; [4; 4; 2]] |}
           2%nat false None None [] [] 1%nat); [lia|reflexivity].
Defined.


Section Coordinator.
Variables (R : ResizeAttr) (base mbase : nat) (ptot : bool) (S : Z).
Variables (input : TensorList) (bs : nat) (rb : bool).

Let d : ResizeParamDescr :=
  {| pResize_ := Some R; pResizeParam_ := Some base; pMirroring_ := Some mbase;
     pTotalSize_ := ptot; nBatchSlice_ := S |}.

Lemma grid_eta (g : ResizeGridParam) : {| px := px g; py := py g |} = g.
Proof. destruct g; reflexivity. Qed.

Lemma changed_false mem i :
  changed R input base mem i = false <-> stored mem base i = gridOf R input i.
Proof.
  unfold changed, stored. destruct (gridOf R input i) as [[g0 g1] g2].
  rewrite !orb_false_iff, !negb_false_iff, !Z.eqb_eq.
  split.
  - intros (((((A & B) & C') & D') & E) & G).
    rewrite <- (grid_eta (param_at mem (base + i * N_GRID_PARAMS))),
            <- (grid_eta (param_at mem (base + i * N_GRID_PARAMS + 1))),
            <- (grid_eta (param_at mem (base + i * N_GRID_PARAMS + 2))).
    rewrite A, B, C', D', E, G, !grid_eta. reflexivity.
  - intros E. inversion E; subst. repeat split; reflexivity.
Qed.

Lemma setup_image_ok i st :
  valid_shape (tensor_shape input i) = true ->
  exists st',
    setup_image (Some d) input bs rb i st = Ok st' /\
    let '(g0, g1, g2) := gridOf R input i in
    let rp := (base + i * N_GRID_PARAMS)%nat in
    let nr := newResize st || changed R input base (resizeParam st) i in
    newResize st' = nr /\
    resizeParam st' =
      upd (if nr then upd (upd (upd (resizeParam st) rp g0) (rp + 1) g1)
                          (rp + 2) g2
           else resizeParam st) (mbase + i) (MirrorNeeded R i) /\
    totalSize st' =
      if ptot then
        addTotalSize (totalSize st) (Z.to_nat (Z.of_nat i mod S))
                     (px g0) (py g0)
      else totalSize st.
Proof.
  intros Hv. unfold valid_shape in Hv. apply andb_true_iff in Hv as [Hl Hc].
  unfold setup_image, changed, gridOf. rewrite Hl, Hc. simpl.
  destruct (SetSize R (tensor_shape input i) i) as [isz osz].
  destruct (DefineCrop R osz i) as [osz' [cX cY]]. simpl.
  eexists. split; [reflexivity|].
  destruct (pSizes st); [destruct rb|]; simpl;
    (split; [|split; [|reflexivity]]);
    destruct (newResize st); simpl; reflexivity.
Qed.


Lemma setup_image_inv_ok i st st' :
  setup_image (Some d) input bs rb i st = Ok st' ->
  valid_shape (tensor_shape input i) = true.
Proof.
  intros E. destruct (valid_shape (tensor_shape input i)) eqn:Hv; auto.
  destruct (setup_image_invalid (Some d) input bs rb i st Hv) as [m Hm].
  congruence.
Qed.

Lemma stored_upd_other mem p v j :
  (p < base + j * N_GRID_PARAMS \/ base + j * N_GRID_PARAMS + 2 < p)%nat ->
  stored (upd mem p v) base j = stored mem base j.
Proof.
  intros Hp. unfold stored, param_at.
  rewrite !nth_upd_neq by lia. reflexivity.
Qed.

Lemma stored_write3 mem j g0 g1 g2 :
  (base + j * N_GRID_PARAMS + 2 < List.length mem)%nat ->
  stored (upd (upd (upd mem (base + j * N_GRID_PARAMS) g0)
                   (base + j * N_GRID_PARAMS + 1) g1)
              (base + j * N_GRID_PARAMS + 2) g2) base j = (g0, g1, g2).
Proof.
  intros Hl. unfold stored, param_at.
  rewrite (nth_upd_neq _ (base + j * N_GRID_PARAMS + 2)
                         (base + j * N_GRID_PARAMS)) by lia.
  rewrite (nth_upd_neq _ (base + j * N_GRID_PARAMS + 1)
                         (base + j * N_GRID_PARAMS)) by lia.
  rewrite nth_upd_eq by lia.
  rewrite (nth_upd_neq _ (base + j * N_GRID_PARAMS + 2)
                         (base + j * N_GRID_PARAMS + 1)) by lia.
  rewrite nth_upd_eq by (rewrite upd_length; lia).
  rewrite nth_upd_eq by (rewrite !upd_length; lia).
  reflexivity.
Qed.

(** The images [i .. i+n-1] of a batch of [N]: what the loop leaves in the
    memory of the grid parameters, and the flag it computes. *)
Lemma setup_loop_params (N : nat) :
  (mbase >= base + N * N_GRID_PARAMS \/ mbase + N <= base)%nat ->
  forall n i st st',
    (i + n <= N)%nat ->
    (base + N * N_GRID_PARAMS <= List.length (resizeParam st))%nat ->
    setup_loop (Some d) input bs rb n i st = Ok st' ->
    List.length (resizeParam st') = List.length (resizeParam st) /\
    (forall j, (i <= j < i + n)%nat ->
               stored (resizeParam st') base j = gridOf R input j) /\
    (forall j, (j < N)%nat -> (j < i \/ i + n <= j)%nat ->
               stored (resizeParam st') base j = stored (resizeParam st) base j) /\
    (newResize st' = false <->
     newResize st = false /\
     forall j, (i <= j < i + n)%nat ->
               stored (resizeParam st) base j = gridOf R input j).
Proof.
  intros Hm. unfold N_GRID_PARAMS in Hm.
  induction n as [|n IH]; intros i st st' Hin Hlen E; simpl in E.
  - inversion E; subst. repeat split; intros; try lia; tauto.
  - destruct (setup_image (Some d) input bs rb i st) as [st1|] eqn:E1;
      simpl in E; [|discriminate].
    pose proof (setup_image_inv_ok _ _ _ E1) as Hv.
    destruct (setup_image_ok i st Hv) as (st1' & E1' & Hst1).
    rewrite E1 in E1'. inversion E1'; subst st1'. clear E1'.
    destruct (gridOf R input i) as [[g0 g1] g2] eqn:Eg.
    destruct Hst1 as (Hnr & Hmem & _).
    assert (Hlen1 : List.length (resizeParam st1) = List.length (resizeParam st)).
    { rewrite Hmem, upd_length.
      destruct (newResize st || changed R input base (resizeParam st) i);
        rewrite ?upd_length; reflexivity. }
    assert (Hi : stored (resizeParam st1) base i = (g0, g1, g2)).
    { rewrite Hmem. unfold N_GRID_PARAMS in *.
      rewrite stored_upd_other by (unfold N_GRID_PARAMS; lia).
      destruct (newResize st) eqn:Enr; simpl.
      - apply stored_write3. unfold N_GRID_PARAMS. lia.
      - destruct (changed R input base (resizeParam st) i) eqn:Ec.
        + apply stored_write3. unfold N_GRID_PARAMS. lia.
        + apply changed_false in Ec. rewrite Ec. exact Eg. }
    assert (Ho : forall j, (j < N)%nat -> j <> i ->
               stored (resizeParam st1) base j = stored (resizeParam st) base j).
    { intros j Hj Hne. rewrite Hmem.
      rewrite stored_upd_other by (unfold N_GRID_PARAMS; lia).
      destruct (newResize st || changed R input base (resizeParam st) i); auto.
      rewrite !stored_upd_other by (unfold N_GRID_PARAMS; lia). reflexivity. }
    destruct (IH (Datatypes.S i) st1 st' ltac:(lia) ltac:(lia) E)
      as (L1 & L2 & L3 & L4).
    split; [lia|]. split; [|split].
    + intros j Hj. destruct (Nat.eq_dec j i) as [->|Hne].
      * rewrite L3 by lia. rewrite Hi, Eg. reflexivity.
      * apply L2. lia.
    + intros j HjN Hj. rewrite L3 by lia. apply Ho; lia.
    + rewrite L4, Hnr, orb_false_iff, changed_false. split.
      * intros ((A & B) & D'). split; auto.
        intros j Hj. destruct (Nat.eq_dec j i) as [->|Hne]; auto.
        rewrite <- Ho by lia. apply D'. lia.
      * intros (A & B). split; [split; auto; apply B; lia|].
        intros j Hj. rewrite Ho by lia. apply B. lia.
Qed.

End Coordinator.

Lemma setup_gpu_loop input n rb szs descr mem tot st :
  DataDependentSetupGPU input n rb szs descr mem tot = Ok st ->
  exists st0,
    newResize st0 = false /\ resizeParam st0 = mem /\
    setup_loop descr input n rb n 0 st0 = Ok st.
Proof.
  unfold DataDependentSetupGPU. destruct (tl_is_uint8 input); simpl; [|discriminate].
  intros E. eexists. split; [|split; [|exact E]]; reflexivity.
Qed.




Lemma addTotalSize_sat tot idx sx0 sy0 s k :
  (idx < List.length tot)%nat ->
  0 <= sx0 * sy0 <= INT_MAX -> 0 <= s ->
  nth idx tot 0 = Z.min UINT_MAX s ->
  nth k (addTotalSize tot idx sx0 sy0) 0 =
  if (idx =? k)%nat then Z.min UINT_MAX (s + sx0 * sy0) else nth k tot 0.
Proof.
  intros Hl Hp Hs Ht. unfold addTotalSize, u32, u64, UINT_MAX, INT_MAX in *.
  rewrite (Z.mod_small (2 ^ 32 - 1 - sx0 * sy0)) by lia.
  destruct (Nat.eqb_spec idx k) as [->|Hne].
  - destruct (Z.ltb_spec (nth k tot 0) (2 ^ 32 - 1 - sx0 * sy0)).
    + rewrite nth_upd_eq by lia. rewrite Z.mod_small by lia. lia.
    + rewrite nth_upd_eq by lia. lia.
  - destruct (Z.ltb_spec (nth idx tot 0) (2 ^ 32 - 1 - sx0 * sy0));
      rewrite nth_upd_neq by lia; reflexivity.
Qed.

Lemma addTotalSize_length tot idx sx0 sy0 :
  List.length (addTotalSize tot idx sx0 sy0) = List.length tot.
Proof.
  unfold addTotalSize.
  destruct (nth idx tot 0 <? u32 (UINT_MAX - sx0 * sy0)); apply upd_length.
Qed.

Lemma sliceSum_nonneg R input S k n :
  (forall i, (i < n)%nat ->
     let '(p0, _, _) := gridOf R input i in 0 <= px p0 * py p0 <= INT_MAX) ->
  0 <= sliceSum R input S k n.
Proof.
  induction n as [|n IH]; intros Hp; simpl; [lia|].
  specialize (IH (fun i Hi => Hp i (Nat.lt_lt_succ_r _ _ Hi))).
  specialize (Hp n (Nat.lt_succ_diag_r n)).
  destruct (gridOf R input n) as [[p0 p1] p2].
  destruct (Z.to_nat (Z.of_nat n mod S) =? k)%nat; lia.
Qed.

(** The per-slice counters after the images [i .. i+n-1]. *)
Lemma setup_loop_totalSize R base mbase S input bs rb :
  0 < S ->
  forall n i st,
    (forall j, (j < i + n)%nat -> valid_shape (tensor_shape input j) = true) ->
    (forall j, (j < i + n)%nat ->
       let '(p0, _, _) := gridOf R input j in 0 <= px p0 * py p0 <= INT_MAX) ->
    (Z.to_nat S <= List.length (totalSize st))%nat ->
    (forall k, (k < Z.to_nat S)%nat ->
       nth k (totalSize st) 0 = Z.min UINT_MAX (sliceSum R input S k i)) ->
    exists st',
      setup_loop (Some (descrOf R base mbase true S)) input bs rb n i st = Ok st' /\
      forall k, (k < Z.to_nat S)%nat ->
        nth k (totalSize st') 0 = Z.min UINT_MAX (sliceSum R input S k (i + n)).
Proof.
  intros HS. induction n as [|n IH]; intros i st Hv Hp Hl Ht; simpl.
  - exists st. split; [reflexivity|]. intros k Hk. rewrite Nat.add_0_r. auto.
  - destruct (setup_image_ok R base mbase true S input bs rb i st
                (Hv i ltac:(lia))) as (st1 & E1 & H1).
    unfold descrOf. rewrite E1. simpl.
    pose proof (Hp i ltac:(lia)) as Hpi.
    destruct (gridOf R input i) as [[g0 g1] g2] eqn:Eg.
    destruct H1 as (_ & _ & Htot).
    pose proof (Z.mod_pos_bound (Z.of_nat i) S HS) as Hmod.
    destruct (IH (Datatypes.S i) st1) as (st' & E' & H').
    + intros j Hj. apply Hv. lia.
    + intros j Hj. apply Hp. lia.
    + rewrite Htot, addTotalSize_length. exact Hl.
    + intros k Hk. rewrite Htot.
      rewrite (addTotalSize_sat _ _ _ _ (sliceSum R input S (Z.to_nat (Z.of_nat i mod S)) i));
        try lia.
      * simpl. rewrite Eg.
        destruct (Nat.eqb_spec (Z.to_nat (Z.of_nat i mod S)) k) as [<-|Hne].
        -- reflexivity.
        -- rewrite Z.add_0_r. apply Ht. exact Hk.
      * apply sliceSum_nonneg. intros j Hj. apply Hp. lia.
      * apply Ht. lia.
    + exists st'. split; [exact E'|].
      intros k Hk. replace (i + Datatypes.S n)%nat with (Datatypes.S i + n)%nat by lia.
      apply H'. exact Hk.
Qed.

Lemma memset0_nth n l k :
  (n <= List.length l)%nat -> (k < n)%nat -> nth k (memset0 n l) 0 = 0.
Proof.
  intros Hn Hk. unfold memset0. rewrite Nat.min_l by lia.
  rewrite app_nth1 by (rewrite repeat_length; lia).
  apply nth_repeat.
Qed.

Lemma memset0_length n l : List.length (memset0 n l) = List.length l.
Proof.
  unfold memset0. rewrite length_app, repeat_length, length_skipn. lia.
Qed.

(** C1 (amended). For a batch of well-formed images with positive extents
    (their least common multiples and the products [sx0 * sy0] within
    [int], at least one slice) the coordinator raises no error, however
    large the sums of the products [sx0 * sy0] of the grid steps are: it
    returns, and the counter of every slice holds the sum of the products
    of the images of the slice, saturated at [UINT_MAX]. *)
Theorem C1_total_size_saturates :
  forall R base mbase S input bs rb szs mem tot,
    tl_is_uint8 input = true ->
    (forall i, (i < bs)%nat -> valid_shape (tensor_shape input i) = true) ->
    (forall i, (i < bs)%nat -> extents_ok R input i) ->
    (forall i, (i < bs)%nat ->
       let '(p0, _, _) := gridOf R input i in 0 <= px p0 * py p0 <= INT_MAX) ->
    0 < S -> (Z.to_nat S <= List.length tot)%nat ->
    exists st,
      DataDependentSetupGPU input bs rb szs
        (Some (descrOf R base mbase true S)) mem tot = Ok st /\
      forall k, (k < Z.to_nat S)%nat ->
        nth k (totalSize st) 0 = Z.min UINT_MAX (sliceSum R input S k bs).
Proof.
  intros R base mbase S input bs rb szs mem tot Hu Hv _ Hp HS Hl.
  unfold DataDependentSetupGPU. rewrite Hu. simpl.
  apply (setup_loop_totalSize R base mbase S input bs rb HS bs 0%nat); simpl; auto.
  - rewrite memset0_length. exact Hl.
  - intros k Hk. rewrite memset0_nth by lia. reflexivity.
Qed.

Lemma C1_total_size_saturates_witness :
  exists st,
    runBig3 = Ok st /\
    forall k, (k < Z.to_nat 1)%nat ->
      nth k (totalSize st) 0 =
      Z.min UINT_MAX
        (sliceSum (resizeTo (size_of 46340 46340) (0, 0)) big3 1 k 3).
Proof.
  apply (C1_total_size_saturates (resizeTo (size_of 46340 46340) (0, 0))
           0%nat 9%nat 1 big3 3%nat false None (repeat grid0 12) [0]).
  - reflexivity.
  - intros i Hi. destruct i as [|[|[|i]]]; try reflexivity; lia.
  - intros i Hi. destruct i as [|[|[|i]]]; try lia;
      vm_compute; repeat split; discriminate.
  - intros i Hi. destruct i as [|[|[|i]]]; try lia; vm_compute; split; discriminate.
  - lia.
  - simpl. lia.
Defined.

(** C1, as stated, fails: the three products 46340 * 46340 of one slice sum
    to more than [UINT_MAX]; the coordinator returns without an error and
    leaves the sentinel [UINT_MAX] in the counter of the slice. *)
Lemma C1_counterexample :
  UINT_MAX < sliceSum (resizeTo (size_of 46340 46340) (0, 0)) big3 1 0 3 /\
  is_ok runBig3 = true /\
  totalSize (returned runBig3) = [UINT_MAX].
Proof.
  vm_compute. repeat split; reflexivity.
Qed.


(* ================================================================== *)
(** * The table builder as a sequence of calls *)

Lemma u32_sub_idem a c : u32 (u32 a - c) = u32 (a - c).
Proof. unfold u32. apply Zminus_mod_idemp_l. Qed.

Section Calls.
Context {F : Type} {FO : FloatOps F}.
Variables (C W0 sx0 sy0 sx1 sy1 : Z).

Lemma xLoop_calls lenFirst0 y0 rowMult : forall k h,
  xLoop C sx0 lenFirst0 y0 rowMult k h (u32 ((y0 * W0 + (Z.of_nat k + 1)) * C)) =
  fold_left addCall
    (map (mkCall C W0 (y0, rowMult)) (colTail sx0 lenFirst0 k)) h.
Proof.
  induction k as [|k IH]; intros h.
  - simpl. unfold addCall, mkCall. simpl. rewrite u32_sub_idem.
    do 2 f_equal. lia.
  - cbn [xLoop colTail map fold_left]. rewrite u32_sub_idem.
    replace ((y0 * W0 + (Z.of_nat (S k) + 1)) * C - C)
      with ((y0 * W0 + (Z.of_nat k + 1)) * C) by lia.
    rewrite IH. f_equal. unfold addCall, mkCall. simpl.
    do 2 f_equal. lia.
Qed.

Lemma addRow_calls e0 extra0 lenFirst0 y0 rowMult h :
  0 <= e0 ->
  addRow C W0 sx0 e0 extra0 lenFirst0 y0 rowMult h =
  fold_left addCall
    (map (mkCall C W0 (y0, rowMult)) (colList sx0 e0 extra0 lenFirst0)) h.
Proof.
  intros He. unfold addRow, colList. rewrite map_app, fold_left_app.
  destruct (extra0 =? 0); destruct (Z.eqb_spec e0 0) as [E|E]; simpl; auto.
  - rewrite <- xLoop_calls.
    replace (Z.of_nat (Z.to_nat (e0 - 1)) + 1) with e0 by lia. reflexivity.
  - rewrite <- xLoop_calls.
    replace (Z.of_nat (Z.to_nat (e0 - 1)) + 1) with e0 by lia. reflexivity.
Qed.

Lemma rowsLoop_calls e0 extra0 lenFirst0 e1 extra1 :
  0 <= e0 ->
  forall fuel h y0 rowMult,
  rowsLoop C W0 sx0 sy0 e0 extra0 lenFirst0 e1 extra1 fuel h y0 rowMult =
  fold_left addCall
    (flat_map (fun row => map (mkCall C W0 row) (colList sx0 e0 extra0 lenFirst0))
              (rowList sy0 e1 extra1 fuel y0 rowMult)) h.
Proof.
  intros He. induction fuel as [|fuel IH]; intros h y0 rowMult; [reflexivity|].
  cbn [rowsLoop rowList flat_map]. rewrite fold_left_app, <- addRow_calls by auto.
  destruct (y0 + 1 >=? e1); [destruct ((y0 + 1 >? e1) || (extra1 =? 0))|];
    auto.
Qed.

Lemma axis_e_nonneg s0 s1 n : 0 < s0 -> 0 <= s1 -> 0 <= axis_e s0 s1 n.
Proof.
  intros H0 H1. unfold axis_e.
  pose proof (Z.div_le_mono n (n + s1) s0 H0 ltac:(lia)). lia.
Qed.

Lemma cell_calls h x y :
  0 < sx0 -> 0 <= sx1 ->
  cell C W0 sx0 sy0 sx1 sy1 h x y =
  fold_left addCall (cellCalls C W0 sx0 sy0 sx1 sy1 x y)
    (UpdateMapping h (to_int (slot sx0 sy0 sx1 sy1 x y))
       (to_int ((x * sx1 + sx1) / sx0 + x * sx1 / sx0
                - (if negb (axis_extra sx0 sx1 (x * sx1) =? 0)
                      || ((x * sx1 + sx1) / sx0 =? x * sx1 / sx0)
                   then 0 else 1)))
       (to_int ((y * sy1 + sy1) / sy0 + y * sy1 / sy0
                - (if negb (axis_extra sy0 sy1 (y * sy1) =? 0)
                      || ((y * sy1 + sy1) / sy0 =? y * sy1 / sy0)
                   then 0 else 1)))).
Proof.
  intros H0 H1. unfold cell, cellCalls, rows, cols.
  rewrite rowsLoop_calls by (apply axis_e_nonneg; auto).
  reflexivity.
Qed.

End Calls.


(* ================================================================== *)
(** * The geometry of one axis *)

Lemma zsum_ext f g lo len :
  (forall j, lo <= j < lo + Z.of_nat len -> f j = g j) ->
  zsum f lo len = zsum g lo len.
Proof.
  revert lo; induction len as [|len IH]; intros lo H; simpl; [reflexivity|].
  rewrite H by lia. f_equal. apply IH. intros j Hj. apply H. lia.
Qed.

Lemma zsum_zero f lo len :
  (forall j, lo <= j < lo + Z.of_nat len -> f j = 0) -> zsum f lo len = 0.
Proof.
  revert lo; induction len as [|len IH]; intros lo H; simpl; [reflexivity|].
  rewrite H by lia. rewrite IH; [lia|]. intros j Hj. apply H. lia.
Qed.

Lemma zsum_app f lo a b :
  zsum f lo (a + b) = zsum f lo a + zsum f (lo + Z.of_nat a) b.
Proof.
  revert lo; induction a as [|a IH]; intros lo.
  - simpl. f_equal. lia.
  - cbn [Nat.add zsum]. rewrite IH.
    replace (lo + 1 + Z.of_nat a) with (lo + Z.of_nat (S a)) by lia. lia.
Qed.

Lemma zsum_snoc f lo len :
  zsum f lo (S len) = zsum f lo len + f (lo + Z.of_nat len).
Proof.
  replace (S len) with (len + 1)%nat by lia. rewrite zsum_app. simpl. lia.
Qed.

Lemma zsum_shift f lo d len :
  zsum f (lo + d) len = zsum (fun j => f (j + d)) lo len.
Proof.
  revert lo; induction len as [|len IH]; intros lo; simpl; [reflexivity|].
  f_equal. rewrite <- IH. f_equal. lia.
Qed.

(** Reversal of the order of summation. *)
Lemma zsum_rev f len :
  zsum f 0 len = zsum (fun j => f (Z.of_nat len - 1 - j)) 0 len.
Proof.
  induction len as [|len IH]; [reflexivity|].
  rewrite zsum_snoc. cbn [zsum]. rewrite IH.
  replace (Z.of_nat (S len) - 1 - 0) with (0 + Z.of_nat len) by lia.
  rewrite (zsum_shift _ 0 1). rewrite Z.add_comm. f_equal.
  apply zsum_ext. intros j Hj. f_equal. lia.
Qed.

Lemma zsum_add f g lo len :
  zsum (fun j => f j + g j) lo len = zsum f lo len + zsum g lo len.
Proof.
  revert lo; induction len as [|len IH]; intros lo; simpl; [reflexivity|].
  rewrite IH. lia.
Qed.

Lemma zsum_scale c f lo len :
  zsum (fun j => c * f j) lo len = c * zsum f lo len.
Proof.
  revert lo; induction len as [|len IH]; intros lo; simpl; [lia|].
  rewrite IH. lia.
Qed.

Lemma wsum_app g q l1 l2 : wsum g q (l1 ++ l2) = wsum g q l1 + wsum g q l2.
Proof.
  induction l1 as [|p l1 IH]; simpl; [reflexivity|].
  unfold wsum in *. simpl. rewrite IH. lia.
Qed.

Lemma wsum_rev g q l : wsum g q (rev l) = wsum g q l.
Proof.
  induction l as [|p l IH]; simpl; [reflexivity|].
  rewrite wsum_app, IH. unfold wsum. simpl. lia.
Qed.

Section Axis.
Variables (s0 s1 n : Z).
Hypotheses (Hs0 : 0 < s0) (Hs1 : 0 < s1) (Hn : 0 <= n).

Let q := n / s0.
Let e := axis_e s0 s1 n.
Let extra := axis_extra s0 s1 n.
Let lenFirst := axis_lenFirst s0 n.

(** The three cases of the intersection. *)
Lemma axis_cases :
  0 <= q /\ q * s0 <= n < (q + 1) * s0 /\ 0 < lenFirst <= s0 /\
  lenFirst = (q + 1) * s0 - n /\
  ((e = 0 /\ extra = s1 /\ n + s1 < (q + 1) * s0) \/
   (0 < e /\ 0 <= extra < s0 /\ extra < s1 /\
    n + s1 = (q + e) * s0 + extra)).
Proof.
  subst q e extra lenFirst. unfold axis_e, axis_extra, axis_lenFirst.
  pose proof (Z.div_mod n s0 ltac:(lia)) as E1.
  pose proof (Z.mod_pos_bound n s0 Hs0) as B1.
  pose proof (Z.div_mod (n + s1) s0 ltac:(lia)) as E2.
  pose proof (Z.mod_pos_bound (n + s1) s0 Hs0) as B2.
  pose proof (Z.div_pos n s0 Hn Hs0) as P1.
  set (q := n / s0) in *. set (m := n mod s0) in *.
  set (Q := (n + s1) / s0) in *. set (r := (n + s1) mod s0) in *.
  assert (q <= Q) by nia.
  split; [lia|]. split; [nia|]. split; [lia|]. split; [nia|].
  destruct (Z.eq_dec Q q) as [E|E].
  - left. rewrite E in *. split; [lia|]. split; [|nia].
    apply Z.min_r. nia.
  - right. assert (q + 1 <= Q) by lia. split; [lia|].
    assert (r < s1) by nia.
    rewrite Z.min_l by lia. split; [lia|]. split; [lia|].
    replace (q + (Q - q)) with Q by lia. lia.
Qed.

Lemma colTail_in k a w :
  In (a, w) (colTail s0 lenFirst k) ->
  (a = 0 /\ w = lenFirst) \/ (1 <= a <= Z.of_nat k /\ w = s0).
Proof.
  induction k as [|k IH]; simpl.
  - intros [E|[]]. inversion E. auto.
  - intros [E|H].
    + inversion E. right. lia.
    + destruct (IH H) as [|[? ?]]; [auto|right; lia].
Qed.

Lemma colTail_wsum g k :
  wsum g q (colTail s0 lenFirst k) =
  lenFirst * g q + zsum (fun j => s0 * g j) (q + 1) k.
Proof.
  induction k as [|k IH].
  - unfold wsum. cbn [colTail fold_right fst snd zsum].
    replace (q + 0) with q by lia. lia.
  - cbn [colTail]. unfold wsum in *. cbn [fold_right fst snd]. rewrite IH.
    rewrite zsum_snoc. replace (q + Z.of_nat (S k)) with (q + 1 + Z.of_nat k) by lia.
    lia.
Qed.

(** Every column listed has the length of its intersection with the
    resized pixel as weight, and this length is positive. *)
Lemma cols_in a w :
  In (a, w) (cols s0 s1 n) ->
  0 <= a <= e /\ 0 < w /\ w = overlap s0 s1 n (q + a) /\ (q + a) * s0 < n + s1.
Proof.
  unfold cols, colList. fold e extra lenFirst.
  destruct axis_cases as (Hq & Hqn & Hlf & Elf & [(He & Hex & Hin)|(He & Hex & Hex1 & Hin)]).
  - rewrite He, Hex. replace (s1 =? 0) with false by (symmetry; apply Z.eqb_neq; lia).
    simpl. intros [E|[]]. inversion E; subst a w.
    unfold overlap. rewrite Z.add_0_r. fold q. split; [lia|]. split; [lia|]. lia.
  - intros H. apply in_app_or in H as [H|H].
    + destruct (Z.eqb_spec extra 0); [destruct H|].
      destruct H as [E|[]]. inversion E; subst a w.
      unfold overlap. split; [lia|]. split; [lia|]. nia.
    + destruct (Z.eqb_spec e 0); [lia|].
      apply colTail_in in H as [[-> ->]|[Ha ->]].
      * unfold overlap. rewrite Z.add_0_r. split; [lia|]. split; [lia|]. nia.
      * unfold overlap. split; [lia|]. split; [lia|]. nia.
Qed.

(** The weighted sum over the columns listed is the sum over all the source
    pixels [0 .. T-1], weighted by their overlap. *)
Lemma cols_wsum g (T : nat) :
  n + s1 <= Z.of_nat T * s0 ->
  wsum g q (cols s0 s1 n) = zsum (fun j => overlap s0 s1 n j * g j) 0 T.
Proof.
  intros HT. unfold cols, colList. fold e extra lenFirst.
  destruct axis_cases as (Hq & Hqn & Hlf & Elf & Hc).
  assert (HqT : q < Z.of_nat T) by nia.
  replace T with (Z.to_nat q + (1 + (T - 1 - Z.to_nat q)))%nat by lia.
  rewrite !zsum_app. rewrite (zsum_zero _ 0).
  2:{ intros j Hj. unfold overlap. rewrite Z.max_l; [lia|]. nia. }
  cbn [zsum]. replace (0 + Z.of_nat (Z.to_nat q)) with q by lia.
  destruct Hc as [(He & Hex & Hin)|(He & Hex & Hex1 & Hin)].
  - rewrite He, Hex. replace (s1 =? 0) with false by (symmetry; apply Z.eqb_neq; lia).
    unfold wsum. cbn [fold_right fst snd app colList Z.eqb].
    replace (q + 0) with q by lia.
    rewrite zsum_zero.
    2:{ intros j Hj. unfold overlap. rewrite Z.max_l; [lia|]. nia. }
    replace (overlap s0 s1 n q) with s1 by (unfold overlap; lia). lia.
  - replace (e =? 0) with false by (symmetry; apply Z.eqb_neq; lia).
    rewrite wsum_app, colTail_wsum.
    assert (Hov0 : overlap s0 s1 n q = lenFirst) by (unfold overlap; nia).
    rewrite Hov0.
    assert (HeT : q + e <= Z.of_nat T) by nia.
    replace (T - 1 - Z.to_nat q)%nat
      with (Z.to_nat (e - 1) + (T - Z.to_nat (q + e)))%nat by lia.
    rewrite zsum_app.
    rewrite (zsum_ext (fun j => overlap s0 s1 n j * g j) (fun j => s0 * g j) (q + 1)).
    2:{ intros j Hj. f_equal. unfold overlap. nia. }
    replace (q + Z.of_nat 1 + Z.of_nat (Z.to_nat (e - 1))) with (q + e) by lia.
    assert (Hrest : zsum (fun j => overlap s0 s1 n j * g j) (q + e)
                         (T - Z.to_nat (q + e)) =
                    wsum g q (if extra =? 0 then [] else [(e, extra)])).
    { destruct (Z.eqb_spec extra 0) as [E0|E0].
      - unfold wsum. simpl. apply zsum_zero. intros j Hj. unfold overlap.
        rewrite Z.max_l; [lia|]. nia.
      - assert (q + e < Z.of_nat T) by nia.
        replace (T - Z.to_nat (q + e))%nat
          with (S (T - 1 - Z.to_nat (q + e)))%nat by lia.
        cbn [zsum]. rewrite zsum_zero.
        2:{ intros j Hj. unfold overlap. rewrite Z.max_l; [lia|]. nia. }
        unfold wsum. simpl.
        replace (overlap s0 s1 n (q + e)) with extra by (unfold overlap; nia).
        lia. }
    rewrite Hrest. lia.
Qed.

(** The lengths listed add up to the whole resized pixel. *)
Lemma cols_total : wsum (fun _ => 1) q (cols s0 s1 n) = s1.
Proof.
  unfold cols, colList. fold e extra lenFirst.
  destruct axis_cases as (Hq & Hqn & Hlf & Elf & [(He & Hex & Hin)|(He & Hex & Hex1 & Hin)]).
  - rewrite He, Hex. replace (s1 =? 0) with false by (symmetry; apply Z.eqb_neq; lia).
    unfold wsum. simpl. lia.
  - replace (e =? 0) with false by (symmetry; apply Z.eqb_neq; lia).
    rewrite wsum_app, colTail_wsum. rewrite zsum_scale.
    assert (Hone : forall lo len, zsum (fun _ => 1) lo len = Z.of_nat len).
    { intros lo len; revert lo; induction len as [|len IH]; intros lo;
        [reflexivity|]. cbn [zsum]. rewrite IH. lia. }
    rewrite Hone. destruct (Z.eqb_spec extra 0); unfold wsum; simpl; nia.
Qed.

End Axis.


(* ================================================================== *)
(** * Rows and columns of a sub-cell *)

Lemma colTail_rev s0 lf k :
  rev (colTail s0 lf k) = (0, lf) :: map (fun i => (Z.of_nat i, s0)) (seq 1 k).
Proof.
  induction k as [|k IH]; [reflexivity|].
  cbn [colTail rev]. rewrite IH. rewrite seq_S, map_app. reflexivity.
Qed.

Lemma rowList_mid s0 e extra : forall j fuel,
  (j < fuel)%nat -> (1 <= j)%nat ->
  rowList s0 e extra fuel (e - Z.of_nat j) s0 =
  map (fun i => (e - Z.of_nat j + Z.of_nat i, s0)) (seq 0 j) ++
  (if extra =? 0 then [] else [(e, extra)]).
Proof.
  induction j as [|j IH]; intros fuel Hf Hj; [lia|].
  destruct fuel as [|fuel]; [lia|].
  cbn [rowList seq map app]. rewrite Z.add_0_r. f_equal.
  destruct (Z.geb_spec (e - Z.of_nat (S j) + 1) e) as [G|G].
  - assert (j = 0)%nat by lia. subst j. simpl.
    destruct (Z.gtb_spec (e - 1 + 1) e); [lia|]. simpl.
    destruct (Z.eqb_spec extra 0); [reflexivity|].
    destruct fuel as [|fuel]; [lia|]. cbn [rowList].
    replace (e - 1 + 1) with e by lia.
    destruct (Z.geb_spec (e + 1) e); [|lia].
    destruct (Z.gtb_spec (e + 1) e); [|lia]. reflexivity.
  - replace (e - Z.of_nat (S j) + 1) with (e - Z.of_nat j) by lia.
    rewrite IH by lia. f_equal.
    rewrite <- seq_shift, map_map. apply map_ext. intros i. f_equal. lia.
Qed.

Lemma rowList_S s0 e extra fuel y0 rowMult :
  rowList s0 e extra (S fuel) y0 rowMult =
  (y0, rowMult) ::
  (if y0 + 1 >=? e then
     if (y0 + 1 >? e) || (extra =? 0) then []
     else rowList s0 e extra fuel (y0 + 1) extra
   else rowList s0 e extra fuel (y0 + 1) s0).
Proof. reflexivity. Qed.

(** The rows are visited in the order opposite to the columns. *)
Lemma rows_rev_cols s0 s1 n :
  0 < s0 -> 0 < s1 -> 0 <= n -> rows s0 s1 n = rev (cols s0 s1 n).
Proof.
  intros Hs0 Hs1 Hn. unfold rows, cols, colList.
  destruct (axis_cases s0 s1 n Hs0 Hs1 Hn)
    as (Hq & Hqn & Hlf & Elf & [(He & Hex & Hin)|(He & Hex & Hex1 & Hin)]).
  - rewrite He, Hex. replace (s1 =? 0) with false by (symmetry; apply Z.eqb_neq; lia).
    simpl. reflexivity.
  - set (e := axis_e s0 s1 n) in *. set (extra := axis_extra s0 s1 n) in *.
    set (lf := axis_lenFirst s0 n) in *.
    replace (e =? 0) with false by (symmetry; apply Z.eqb_neq; lia).
    rewrite rev_app_distr, colTail_rev.
    assert (Hext : rev (if extra =? 0 then [] else [(e, extra)]) =
                   (if extra =? 0 then [] else [(e, extra)]))
      by (destruct (extra =? 0); reflexivity).
    rewrite Hext. rewrite rowList_S. cbn [app]. f_equal.
    destruct (Z.geb_spec (0 + 1) e) as [G|G].
    + assert (E1 : e = 1) by lia. clearbody e extra lf. subst e.
      simpl. destruct (Z.eqb_spec extra 0); reflexivity.
    + replace (0 + 1) with (e - Z.of_nat (Z.to_nat (e - 1))) by lia.
      rewrite rowList_mid by lia. f_equal.
      rewrite <- seq_shift, map_map. apply map_ext. intros i. f_equal. lia.
Qed.

Lemma rows_in s0 s1 n a w :
  0 < s0 -> 0 < s1 -> 0 <= n ->
  In (a, w) (rows s0 s1 n) ->
  0 <= a <= axis_e s0 s1 n /\ 0 < w /\ w = overlap s0 s1 n (n / s0 + a) /\
  (n / s0 + a) * s0 < n + s1.
Proof.
  intros Hs0 Hs1 Hn H. rewrite rows_rev_cols in H by auto.
  apply in_rev in H. apply cols_in; auto.
Qed.

Lemma rows_wsum s0 s1 n g (T : nat) :
  0 < s0 -> 0 < s1 -> 0 <= n ->
  n + s1 <= Z.of_nat T * s0 ->
  wsum g (n / s0) (rows s0 s1 n) = zsum (fun j => overlap s0 s1 n j * g j) 0 T.
Proof.
  intros Hs0 Hs1 Hn HT. rewrite rows_rev_cols, wsum_rev by auto.
  apply cols_wsum; auto.
Qed.



(* ================================================================== *)
(** * The calls of one sub-cell *)

Lemma overlap_le s0 s1 n j : 0 <= s1 -> overlap s0 s1 n j <= s1.
Proof. intros H. unfold overlap. lia. Qed.

Lemma u32_small z : 0 <= z < 2 ^ 32 -> u32 z = z.
Proof. intros H. unfold u32. apply Z.mod_small. exact H. Qed.

Lemma u32_range z : 0 <= u32 z < 2 ^ 32.
Proof. unfold u32. apply Z.mod_pos_bound. lia. Qed.

Lemma u32_le z : 0 <= z -> u32 z <= z.
Proof. intros H. unfold u32. apply Z.mod_le; lia. Qed.

Section Cell.
Variables (C W0 sx0 sy0 sx1 sy1 : Z).
Hypotheses (Hsx0 : 0 < sx0) (Hsy0 : 0 < sy0) (Hsx1 : 0 < sx1) (Hsy1 : 0 < sy1).
Variables (x y : Z).
Hypotheses (Hx : 0 <= x) (Hy : 0 <= y).

Lemma cellCalls_in c :
  In c (cellCalls C W0 sx0 sy0 sx1 sy1 x y) ->
  exists row col,
    In row (rows sy0 sy1 (y * sy1)) /\ In col (cols sx0 sx1 (x * sx1)) /\
    c = mkCall C W0 row col.
Proof.
  unfold cellCalls. intros H. apply in_flat_map in H as (row & Hr & H).
  apply in_map_iff in H as (col & E & Hc). eauto.
Qed.





(** The addresses recorded for a sub-cell of the period stay inside an image
    of [H0] rows of [W0] pixels, when [sx1 <= W0] and [sy1 <= H0]. *)
Lemma cellCalls_addr_range H0 :
  x < sx0 -> y < sy0 -> sx1 <= W0 -> sy1 <= H0 -> 0 < C ->
  Forall (fun c => 0 <= c_addr c < H0 * W0 * C)
         (cellCalls C W0 sx0 sy0 sx1 sy1 x y).
Proof.
  intros Hxs Hys HW HH HC. apply Forall_forall. intros c Hc.
  apply cellCalls_in in Hc as ([a rm] & [b w] & Hr & Hcl & ->).
  apply rows_in in Hr as (Ha & _ & _ & Hay); try lia.
  apply cols_in in Hcl as (Hb & _ & _ & Hbx); try lia.
  pose proof (Z.div_pos (y * sy1) sy0 ltac:(nia) Hsy0).
  pose proof (Z.div_pos (x * sx1) sx0 ltac:(nia) Hsx0).
  set (qy := y * sy1 / sy0) in *. set (qx := x * sx1 / sx0) in *.
  assert (Ha1 : a < sy1).
  { assert (y * sy1 + sy1 <= sy0 * sy1) by nia.
    assert (0 <= qy * sy0) by nia.
    assert (K : a * sy0 < sy1 * sy0) by lia.
    apply Z.mul_lt_mono_pos_r in K; lia. }
  assert (Hb1 : b < sx1).
  { assert (x * sx1 + sx1 <= sx0 * sx1) by nia.
    assert (0 <= qx * sx0) by nia.
    assert (K : b * sx0 < sx1 * sx0) by lia.
    apply Z.mul_lt_mono_pos_r in K; lia. }
  unfold mkCall. cbn [c_addr fst].
  assert (K0 : 0 <= a * W0) by (apply Z.mul_nonneg_nonneg; lia).
  assert (K1 : a * W0 <= (H0 - 1) * W0) by (apply Z.mul_le_mono_nonneg_r; lia).
  assert (K2 : 0 <= (a * W0 + b) * C) by (apply Z.mul_nonneg_nonneg; lia).
  assert (K3 : (a * W0 + b) * C <= (H0 * W0 - 1) * C)
    by (apply Z.mul_le_mono_nonneg_r; lia).
  pose proof (u32_range ((a * W0 + b) * C)).
  pose proof (u32_le ((a * W0 + b) * C) K2).
  split; [lia|]. lia.
Qed.

End Cell.




(* ================================================================== *)
(** * The helper in the area-weighted mode *)

Lemma upd_upd_same {A} (l : list A) n a b : upd (upd l n a) n b = upd l n b.
Proof.
  revert n; induction l as [|h t IH]; intros [|n]; simpl; auto.
  f_equal. apply IH.
Qed.

Lemma upd_nth_same {A} (l : list A) n d : upd l n (nth n l d) = l.
Proof.
  revert n; induction l as [|h t IH]; intros [|n]; simpl; auto.
  f_equal. apply IH.
Qed.

Lemma firstn_upd_snoc {A} (l : list A) n p :
  (n < List.length l)%nat -> firstn (S n) (upd l n p) = firstn n l ++ [p].
Proof.
  revert n; induction l as [|h t IH]; intros [|n] H; simpl in *; try lia; auto.
  f_equal. apply IH. lia.
Qed.

Lemma vec_resize_grow {A} (d : A) n (l : list A) :
  (List.length l <= n)%nat -> vec_resize d n l = l ++ repeat d (n - List.length l).
Proof.
  intros H. unfold vec_resize. rewrite firstn_all2 by lia. reflexivity.
Qed.

Lemma vec_resize_length {A} (d : A) n (l : list A) :
  List.length (vec_resize d n l) = n.
Proof.
  unfold vec_resize. rewrite length_app, length_firstn, repeat_length. lia.
Qed.

Section Linear.
Context {F : Type} {FO : FloatOps F}.
Variable M : Z.
Hypothesis HM : 2 * M < 2 ^ 32.

Lemma AddPixel_lin h em tbl a ar cx cy :
  LinRel M h em tbl ->
  Z.of_nat (List.length em) + 1 <= M ->
  LinRel M (AddPixel h a ar cx cy)
         (em ++ [{| pixAddr := a; pixArea := ar |}])
         (bump tbl (pMapping_ h) 1) /\
  pMapping_ (AddPixel h a ar cx cy) = pMapping_ h.
Proof.
  intros (v & Hv & Ht & Hu & Hm & Hf & Hle & Hpos & HvM) Hfit.
  unfold AddPixel. rewrite Hv, Hu, Hm, Ht.
  destruct (Z.eqb_spec (Z.of_nat (List.length em)) (Z.of_nat (List.length v)))
    as [E|E].
  - (* the array is extended *)
    assert (El : List.length em = List.length v) by lia.
    rewrite Z.shiftl_mul_pow2 by lia. change (2 ^ 1) with 2.
    rewrite (u32_small (Z.of_nat (List.length v) * 2)) by lia.
    unfold set_pix, resizeVector, assignVectorElement. simpl. split; [|reflexivity].
    rewrite vec_resize_grow by lia.
    eexists. cbn [numPixMapUsed_ numPixMapMax_ pPixMapping_ mappingBase].
    split; [reflexivity|]. split; [reflexivity|].
    rewrite upd_length, !length_app, repeat_length. cbn [List.length].
    split; [rewrite u32_small by lia; lia|].
    split; [lia|].
    split.
    + replace (List.length em + 1)%nat with (S (List.length em)) by lia.
      rewrite Nat2Z.id. rewrite firstn_upd_snoc
        by (rewrite length_app, repeat_length; lia).
      f_equal. rewrite firstn_app.
      replace (List.length em - List.length v)%nat with 0%nat by lia.
      rewrite firstn_O, app_nil_r. exact Hf.
    + split; [lia|]. split; lia.
  - unfold set_pix, assignVectorElement. simpl. split; [|reflexivity].
    eexists. cbn [numPixMapUsed_ numPixMapMax_ pPixMapping_ mappingBase].
    split; [reflexivity|]. split; [reflexivity|].
    rewrite upd_length, !length_app. cbn [List.length].
    split; [rewrite u32_small by lia; lia|].
    split; [reflexivity|].
    split.
    + replace (List.length em + 1)%nat with (S (List.length em)) by lia.
      rewrite Nat2Z.id. rewrite firstn_upd_snoc by lia. f_equal. exact Hf.
    + split; [lia|]. split; lia.
Qed.

Lemma bump_bump tbl s a b :
  (s < List.length tbl)%nat -> bump (bump tbl s a) s b = bump tbl s (a + b).
Proof.
  intros Hs. unfold bump. rewrite nth_upd_eq by lia. simpl.
  rewrite upd_upd_same. do 2 f_equal. lia.
Qed.

Lemma bump_0 tbl s : bump tbl s 0 = tbl.
Proof.
  unfold bump. rewrite Z.add_0_r.
  replace {| intersectInfoAddr := intersectInfoAddr (nth s tbl map0);
             nPixels := nPixels (nth s tbl map0) |} with (nth s tbl map0)
    by (destruct (nth s tbl map0); reflexivity).
  apply upd_nth_same.
Qed.

Lemma bump_length tbl s k : List.length (bump tbl s k) = List.length tbl.
Proof. apply upd_length. Qed.

Lemma addCalls_lin : forall L h em tbl,
  LinRel M h em tbl ->
  Z.of_nat (List.length em) + Z.of_nat (List.length L) <= M ->
  (pMapping_ h < List.length tbl)%nat ->
  LinRel M (fold_left addCall L h) (em ++ map pairOf L)
         (bump tbl (pMapping_ h) (Z.of_nat (List.length L))) /\
  pMapping_ (fold_left addCall L h) = pMapping_ h.
Proof.
  induction L as [|c L IH]; intros h em tbl HR Hfit Hs.
  - simpl. rewrite app_nil_r, bump_0. auto.
  - cbn [fold_left map List.length] in *.
    destruct (AddPixel_lin h em tbl (c_addr c) (c_area c) (c_crdX c) (c_crdY c)
                HR ltac:(lia)) as (HR1 & Hp1).
    destruct (IH (addCall h c) _ _ HR1) as (HR2 & Hp2).
    + rewrite length_app. cbn [List.length]. lia.
    + unfold addCall. rewrite Hp1, bump_length. exact Hs.
    + unfold addCall in *. rewrite Hp1 in *. split; [|congruence].
      rewrite <- app_assoc in HR2. cbn [app] in HR2.
      rewrite bump_bump in HR2 by exact Hs.
      replace (Z.of_nat (S (List.length L))) with (1 + Z.of_nat (List.length L)) by lia.
      exact HR2.
Qed.

Lemma UpdateMapping_lin h em tbl shift cx cy :
  LinRel M h em tbl ->
  LinRel M (UpdateMapping h shift cx cy) em
    (upd tbl (Z.to_nat shift)
         {| intersectInfoAddr := Z.of_nat (List.length em);
            nPixels := nPixels (nth (Z.to_nat shift) tbl map0) |}) /\
  pMapping_ (UpdateMapping h shift cx cy) = Z.to_nat shift.
Proof.
  intros (v & Hv & Ht & Hu & Hm & Hf & Hle & Hpos & HvM).
  unfold UpdateMapping, numUsed. rewrite Hv, Ht, Hu. simpl. split; [|reflexivity].
  exists v. simpl. repeat split; auto.
Qed.

(** One sub-cell: the entry [s] gets the current length of the array as
    start, and the count of the contributions recorded. *)
Lemma cell_lin h em tbl shift cx cy L :
  LinRel M h em tbl ->
  Z.of_nat (List.length em) + Z.of_nat (List.length L) <= M ->
  (Z.to_nat shift < List.length tbl)%nat ->
  let '(em', tbl') := abs_cell (Z.to_nat shift) (map pairOf L) (em, tbl) in
  LinRel M (fold_left addCall L (UpdateMapping h shift cx cy)) em' tbl'.
Proof.
  intros HR Hfit Hs. cbn [abs_cell].
  destruct (UpdateMapping_lin h em tbl shift cx cy HR) as (HR1 & Hp1).
  destruct (addCalls_lin L _ _ _ HR1 Hfit) as (HR2 & _).
  - rewrite Hp1, upd_length. exact Hs.
  - rewrite Hp1 in HR2. unfold bump in HR2.
    rewrite nth_upd_eq in HR2 by exact Hs. cbn [intersectInfoAddr nPixels] in HR2.
    rewrite upd_upd_same in HR2. rewrite length_map. exact HR2.
Qed.

End Linear.


(* ================================================================== *)
(** * The loops over the sub-cells *)

Lemma for_loop_fold {S} (body : Z -> S -> S) bound : forall fuel i s,
  Z.of_nat fuel = bound - i ->
  for_loop fuel i 1 bound body s =
  fold_left (fun s j => body j s) (map (fun k => i + Z.of_nat k) (seq 0 fuel)) s.
Proof.
  induction fuel as [|fuel IH]; intros i s Hf; [reflexivity|].
  cbn [for_loop seq map fold_left].
  destruct (Z.ltb_spec i bound); [|lia].
  rewrite IH by lia. rewrite Z.add_0_r. f_equal.
  rewrite <- seq_shift, map_map. apply map_ext. intros k. lia.
Qed.

(** With a positive step the loop ends within [bound - i] iterations: more
    fuel gives the same state. *)
Lemma for_loop_fuel {S} (body : Z -> S -> S) step bound :
  0 < step ->
  forall f1 f2 i s,
    (Z.to_nat (bound - i) <= f1)%nat -> (Z.to_nat (bound - i) <= f2)%nat ->
    for_loop f1 i step bound body s = for_loop f2 i step bound body s.
Proof.
  intros Hstep. induction f1 as [|f1 IH]; intros f2 i s H1 H2.
  - destruct f2 as [|f2]; [reflexivity|]. cbn [for_loop].
    destruct (Z.ltb_spec i bound); [lia|reflexivity].
  - destruct f2 as [|f2]; cbn [for_loop].
    + destruct (Z.ltb_spec i bound); [lia|reflexivity].
    + destruct (Z.ltb_spec i bound); [|reflexivity]. apply IH; lia.
Qed.

Lemma for_range_fold {S} (body : Z -> S -> S) n s :
  for_range 0 1 n body s = fold_left (fun s j => body j s) (zrange n) s.
Proof.
  unfold for_range, zrange. destruct (Z.le_gt_cases 0 n).
  - rewrite for_loop_fold by lia. rewrite Z.sub_0_r. reflexivity.
  - replace (Z.to_nat (n - 0)) with 0%nat by lia.
    replace (Z.to_nat n) with 0%nat by lia. reflexivity.
Qed.

Lemma fold_left_flat_map {A B S} (f : S -> B -> S) (g : A -> list B) l s :
  fold_left f (flat_map g l) s =
  fold_left (fun s a => fold_left f (g a) s) l s.
Proof.
  revert s; induction l as [|a l IH]; intros s; [reflexivity|].
  cbn [flat_map fold_left]. rewrite fold_left_app. apply IH.
Qed.

Lemma fold_left_map {A B S} (f : S -> B -> S) (g : A -> B) l s :
  fold_left f (map g l) s = fold_left (fun s a => f s (g a)) l s.
Proof.
  revert s; induction l as [|a l IH]; intros s; [reflexivity|]. simpl. apply IH.
Qed.

Lemma fold_left_ext {A S} (f g : S -> A -> S) l s :
  (forall s a, f s a = g s a) -> fold_left f l s = fold_left g l s.
Proof.
  intros H. revert s; induction l as [|a l IH]; intros s; [reflexivity|].
  simpl. rewrite H. apply IH.
Qed.

Lemma zrange_in n j : In j (zrange n) <-> 0 <= j < n.
Proof.
  unfold zrange. rewrite in_map_iff. split.
  - intros (k & <- & Hk). apply in_seq in Hk. lia.
  - intros Hj. exists (Z.to_nat j). split; [lia|]. apply in_seq. lia.
Qed.

Lemma allCells_in sx0 sy0 c :
  In c (allCells sx0 sy0) <-> 0 <= fst c < sx0 /\ 0 <= snd c < sy0.
Proof.
  unfold allCells. rewrite in_flat_map. split.
  - intros (y & Hy & Hc). apply in_map_iff in Hc as (x & <- & Hx).
    apply zrange_in in Hx, Hy. simpl. lia.
  - intros (Hx & Hy). exists (snd c). split; [apply zrange_in; lia|].
    apply in_map_iff. exists (fst c). split; [destruct c; reflexivity|].
    apply zrange_in. lia.
Qed.

Lemma zrange_NoDup n : NoDup (zrange n).
Proof.
  unfold zrange. apply NoDup_map_NoDup_ForallPairs; [|apply seq_NoDup].
  intros a b _ _ E. lia.
Qed.

Lemma allCells_NoDup sx0 sy0 : NoDup (allCells sx0 sy0).
Proof.
  unfold allCells. generalize (zrange_NoDup sy0). generalize (zrange sy0) as ys.
  induction ys as [|y ys IH]; intros Hnd; [constructor|].
  cbn [flat_map]. apply NoDup_cons_iff in Hnd as [Hy Hnd].
  apply NoDup_app.
  - apply NoDup_map_NoDup_ForallPairs; [|apply zrange_NoDup].
    intros a b _ _ E. congruence.
  - apply IH. exact Hnd.
  - intros [a b] H1 H2. apply in_map_iff in H1 as (x & E & _). inversion E; subst.
    apply in_flat_map in H2 as (y' & Hy' & H2).
    apply in_map_iff in H2 as (x' & E' & _). inversion E'; subst. contradiction.
Qed.

Section Loops.
Context {F : Type} {FO : FloatOps F}.
Variables (C W0 sx0 sy0 sx1 sy1 : Z).
Hypotheses (Hsx0 : 0 < sx0) (Hsy0 : 0 < sy0) (Hsx1 : 0 < sx1) (Hsy1 : 0 < sy1).

(** With the default strides the loops visit every sub-cell once. *)
Lemma constructTable_cells (h : PixMappingHelper) :
  constructTable C W0 sx0 sy0 sx1 sy1 h 1 1 0 0 =
  fold_left (fun h c => cell C W0 sx0 sy0 sx1 sy1 h (fst c) (snd c))
            (allCells sx0 sy0) h.
Proof.
  unfold constructTable, allCells. rewrite for_range_fold, fold_left_flat_map.
  apply fold_left_ext. intros s y. rewrite for_range_fold, fold_left_map.
  reflexivity.
Qed.

End Loops.


(* ================================================================== *)
(** * The table after all the sub-cells *)

Section Build.
Variables (C W0 sx0 sy0 sx1 sy1 : Z).

Local Notation "'pairs'" := (cellPairs C W0 sx0 sy0 sx1 sy1).
Local Notation "'sl'" := (cellSlot sx0 sy0 sx1 sy1).
Local Notation "'build'" := (abuild C W0 sx0 sy0 sx1 sy1).

Lemma abuild_fst : forall cs em tbl,
  fst (build cs (em, tbl)) = em ++ List.concat (map pairs cs).
Proof.
  induction cs as [|c cs IH]; intros em tbl.
  - simpl. rewrite app_nil_r. reflexivity.
  - unfold abuild in *. cbn [fold_left abs_cell map List.concat].
    rewrite IH, app_assoc. reflexivity.
Qed.

Lemma abuild_length : forall cs em tbl,
  List.length (snd (build cs (em, tbl))) = List.length tbl.
Proof.
  induction cs as [|c cs IH]; intros em tbl; [reflexivity|].
  unfold abuild in *. cbn [fold_left abs_cell]. rewrite IH. apply upd_length.
Qed.

Lemma abuild_other : forall cs em tbl s,
  ~ In s (map sl cs) ->
  nth s (snd (build cs (em, tbl))) map0 = nth s tbl map0.
Proof.
  induction cs as [|c cs IH]; intros em tbl s Hs; [reflexivity|].
  unfold abuild in *. cbn [fold_left abs_cell]. cbn [map In] in Hs.
  rewrite IH by tauto. apply nth_upd_neq. tauto.
Qed.

(** The entry of a sub-cell points to its pairs. *)
Lemma abuild_lookup : forall cs em tbl c,
  NoDup (map sl cs) -> In c cs -> (sl c < List.length tbl)%nat ->
  let m := nth (sl c) (snd (build cs (em, tbl))) map0 in
  nPixels m = nPixels (nth (sl c) tbl map0) + Z.of_nat (List.length (pairs c)) /\
  0 <= intersectInfoAddr m /\
  firstn (List.length (pairs c))
         (skipn (Z.to_nat (intersectInfoAddr m)) (fst (build cs (em, tbl))))
  = pairs c.
Proof.
  induction cs as [|c0 cs IH]; intros em tbl c Hnd Hin Hs; [destruct Hin|].
  cbn [map] in Hnd. apply NoDup_cons_iff in Hnd as [Hc0 Hnd].
  cbn zeta. unfold abuild in *. cbn [fold_left abs_cell].
  destruct Hin as [->|Hin].
  - fold (build cs (em ++ pairs c,
            upd tbl (sl c) {| intersectInfoAddr := Z.of_nat (List.length em);
                              nPixels := nPixels (nth (sl c) tbl map0) +
                                         Z.of_nat (List.length (pairs c)) |})).
    rewrite abuild_other by exact Hc0. rewrite nth_upd_eq by exact Hs.
    cbn [nPixels intersectInfoAddr]. split; [reflexivity|]. split; [lia|].
    rewrite abuild_fst, Nat2Z.id, <- app_assoc.
    rewrite skipn_app, skipn_all, Nat.sub_diag. cbn [skipn app].
    rewrite firstn_app, firstn_all, Nat.sub_diag, firstn_O, app_nil_r.
    reflexivity.
  - specialize (IH (em ++ pairs c0)
                   (upd tbl (sl c0)
                        {| intersectInfoAddr := Z.of_nat (List.length em);
                           nPixels := nPixels (nth (sl c0) tbl map0) +
                                      Z.of_nat (List.length (pairs c0)) |})
                   c Hnd Hin).
    rewrite upd_length in IH. specialize (IH Hs). cbn zeta in IH.
    destruct IH as (I1 & I2). split; [|exact I2].
    rewrite I1. rewrite nth_upd_neq; [reflexivity|].
    intros E. apply Hc0. rewrite E. apply in_map. exact Hin.
Qed.

Context {F : Type} {FO : FloatOps F}.
Variable M : Z.
Hypothesis HM : 2 * M < 2 ^ 32.
Hypotheses (Hsx0 : 0 < sx0) (Hsx1 : 0 < sx1).

(** The helper follows [abuild] over any list of sub-cells. *)
Lemma cells_lin : forall cs (h : PixMappingHelper) em tbl,
  LinRel M h em tbl ->
  Z.of_nat (List.length em) + lsum (fun c => Z.of_nat (List.length (pairs c))) cs <= M ->
  (forall c, In c cs ->
     Z.to_nat (to_int (slot sx0 sy0 sx1 sy1 (fst c) (snd c))) < List.length tbl)%nat ->
  LinRel M
    (fold_left (fun h c => cell C W0 sx0 sy0 sx1 sy1 h (fst c) (snd c)) cs h)
    (fst (build cs (em, tbl))) (snd (build cs (em, tbl))).
Proof.
  induction cs as [|c cs IH]; intros h em tbl HR Hfit Hs; [exact HR|].
  cbn [fold_left]. unfold abuild. cbn [fold_left].
  cbn [lsum fold_right] in Hfit.
  assert (Hnn : 0 <= lsum (fun c => Z.of_nat (List.length (pairs c))) cs).
  { clear. induction cs as [|a l IHl]; simpl; [lia|]. unfold lsum in *. simpl. lia. }
  unfold lsum in Hnn, Hfit.
  rewrite cell_calls by lia.
  match goal with
  | |- context [UpdateMapping h ?s ?cx ?cy] =>
      pose proof (cell_lin M HM h em tbl s cx cy
                    (cellCalls C W0 sx0 sy0 sx1 sy1 (fst c) (snd c)) HR) as HL
  end.
  assert (El : List.length (pairs c) =
               List.length (cellCalls C W0 sx0 sy0 sx1 sy1 (fst c) (snd c)))
    by (unfold cellPairs; apply length_map).
  rewrite El in Hfit.
  specialize (HL ltac:(lia) (Hs c (or_introl eq_refl))).
  cbn [abs_cell] in HL.
  apply IH in HL.
  - exact HL.
  - rewrite length_app. fold (pairs c). rewrite El. unfold lsum. lia.
  - intros c' Hc'. rewrite upd_length. apply Hs. right. exact Hc'.
Qed.

End Build.


(* ================================================================== *)
(** * The number of contributions *)

Lemma lsum_nonneg {A} (f : A -> Z) l :
  (forall a, In a l -> 0 <= f a) -> 0 <= lsum f l.
Proof.
  induction l as [|a l IH]; intros H; unfold lsum in *; simpl; [lia|].
  pose proof (H a (or_introl eq_refl)).
  specialize (IH (fun b Hb => H b (or_intror Hb))). lia.
Qed.

Lemma lsum_le {A} (f g : A -> Z) l :
  (forall a, In a l -> f a <= g a) -> lsum f l <= lsum g l.
Proof.
  induction l as [|a l IH]; intros H; unfold lsum in *; simpl; [lia|].
  pose proof (H a (or_introl eq_refl)).
  specialize (IH (fun b Hb => H b (or_intror Hb))). lia.
Qed.

Lemma lsum_ext {A} (f g : A -> Z) l :
  (forall a, In a l -> f a = g a) -> lsum f l = lsum g l.
Proof.
  induction l as [|a l IH]; intros H; unfold lsum in *; simpl; [lia|].
  rewrite (H a (or_introl eq_refl)).
  rewrite (IH (fun b Hb => H b (or_intror Hb))). reflexivity.
Qed.

Lemma lsum_app {A} (f : A -> Z) l1 l2 : lsum f (l1 ++ l2) = lsum f l1 + lsum f l2.
Proof.
  induction l1 as [|a l1 IH]; unfold lsum in *; simpl; [reflexivity|].
  rewrite IH. lia.
Qed.

Lemma lsum_flat_map {A B} (f : B -> Z) (g : A -> list B) l :
  lsum f (flat_map g l) = lsum (fun a => lsum f (g a)) l.
Proof.
  induction l as [|a l IH]; [reflexivity|].
  cbn [flat_map]. rewrite lsum_app, IH. reflexivity.
Qed.

Lemma lsum_map {A B} (f : B -> Z) (g : A -> B) l :
  lsum f (map g l) = lsum (fun a => f (g a)) l.
Proof.
  induction l as [|a l IH]; [reflexivity|].
  unfold lsum in *. simpl. rewrite IH. reflexivity.
Qed.

Lemma lsum_scale {A} c (f : A -> Z) l : lsum (fun a => c * f a) l = c * lsum f l.
Proof.
  induction l as [|a l IH]; unfold lsum in *; simpl; [lia|]. rewrite IH. lia.
Qed.

Lemma lsum_zrange f n : lsum f (zrange n) = zsum f 0 (Z.to_nat n).
Proof.
  unfold zrange. generalize (Z.to_nat n) as k. intros k.
  assert (G : forall i, lsum f (map Z.of_nat (seq i k)) = zsum f (Z.of_nat i) k).
  { induction k as [|k IH]; intros i; [reflexivity|].
    cbn [seq map zsum]. unfold lsum in *. cbn [fold_right]. rewrite IH.
    do 2 f_equal. lia. }
  apply (G 0%nat).
Qed.

Lemma colTail_length s0 lf k : List.length (colTail s0 lf k) = S k.
Proof. induction k as [|k IH]; simpl; [reflexivity|]. rewrite IH. reflexivity. Qed.

Lemma cols_length s0 s1 n :
  0 < s0 -> 0 < s1 -> 0 <= n ->
  1 <= Z.of_nat (List.length (cols s0 s1 n)) <= axis_e s0 s1 n + 1.
Proof.
  intros Hs0 Hs1 Hn. unfold cols, colList.
  destruct (axis_cases s0 s1 n Hs0 Hs1 Hn)
    as (_ & _ & _ & _ & [(He & Hex & _)|(He & _ & _ & _)]).
  - rewrite He, Hex. replace (s1 =? 0) with false by (symmetry; apply Z.eqb_neq; lia).
    simpl. lia.
  - rewrite length_app.
    replace (axis_e s0 s1 n =? 0) with false by (symmetry; apply Z.eqb_neq; lia).
    rewrite colTail_length.
    destruct (axis_extra s0 s1 n =? 0); simpl; lia.
Qed.

Lemma axis_e_telescope s0 s1 k :
  0 < s0 -> 0 <= s1 ->
  zsum (fun x => axis_e s0 s1 (x * s1)) 0 k = (Z.of_nat k * s1) / s0.
Proof.
  intros Hs0 Hs1. induction k as [|k IH].
  - simpl. rewrite Z.div_0_l; lia.
  - rewrite zsum_snoc, IH. unfold axis_e. rewrite Z.add_0_l.
    replace (Z.of_nat (S k) * s1) with (Z.of_nat k * s1 + s1) by lia. lia.
Qed.

Section Count.
Variables (C W0 sx0 sy0 sx1 sy1 : Z).
Hypotheses (Hsx0 : 0 < sx0) (Hsy0 : 0 < sy0) (Hsx1 : 0 < sx1) (Hsy1 : 0 < sy1).

Lemma axis_count s0 s1 :
  0 < s0 -> 0 < s1 ->
  0 <= lsum (fun x => Z.of_nat (List.length (cols s0 s1 (x * s1)))) (zrange s0)
    <= s0 + s1.
Proof.
  intros Hs0 Hs1. split.
  - apply lsum_nonneg. intros; lia.
  - etransitivity.
    + apply (lsum_le _ (fun x => axis_e s0 s1 (x * s1) + 1)).
      intros x Hx. apply zrange_in in Hx.
      apply cols_length; nia.
    + rewrite lsum_zrange, zsum_add, axis_e_telescope by lia.
      rewrite Z2Nat.id by lia. rewrite (Z.mul_comm s0 s1), Z.div_mul by lia.
      assert (Hone : forall lo len, zsum (fun _ => 1) lo len = Z.of_nat len).
      { intros lo len; revert lo; induction len as [|len IH]; intros lo;
          [reflexivity|]. cbn [zsum]. rewrite IH. lia. }
      rewrite Hone. lia.
Qed.

Lemma cellCalls_length x y :
  0 <= x -> 0 <= y ->
  Z.of_nat (List.length (cellCalls C W0 sx0 sy0 sx1 sy1 x y)) =
  Z.of_nat (List.length (cols sy0 sy1 (y * sy1))) *
  Z.of_nat (List.length (cols sx0 sx1 (x * sx1))).
Proof.
  intros Hx Hy. unfold cellCalls.
  rewrite rows_rev_cols by nia.
  generalize (rev (cols sy0 sy1 (y * sy1))) (length_rev (cols sy0 sy1 (y * sy1))).
  intros rl <-. induction rl as [|r rl IH]; [simpl; lia|].
  cbn [flat_map List.length]. rewrite length_app, length_map. lia.
Qed.

(** The whole table holds at most [(sx0 + sx1) * (sy0 + sy1)] pairs, and at
    least one pair for every sub-cell. *)
Lemma total_count :
  lsum (fun c => Z.of_nat (List.length (cellPairs C W0 sx0 sy0 sx1 sy1 c)))
       (allCells sx0 sy0) <= (sx0 + sx1) * (sy0 + sy1).
Proof.
  unfold allCells. rewrite lsum_flat_map.
  rewrite (lsum_ext _ (fun y => Z.of_nat (List.length (cols sy0 sy1 (y * sy1))) *
                        lsum (fun x => Z.of_nat (List.length (cols sx0 sx1 (x * sx1))))
                             (zrange sx0))).
  - rewrite (lsum_ext _ (fun y =>
       lsum (fun x => Z.of_nat (List.length (cols sx0 sx1 (x * sx1)))) (zrange sx0) *
       Z.of_nat (List.length (cols sy0 sy1 (y * sy1)))))
      by (intros; lia).
    rewrite lsum_scale.
    pose proof (axis_count sx0 sx1 Hsx0 Hsx1).
    pose proof (axis_count sy0 sy1 Hsy0 Hsy1). nia.
  - intros y Hy. apply zrange_in in Hy. rewrite lsum_map, <- lsum_scale.
    apply lsum_ext. intros x Hx. apply zrange_in in Hx.
    unfold cellPairs. rewrite length_map. cbn [fst snd].
    apply cellCalls_length; lia.
Qed.

End Count.

(* ================================================================== *)
(** * The entries of the sub-cells are distinct *)

Lemma mul_mod_inj s0 s1 x x' :
  0 < s0 -> Z.gcd s0 s1 = 1 -> 0 <= x < s0 -> 0 <= x' < s0 ->
  (x * s1) mod s0 = (x' * s1) mod s0 -> x = x'.
Proof.
  intros Hs0 Hg Hx Hx' E.
  assert (D : (s0 | (x - x') * s1)).
  { apply Z.mod_divide; [lia|].
    rewrite Z.mul_sub_distr_r, Zminus_mod, E, Z.sub_diag. apply Z.mod_0_l. lia. }
  rewrite Z.mul_comm in D. apply Z.gauss in D; [|exact Hg].
  destruct D as [k Hk].
  assert (k = 0) by nia. subst k. lia.
Qed.

Section Slots.
Variables (sx0 sy0 sx1 sy1 : Z).
Hypotheses (Hsx0 : 0 < sx0) (Hsy0 : 0 < sy0).

Lemma slot_range x y : 0 <= slot sx0 sy0 sx1 sy1 x y < sx0 * sy0.
Proof.
  unfold slot.
  pose proof (Z.mod_pos_bound (y * sy1) sy0 Hsy0).
  pose proof (Z.mod_pos_bound (x * sx1) sx0 Hsx0). nia.
Qed.

Lemma slot_inj x y x' y' :
  Z.gcd sx0 sx1 = 1 -> Z.gcd sy0 sy1 = 1 ->
  0 <= x < sx0 -> 0 <= x' < sx0 -> 0 <= y < sy0 -> 0 <= y' < sy0 ->
  slot sx0 sy0 sx1 sy1 x y = slot sx0 sy0 sx1 sy1 x' y' -> x = x' /\ y = y'.
Proof.
  intros Gx Gy Hx Hx' Hy Hy' E. unfold slot in E.
  pose proof (Z.mod_pos_bound (y * sy1) sy0 Hsy0).
  pose proof (Z.mod_pos_bound (x * sx1) sx0 Hsx0).
  pose proof (Z.mod_pos_bound (y' * sy1) sy0 Hsy0).
  pose proof (Z.mod_pos_bound (x' * sx1) sx0 Hsx0).
  assert ((y * sy1) mod sy0 = (y' * sy1) mod sy0) by nia.
  assert ((x * sx1) mod sx0 = (x' * sx1) mod sx0) by nia.
  split.
  - apply (mul_mod_inj sx0 sx1); auto.
  - apply (mul_mod_inj sy0 sy1); auto.
Qed.

Lemma to_int_small z : 0 <= z < 2 ^ 31 -> to_int z = z.
Proof.
  intros H. unfold to_int. rewrite Z.mod_small; lia.
Qed.

Lemma cellSlot_eq c :
  sx0 * sy0 < 2 ^ 31 ->
  cellSlot sx0 sy0 sx1 sy1 c = Z.to_nat (slot sx0 sy0 sx1 sy1 (fst c) (snd c)).
Proof.
  intros Hfit. unfold cellSlot. rewrite to_int_small; [reflexivity|].
  pose proof (slot_range (fst c) (snd c)). lia.
Qed.

Lemma cellSlot_NoDup :
  sx0 * sy0 < 2 ^ 31 -> Z.gcd sx0 sx1 = 1 -> Z.gcd sy0 sy1 = 1 ->
  NoDup (map (cellSlot sx0 sy0 sx1 sy1) (allCells sx0 sy0)).
Proof.
  intros Hfit Gx Gy. apply NoDup_map_NoDup_ForallPairs; [|apply allCells_NoDup].
  intros [x y] [x' y'] Hc Hc' E.
  apply allCells_in in Hc, Hc'. cbn [fst snd] in *.
  rewrite !cellSlot_eq in E by exact Hfit. cbn [fst snd] in E.
  pose proof (slot_range x y). pose proof (slot_range x' y').
  destruct (slot_inj x y x' y' Gx Gy) as [-> ->]; try lia. reflexivity.
Qed.

End Slots.


(* ================================================================== *)
(** * The area-weighted table of [ResizeMappingTable::constructTable] *)

Lemma steps_div d0 d1 : 0 < d0 -> 0 < d1 ->
  lcm d0 d1 / d0 = stepSrc d0 d1 /\ lcm d0 d1 / d1 = stepDst d0 d1.
Proof.
  intros H0 H1. unfold stepSrc, stepDst.
  destruct (steps_eq d0 d1 H0 H1) as (Es & _ & El & _).
  destruct (steps_pos d0 d1 H0 H1) as (P0 & _).
  assert (0 <= lcm d0 d1) by (rewrite El, <- Es; nia).
  rewrite !Z.quot_div_nonneg by lia. auto.
Qed.

Lemma vec_resize_nil {A} (d : A) n : vec_resize d n [] = repeat d n.
Proof.
  unfold vec_resize. rewrite firstn_nil. simpl. rewrite Nat.sub_0_r. reflexivity.
Qed.

Lemma u16_small z : 0 <= z < 2 ^ 16 -> u16 z = z.
Proof. intros H. unfold u16. apply Z.mod_small. exact H. Qed.

Section Table.
Context {F : Type} {FO : FloatOps F}.
Variables (H0 W0 H1 W1 C : Z).
Hypotheses (HH0 : 0 < H0) (HW0 : 0 < W0) (HH1 : 0 < H1) (HW1 : 0 < W1).

Let sx0 := stepSrc W0 W1.
Let sy0 := stepSrc H0 H1.
Let sx1 := stepDst W0 W1.
Let sy1 := stepDst H0 H1.

Hypotheses (Hx16 : sx0 < 2 ^ 16) (Hy16 : sy0 < 2 ^ 16).
Hypothesis (Hfit : (sx0 + sx1) * (sy0 + sy1) < 2 ^ 31).

Let t : ResizeMappingTable :=
  ResizeMappingTable_constructTable emptyTable H0 W0 H1 W1 C DALI_INTERP_LINEAR.

(** Every sub-cell of the period finds its contributions, in the order of
    their recording, through its entry of [resizeMappingCPU]. *)
Lemma table_slices :
  List.length (resizeMappingCPU t) = Z.to_nat (sx0 * sy0) /\
  forall x y, 0 <= x < sx0 -> 0 <= y < sy0 ->
    let m := nth (Z.to_nat (slot sx0 sy0 sx1 sy1 x y)) (resizeMappingCPU t) map0 in
    slice (pixMappingCPU t) m = cellPairs C W0 sx0 sy0 sx1 sy1 (x, y) /\
    nPixels m = Z.of_nat (List.length (cellPairs C W0 sx0 sy0 sx1 sy1 (x, y))) /\
    0 <= intersectInfoAddr m.
Proof.
  destruct (steps_pos W0 W1 HW0 HW1) as (Px0 & Px1).
  destruct (steps_pos H0 H1 HH0 HH1) as (Py0 & Py1).
  fold sx0 sx1 in Px0, Px1. fold sy0 sy1 in Py0, Py1.
  pose proof (steps_coprime W0 W1 HW0 HW1) as Gx. fold sx0 sx1 in Gx.
  pose proof (steps_coprime H0 H1 HH0 HH1) as Gy. fold sy0 sy1 in Gy.
  assert (Hcells : sx0 * sy0 < 2 ^ 31) by nia.
  set (M := (sx0 + sx1) * (sy0 + sy1)).
  assert (HM : 2 * M < 2 ^ 32) by (unfold M; lia).
  assert (HaM : sx0 * sy0 <= M) by (unfold M; nia).
  subst t. unfold ResizeMappingTable_constructTable.
  destruct (steps_div W0 W1 HW0 HW1) as (-> & ->).
  destruct (steps_div H0 H1 HH0 HH1) as (-> & ->).
  fold sx0 sx1 sy0 sy1. cbn [is_NN].
  unfold initTable. cbn [resizeMappingCPU resizeMappingSimpleCPU pixMappingCPU
                         io_size C_ emptyTable].
  rewrite !u16_small by lia. rewrite vec_resize_nil.
  set (tbl0 := repeat map0 (Z.to_nat (sx0 * sy0))).
  set (h0 := mkPixMappingHelper (sx0 * sy0) tbl0 [] 0 (Some [])).
  assert (HR0 : LinRel M h0 [] tbl0).
  { unfold h0, mkPixMappingHelper.
    rewrite (u32_small (sx0 * sy0)) by nia.
    rewrite (u32_small (2 * (sx0 * sy0))) by nia.
    rewrite (u32_small 0) by lia. cbn [Z.eqb].
    unfold resizeVector. rewrite vec_resize_nil.
    exists (repeat pix0 (Z.to_nat (2 * (sx0 * sy0)))).
    cbn [pPixMapping_ mappingBase numPixMapUsed_ numPixMapMax_ List.length firstn].
    rewrite repeat_length. repeat split; try reflexivity; try lia. }
  rewrite constructTable_cells.
  pose proof (cells_lin C W0 sx0 sy0 sx1 sy1 M HM Px0 Px1
                (allCells sx0 sy0) h0 [] tbl0 HR0) as HL.
  assert (Hsl : forall c, In c (allCells sx0 sy0) ->
            (Z.to_nat (to_int (slot sx0 sy0 sx1 sy1 (fst c) (snd c)))
             < List.length tbl0)%nat).
  { intros c Hc. fold (cellSlot sx0 sy0 sx1 sy1 c).
    rewrite cellSlot_eq by lia. unfold tbl0. rewrite repeat_length.
    pose proof (slot_range sx0 sy0 sx1 sy1 Px0 Py0 (fst c) (snd c)). lia. }
  specialize (HL ltac:(cbn [List.length]; pose proof (total_count C W0 sx0 sy0 sx1 sy1
                          Px0 Py0 Px1 Py1); fold M in H; lia) Hsl).
  destruct HL as (v & Hv & Ht & Hu & Hm & Hf & Hle & Hpos & HvM).
  rewrite Hv. cbn [resizeMappingCPU pixMappingCPU]. unfold numUsed.
  rewrite Ht, Hu, Nat2Z.id.
  assert (Epix : vec_resize pix0
                   (List.length (fst (abuild C W0 sx0 sy0 sx1 sy1
                                        (allCells sx0 sy0) ([], tbl0)))) v
                 = fst (abuild C W0 sx0 sy0 sx1 sy1 (allCells sx0 sy0) ([], tbl0))).
  { unfold vec_resize. rewrite Hf.
    replace (_ - _)%nat with 0%nat by lia. apply app_nil_r. }
  rewrite Epix. split.
  - rewrite abuild_length. unfold tbl0. apply repeat_length.
  - intros x y Hx Hy.
    assert (Hin : In (x, y) (allCells sx0 sy0)) by (apply allCells_in; simpl; lia).
    pose proof (abuild_lookup C W0 sx0 sy0 sx1 sy1 (allCells sx0 sy0) [] tbl0 (x, y)
                  (cellSlot_NoDup sx0 sy0 sx1 sy1 Px0 Py0 Hcells Gx Gy) Hin) as HA.
    rewrite cellSlot_eq in HA by lia. cbn [fst snd] in HA.
    specialize (HA ltac:(pose proof (Hsl (x, y) Hin) as K;
                         rewrite to_int_small in K;
                         [exact K|
                          pose proof (slot_range sx0 sy0 sx1 sy1 Px0 Py0 x y);
                          cbn [fst snd]; lia])).
    cbn zeta in HA. destruct HA as (HA1 & HA0 & HA2).
    replace (nPixels (nth (Z.to_nat (slot sx0 sy0 sx1 sy1 x y)) tbl0 map0)) with 0
      in HA1 by (unfold tbl0; rewrite nth_repeat; reflexivity).
    rewrite Z.add_0_l in HA1.
    split; [|split; [exact HA1|exact HA0]].
    unfold slice. rewrite HA1, Nat2Z.id. exact HA2.
Qed.

End Table.



Lemma for_loop_inv {S} (P : S -> Prop) (body : Z -> S -> S) start step bound :
  0 <= step ->
  (forall i s, start <= i < bound -> P s -> P (body i s)) ->
  forall fuel i s, start <= i -> P s -> P (for_loop fuel i step bound body s).
Proof.
  intros Hstep Hb. induction fuel as [|fuel IH]; intros i s Hi Hs; [exact Hs|].
  cbn [for_loop]. destruct (Z.ltb_spec i bound); [|exact Hs].
  apply IH; [lia|]. apply Hb; [lia|exact Hs].
Qed.










(* ================================================================== *)
(** * The nearest-neighbour table *)

Section Nearest.
Context {F : Type} {FO : FloatOps F}.
Variable R : Z -> Prop.
Variable tbl0 : list MappingInfo.

Lemma AddPixel_NN h a ar cx cy :
  NNInv R tbl0 h -> R a -> NNInv R tbl0 (AddPixel h a ar cx cy).
Proof.
  intros (Hp & Ht) Ha. unfold AddPixel. rewrite Hp.
  destruct (fgt _ _); [|split; assumption].
  split; [reflexivity|]. cbn [mappingClosestBase]. intros idx.
  rewrite nth_upd.
  destruct (Nat.eqb (pMappingClosest_ h) idx && _)%bool; [right; exact Ha|apply Ht].
Qed.

Lemma UpdateMapping_NN h s cx cy :
  NNInv R tbl0 h -> NNInv R tbl0 (UpdateMapping h s cx cy).
Proof.
  intros (Hp & Ht). unfold UpdateMapping. rewrite Hp. split; [reflexivity|exact Ht].
Qed.

Lemma addCalls_NN : forall L h,
  NNInv R tbl0 h -> Forall (fun c => R (c_addr c)) L ->
  NNInv R tbl0 (fold_left addCall L h).
Proof.
  induction L as [|c L IH]; intros h Hh HL; [exact Hh|].
  inversion HL; subst. cbn [fold_left]. apply IH; [|assumption].
  apply AddPixel_NN; assumption.
Qed.

End Nearest.

Lemma stepDst_le d0 d1 : 0 < d0 -> 0 < d1 -> stepDst d0 d1 <= d0.
Proof.
  intros H0 H1. destruct (steps_eq d0 d1 H0 H1) as (_ & -> & _ & _).
  pose proof (gcd_pos d0 d1 H0).
  apply Z.div_le_upper_bound; nia.
Qed.

(** A call of [AddPixel] in the nearest-neighbour mode stores its address
    at the current entry, or stores nothing. *)
Lemma AddPixel_NN_store {F} {FO : FloatOps F} (h : PixMappingHelper) a ar cx cy :
  pPixMapping_ h = None ->
  mappingClosestBase (AddPixel h a ar cx cy) = mappingClosestBase h \/
  mappingClosestBase (AddPixel h a ar cx cy)
    = upd (mappingClosestBase h) (pMappingClosest_ h) a.
Proof.
  intros Hp. unfold AddPixel. rewrite Hp.
  destruct (fgt _ _); [right|left]; reflexivity.
Qed.

Lemma UpdateMapping_closest {F} {FO : FloatOps F} (h : PixMappingHelper) s cx cy :
  mappingClosestBase (UpdateMapping h s cx cy) = mappingClosestBase h.
Proof.
  unfold UpdateMapping. destruct (pPixMapping_ h); reflexivity.
Qed.

(** C9. For positive extents and a positive channel count [C], every value
    that [constructTable] writes into the nearest-neighbour table lies in
    [[0, H0*W0*C)]: what it does for a sub-cell is a sequence of calls of
    [AddPixel] whose addresses all lie in that range, after an
    [UpdateMapping] that leaves the table as it is; each call stores its
    own address at the current entry or stores nothing; and so, after the
    construction, each entry of the table is either the one the table held
    before or an address in that range. *)
Theorem C9_nearest_entries_in_range :
  forall (F : Type) (FO : FloatOps F) (H0 W0 H1 W1 C : Z)
         (h : PixMappingHelper) (stepW stepH startW startH : Z),
    0 < H0 -> 0 < W0 -> 0 < H1 -> 0 < W1 -> 0 < C ->
    pPixMapping_ h = None ->
    0 < stepW -> 0 < stepH -> 0 <= startW -> 0 <= startH ->
    let sx0 := stepSrc W0 W1 in
    let sy0 := stepSrc H0 H1 in
    let sx1 := stepDst W0 W1 in
    let sy1 := stepDst H0 H1 in
    (forall (h1 : PixMappingHelper) x y, 0 <= x < sx0 -> 0 <= y < sy0 ->
       exists h0,
         cell C W0 sx0 sy0 sx1 sy1 h1 x y =
         fold_left addCall (cellCalls C W0 sx0 sy0 sx1 sy1 x y) h0 /\
         mappingClosestBase h0 = mappingClosestBase h1 /\
         Forall (fun c => 0 <= c_addr c < H0 * W0 * C)
                (cellCalls C W0 sx0 sy0 sx1 sy1 x y)) /\
    (forall (h1 : PixMappingHelper) c, pPixMapping_ h1 = None ->
       mappingClosestBase (addCall h1 c) = mappingClosestBase h1 \/
       mappingClosestBase (addCall h1 c)
         = upd (mappingClosestBase h1) (pMappingClosest_ h1) (c_addr c)) /\
    (let h' := constructTable C W0 sx0 sy0 sx1 sy1 h
                 stepW stepH startW startH in
     forall idx,
       nth idx (mappingClosestBase h') 0 = nth idx (mappingClosestBase h) 0 \/
       0 <= nth idx (mappingClosestBase h') 0 < H0 * W0 * C).
Proof.
  intros F FO H0 W0 H1 W1 C h stepW stepH startW startH
         HH0 HW0 HH1 HW1 HC Hp HsW HsH HaW HaH sx0 sy0 sx1 sy1.
  destruct (steps_pos W0 W1 HW0 HW1) as (Px0 & Px1).
  destruct (steps_pos H0 H1 HH0 HH1) as (Py0 & Py1).
  pose proof (stepDst_le W0 W1 HW0 HW1) as Lx.
  pose proof (stepDst_le H0 H1 HH0 HH1) as Ly.
  fold sx0 sx1 in Px0, Px1, Lx. fold sy0 sy1 in Py0, Py1, Ly.
  split; [|split].
  - intros h1 x y Hx Hy. eexists. split; [apply cell_calls; lia|].
    split; [apply UpdateMapping_closest|].
    apply (cellCalls_addr_range C W0 _ _ _ _ Px0 Py0 Px1 Py1 x y); lia.
  - intros h1 c Hp1. apply AddPixel_NN_store. exact Hp1.
  - intros h'.
    set (R := fun a => 0 <= a < H0 * W0 * C).
    assert (Hinv : NNInv R (mappingClosestBase h) h').
    { subst h'. unfold constructTable, for_range.
      apply (for_loop_inv (NNInv R (mappingClosestBase h)) _ startH stepH);
        [lia| |lia|split; [exact Hp|intros; left; reflexivity]].
      intros y s Hy Hs.
      apply (for_loop_inv (NNInv R (mappingClosestBase h)) _ startW stepW);
        [lia| |lia|exact Hs].
      intros x s' Hx Hs'. rewrite cell_calls by lia.
      apply addCalls_NN; [apply UpdateMapping_NN; exact Hs'|].
      apply (cellCalls_addr_range C W0 _ _ _ _ Px0 Py0 Px1 Py1 x y); lia. }
    exact (proj2 Hinv).
Qed.

(** The table of 2x3 -> 3x5 with three channels, built over a table that
    holds 7 in every entry: the entry 0 is written, and holds an address of
    the source image. *)
Lemma C9_nearest_entries_in_range_witness :
  let h := mkPixMappingHelper (F := Z) 15 [] (repeat 7 15) 6 None in
  let h' := constructTable 3 3 (stepSrc 3 5) (stepSrc 2 3) (stepDst 3 5)
              (stepDst 2 3) h 1 1 0 0 in
  nth 0 (mappingClosestBase h') 0 <> nth 0 (mappingClosestBase h) 0 /\
  0 <= nth 0 (mappingClosestBase h') 0 < 2 * 3 * 3.
Proof.
  intros h h'.
  destruct (C9_nearest_entries_in_range Z ExactFloat 2 3 3 5 3 h 1 1 0 0
              ltac:(lia) ltac:(lia) ltac:(lia) ltac:(lia) ltac:(lia)
              eq_refl ltac:(lia) ltac:(lia) ltac:(lia) ltac:(lia))
    as (_ & _ & T).
  split; [vm_compute; discriminate|].
  destruct (T 0%nat) as [E|R]; [|exact R].
  exfalso. vm_compute in E. discriminate E.
Defined.


(* ================================================================== *)
(** * The accumulation of weighted colours *)

Ltac tuple_eq :=
  repeat match goal with |- (_, _) = (_, _) => f_equal end; try lia.

Lemma addWeitedColor_eq w C img a c0 c1 c2 :
  addWeitedColor w C img a (c0, c1, c2) =
  if C >? 1 then (c0 + w * img a, c1 + w * img (a + 1), c2 + w * img (a + 2))
  else (c0 + w * img a, c1, c2).
Proof.
  unfold addWeitedColor. destruct (Z.eqb_spec w 0) as [->|Hw]; [|reflexivity].
  destruct (C >? 1); tuple_eq.
Qed.

Lemma accum_sum C img : forall l c0 c1 c2,
  accum C img l (c0, c1, c2) =
  if C >? 1 then
    (c0 + lsum (fun p => fst p * img (snd p)) l,
     c1 + lsum (fun p => fst p * img (snd p + 1)) l,
     c2 + lsum (fun p => fst p * img (snd p + 2)) l)
  else (c0 + lsum (fun p => fst p * img (snd p)) l, c1, c2).
Proof.
  induction l as [|[w a] l IH]; intros c0 c1 c2.
  - unfold accum, lsum. simpl. destruct (C >? 1); tuple_eq.
  - unfold accum in *. cbn [fold_left fst snd]. rewrite addWeitedColor_eq.
    unfold lsum in *. cbn [fold_right fst snd].
    destruct (C >? 1) eqn:EC; rewrite IH; tuple_eq.
Qed.

Lemma accum_app C img l1 l2 pc :
  accum C img (l1 ++ l2) pc = accum C img l2 (accum C img l1 pc).
Proof. unfold accum. apply fold_left_app. Qed.

Lemma lsum_rev {A} (f : A -> Z) l : lsum f (rev l) = lsum f l.
Proof.
  induction l as [|a l IH]; [reflexivity|].
  cbn [rev]. rewrite lsum_app, IH. unfold lsum. simpl. lia.
Qed.

Lemma accum_rev C img l pc : accum C img (rev l) pc = accum C img l pc.
Proof.
  destruct pc as [[c0 c1] c2]. rewrite !accum_sum, !lsum_rev. reflexivity.
Qed.

(** Two lists with the same weighted sums accumulate to the same colour. *)
Lemma accum_same_sums C img l1 l2 pc :
  (forall ch, lsum (fun p => fst p * img (snd p + ch)) l1 =
              lsum (fun p => fst p * img (snd p + ch)) l2) ->
  accum C img l1 pc = accum C img l2 pc.
Proof.
  intros H. destruct pc as [[c0 c1] c2]. rewrite !accum_sum.
  pose proof (H 0) as H0. pose proof (H 1) as H1. pose proof (H 2) as H2.
  rewrite (lsum_ext (fun p => fst p * img (snd p)) (fun p => fst p * img (snd p + 0)) l1)
    by (intros; rewrite Z.add_0_r; reflexivity).
  rewrite (lsum_ext (fun p => fst p * img (snd p)) (fun p => fst p * img (snd p + 0)) l2)
    by (intros; rewrite Z.add_0_r; reflexivity).
  rewrite H0, H1, H2. reflexivity.
Qed.

Lemma wsum_lsum g q l : wsum g q l = lsum (fun p => snd p * g (q + fst p)) l.
Proof. reflexivity. Qed.

(* ================================================================== *)
(** * The loops of the fallback path *)

Section Fallback.
Variables (W0 : Z) (img : raster) (C sx0 sy0 : Z) (in_ : Z).

Lemma xLoopF_accum rm lf : forall k pPix pc,
  xLoopF img C sx0 rm lf k pPix pc =
  accum C img
    (map (fun p => (to_int (u32 (rm * snd p)),
                    pPix - (Z.of_nat k + 1 - fst p) * C))
         (colTail sx0 lf k)) pc.
Proof.
  induction k as [|k IH]; intros pPix pc.
  - unfold accum. cbn [xLoopF colTail map fold_left fst snd].
    f_equal. lia.
  - cbn [xLoopF colTail map]. unfold accum in *. cbn [fold_left fst snd].
    rewrite IH. replace (pPix - (Z.of_nat (S k) + 1 - Z.of_nat (S k)) * C)
      with (pPix - C) by lia.
    f_equal. apply map_ext_in. intros [j w] Hj. cbn [fst snd]. f_equal. lia.
Qed.

Lemma rowF_accum beg0 end0 extra0 lf y0 rm pc :
  0 <= beg0 <= end0 -> end0 < 2 ^ 32 ->
  rowF W0 img C sx0 in_ beg0 end0 extra0 lf y0 rm pc =
  accum C img
    (map (fun p => (to_int (u32 (rm * snd p)),
                    in_ + u32 ((y0 * W0 + end0) * C)
                    - (end0 - beg0 - fst p) * C))
         (colList sx0 (end0 - beg0) extra0 lf)) pc.
Proof.
  intros Hb He. unfold rowF, colList. rewrite map_app, accum_app.
  set (P := in_ + u32 ((y0 * W0 + end0) * C)).
  assert (E1 : addWeitedColor (to_int (u32 (rm * extra0))) C img P pc =
               accum C img
                 (map (fun p => (to_int (u32 (rm * snd p)),
                                 P - (end0 - beg0 - fst p) * C))
                      (if extra0 =? 0 then [] else [(end0 - beg0, extra0)])) pc).
  { destruct (Z.eqb_spec extra0 0) as [->|Hx].
    - rewrite Z.mul_0_r. unfold accum. simpl.
      unfold addWeitedColor. destruct pc as [[c0 c1] c2]. reflexivity.
    - unfold accum. cbn [map fold_left fst snd]. f_equal. lia. }
  rewrite <- E1.
  destruct (Z.gtb_spec end0 beg0) as [G|G].
  - replace (end0 - beg0 =? 0) with false by (symmetry; apply Z.eqb_neq; lia).
    rewrite xLoopF_accum. rewrite u32_small by lia.
    replace (Z.to_nat (end0 - 1 - beg0)) with (Z.to_nat (end0 - beg0 - 1)) by lia.
    f_equal. apply map_ext_in. intros [j w] Hj. cbn [fst snd]. f_equal.
    replace (Z.of_nat (Z.to_nat (end0 - beg0 - 1)) + 1 - j) with (end0 - beg0 - j)
      by lia. reflexivity.
  - replace (end0 - beg0 =? 0) with true by (symmetry; apply Z.eqb_eq; lia).
    reflexivity.
Qed.

Lemma rowsF_fold beg0 end0 extra0 lf beg1 end1 extra1 :
  0 <= beg1 <= end1 -> end1 + 1 < 2 ^ 32 ->
  forall fuel a rm pc,
    0 <= a <= end1 - beg1 ->
    rowsF W0 img C sx0 sy0 in_ beg0 end0 extra0 lf end1 extra1 fuel (beg1 + a) rm pc =
    fold_left (fun pc r => rowF W0 img C sx0 in_ beg0 end0 extra0 lf
                                (beg1 + fst r) (snd r) pc)
              (rowList sy0 (end1 - beg1) extra1 fuel a rm) pc.
Proof.
  intros Hb He. induction fuel as [|fuel IH]; intros a rm pc Ha; [reflexivity|].
  cbn [rowsF rowList fold_left fst snd].
  rewrite u32_small by lia.
  replace (beg1 + a + 1 >=? end1) with (a + 1 >=? end1 - beg1)
    by (destruct (Z.geb_spec (a + 1) (end1 - beg1));
        destruct (Z.geb_spec (beg1 + a + 1) end1); lia).
  replace (beg1 + a + 1 >? end1) with (a + 1 >? end1 - beg1)
    by (destruct (Z.gtb_spec (a + 1) (end1 - beg1));
        destruct (Z.gtb_spec (beg1 + a + 1) end1); lia).
  replace (beg1 + a + 1) with (beg1 + (a + 1)) by lia.
  destruct (Z.geb_spec (a + 1) (end1 - beg1)).
  - destruct (Z.gtb_spec (a + 1) (end1 - beg1)); cbn [orb]; [reflexivity|].
    destruct (extra1 =? 0); [reflexivity|]. apply IH. lia.
  - apply IH. lia.
Qed.

End Fallback.


(* ================================================================== *)
(** * The colour the fallback path computes *)

Lemma fold_left_ext_in {A S} (f g : S -> A -> S) l s :
  (forall s a, In a l -> f s a = g s a) -> fold_left f l s = fold_left g l s.
Proof.
  revert s; induction l as [|a l IH]; intros s H; [reflexivity|].
  cbn [fold_left]. rewrite (H s a (or_introl eq_refl)).
  apply IH. intros s' a' Ha'. apply H. right. exact Ha'.
Qed.

Lemma to_int_u32_small z : 0 <= z < 2 ^ 31 -> to_int (u32 z) = z.
Proof.
  intros H. rewrite u32_small by lia. apply to_int_small. exact H.
Qed.

Lemma accum_sumColor C img l :
  accum C img l (0, 0, 0) =
  sumColor C (fun ch => lsum (fun p => fst p * img (snd p + ch)) l).
Proof.
  rewrite accum_sum. unfold sumColor.
  rewrite (lsum_ext (fun p => fst p * img (snd p + 0)) (fun p => fst p * img (snd p)))
    by (intros; rewrite Z.add_0_r; reflexivity).
  destruct (C >? 1); reflexivity.
Qed.

Lemma mul_lt_cancel a b c : 0 < c -> a * c < b * c -> a < b.
Proof. intros Hc H. nia. Qed.

Lemma mul_bound a b A B M :
  0 <= a <= A -> 0 <= b <= B -> A * B < M -> 0 <= a * b < M.
Proof. intros Ha Hb HM. nia. Qed.

Lemma sumColor_ext C S S' :
  (forall ch, S ch = S' ch) -> sumColor C S = sumColor C S'.
Proof. intros H. unfold sumColor. rewrite !H. reflexivity. Qed.

Section PixelSum.
Variables (W0 H0 : Z) (img : raster) (C sx0 sy0 sx1 sy1 in_ : Z).
Hypotheses (Hsx0 : 0 < sx0) (Hsy0 : 0 < sy0) (Hsx1 : 0 < sx1) (Hsy1 : 0 < sy1).
Hypotheses (HC : 0 < C) (HW0 : 0 < W0) (HH0 : 0 < H0).
Hypothesis (Himg : H0 * W0 * C < 2 ^ 31).
Hypothesis (Harea : sx1 * sy1 < 2 ^ 31).
Hypotheses (HLx : W0 * sx0 < 2 ^ 31) (HLy : H0 * sy0 < 2 ^ 31).

(** The scaled origin of the resized pixel. *)
Variables (nX nY : Z).
Hypotheses (HnX : 0 <= nX) (HnX1 : nX + sx1 <= W0 * sx0).
Hypotheses (HnY : 0 <= nY) (HnY1 : nY + sy1 <= H0 * sy0).

Local Notation "'rowI'" := (rowIdeal W0 C in_ sx0 sy0 sx1 nX nY).

Lemma axis_end_le s0 s1 n T :
  0 < s0 -> 0 < s1 -> 0 <= n -> n + s1 <= T * s0 ->
  0 <= n / s0 <= (n + s1) / s0 /\ (n + s1) / s0 <= T.
Proof.
  intros H0' H1' Hn HT.
  pose proof (Z.div_pos n s0 Hn H0').
  pose proof (Z.div_le_mono n (n + s1) s0 H0' ltac:(lia)).
  pose proof (Z.div_le_upper_bound (n + s1) s0 T H0' ltac:(lia)). lia.
Qed.

Lemma rowF_ideal r :
  In r (rows sy0 sy1 nY) ->
  forall pc,
  rowF W0 img C sx0 in_ (nX / sx0) ((nX + sx1) / sx0)
       (axis_extra sx0 sx1 nX) (axis_lenFirst sx0 nX)
       (nY / sy0 + fst r) (snd r) pc =
  accum C img (rowI r) pc.
Proof.
  intros Hr pc. destruct r as [a rm]. cbn [fst snd].
  apply rows_in in Hr as (Ha & Hrm & Erm & Hay); try lia.
  destruct (axis_end_le sx0 sx1 nX W0 Hsx0 Hsx1 HnX ltac:(lia)) as (Hbx & Hex).
  pose proof (Z.div_pos nY sy0 HnY Hsy0) as Hqy.
  set (qy := nY / sy0) in *. set (qx := nX / sx0) in *.
  assert (Hy0 : qy + a < H0)
    by (apply (mul_lt_cancel _ _ sy0); [lia|clearbody qy; clear - Hay HnY1; lia]).
  assert (HW32 : W0 < 2 ^ 32) by (clear - HLx Hsx0 HW0; nia).
  rewrite rowF_accum by lia.
  unfold rowIdeal, cols. fold (axis_e sx0 sx1 nX). unfold axis_e. fold qx.
  f_equal. apply map_ext_in. intros [k w] Hk.
  change (colList sx0 ((nX + sx1) / sx0 - qx) (axis_extra sx0 sx1 nX)
                  (axis_lenFirst sx0 nX)) with (cols sx0 sx1 nX) in Hk.
  apply cols_in in Hk as (Hk0 & Hw & Ew & _); try lia.
  pose proof (overlap_le sx0 sx1 nX (nX / sx0 + k) ltac:(lia)) as Ow.
  pose proof (overlap_le sy0 sy1 nY (nY / sy0 + a) ltac:(lia)) as Orm.
  fold qx in Ow, Ew. fold qy in Orm. rewrite <- Ew in Ow. rewrite <- Erm in Orm.
  cbn [fst snd].
  assert (K1 : 0 <= (qy + a) * W0) by (apply Z.mul_nonneg_nonneg; lia).
  assert (K2 : (qy + a) * W0 <= (H0 - 1) * W0)
    by (apply Z.mul_le_mono_nonneg_r; lia).
  assert (K3 : 0 <= ((qy + a) * W0 + (nX + sx1) / sx0) * C)
    by (apply Z.mul_nonneg_nonneg; lia).
  assert (K4 : ((qy + a) * W0 + (nX + sx1) / sx0) * C <= (H0 * W0) * C)
    by (apply Z.mul_le_mono_nonneg_r; [lia|clear - K2 Hex; lia]).
  rewrite (u32_small (((qy + a) * W0 + (nX + sx1) / sx0) * C))
    by (clear - K3 K4 Himg; lia).
  rewrite to_int_u32_small
    by (apply (mul_bound rm w sy1 sx1); [lia|lia|clear - Harea; lia]).
  f_equal. fold (axis_e sx0 sx1 nX) in Hk0. unfold axis_e in Hk0. fold qx in Hk0.
  replace (in_ + ((qy + a) * W0 + (nX + sx1) / sx0) * C
           - ((nX + sx1) / sx0 - qx - k) * C)
    with (in_ + ((qy + a) * W0 + qx + k) * C) by ring.
  reflexivity.
Qed.

Lemma accum_rows_rcSum :
  accum C img (flat_map rowI (rows sy0 sy1 nY)) (0, 0, 0) =
  sumColor C (rcSum W0 C img in_ sx0 sy0 sx1 sy1 nX nY).
Proof.
  rewrite accum_sumColor. apply sumColor_ext. intros ch.
  unfold rcSum. rewrite lsum_flat_map, wsum_lsum.
  apply lsum_ext. intros r Hr. unfold rowIdeal.
  rewrite lsum_map, wsum_lsum, <- lsum_scale.
  apply lsum_ext. intros p Hp. cbn [fst snd].
  rewrite <- Z.mul_assoc. do 3 f_equal. ring.
Qed.

(** The fallback path computes the sums over the rows and columns that
    intersect the resized pixel. *)
Lemma pixelLinear_rcSum cropX cropY x y :
  (x + cropX) * sx1 = nX -> (y + cropY) * sy1 = nY ->
  pixelLinear W0 img C sx0 sy0 sx1 sy1 cropX cropY in_ x y =
  sumColor C (rcSum W0 C img in_ sx0 sy0 sx1 sy1 nX nY).
Proof.
  intros EX EY. unfold pixelLinear. rewrite EX, EY.
  destruct (axis_end_le sx0 sx1 nX W0 Hsx0 Hsx1 HnX ltac:(lia)) as (Hbx & Hex).
  destruct (axis_end_le sy0 sy1 nY H0 Hsy0 Hsy1 HnY ltac:(lia)) as (Hby & Hey).
  pose proof (Z.mod_pos_bound nX sx0 Hsx0).
  pose proof (Z.mod_pos_bound nY sy0 Hsy0).
  assert (HW31 : W0 < 2 ^ 31) by (clear - HLx Hsx0 HW0; nia).
  assert (HH31 : H0 < 2 ^ 31) by (clear - HLy Hsy0 HH0; nia).
  assert (Hx31 : sx0 < 2 ^ 31) by (clear - HLx Hsx0 HW0; nia).
  assert (Hy31 : sy0 < 2 ^ 31) by (clear - HLy Hsy0 HH0; nia).
  rewrite (u32_small nX), (u32_small nY) by lia.
  rewrite (u32_small (nX + sx1)), (u32_small (nY + sy1)) by lia.
  rewrite (u32_small (sx0 - nX mod sx0)), (u32_small (sy0 - nY mod sy0)) by lia.
  fold (axis_extra sx0 sx1 nX) (axis_extra sy0 sy1 nY).
  fold (axis_lenFirst sx0 nX) (axis_lenFirst sy0 nY).
  replace (nY / sy0) with (nY / sy0 + 0) at 2 by lia.
  rewrite rowsF_fold by lia.
  replace ((nY + sy1) / sy0 >? nY / sy0) with (negb (axis_e sy0 sy1 nY =? 0)).
  2:{ unfold axis_e. destruct (Z.gtb_spec ((nY + sy1) / sy0) (nY / sy0));
        destruct (Z.eqb_spec ((nY + sy1) / sy0 - nY / sy0) 0); simpl; lia. }
  fold (axis_e sy0 sy1 nY).
  replace (if negb (axis_e sy0 sy1 nY =? 0) then axis_lenFirst sy0 nY
           else axis_extra sy0 sy1 nY)
    with (if axis_e sy0 sy1 nY =? 0 then axis_extra sy0 sy1 nY
          else axis_lenFirst sy0 nY)
    by (destruct (axis_e sy0 sy1 nY =? 0); reflexivity).
  fold (rows sy0 sy1 nY).
  rewrite (fold_left_ext_in _ (fun pc r => accum C img (rowI r) pc)).
  2:{ intros s r Hr. apply rowF_ideal. exact Hr. }
  unfold accum at 1. rewrite <- (fold_left_flat_map
    (fun pc p => addWeitedColor (fst p) C img (snd p) pc) rowI).
  apply accum_rows_rcSum.
Qed.

(** The sums over the intersecting rows and columns are the area-weighted
    sums over the whole source image. *)
Lemma rcSum_areaSum ch :
  rcSum W0 C img in_ sx0 sy0 sx1 sy1 nX nY ch =
  areaSum W0 H0 C img in_ sx0 sy0 sx1 sy1 nX nY ch.
Proof.
  unfold rcSum, areaSum.
  rewrite (rows_wsum sy0 sy1 nY _ (Z.to_nat H0)) by lia.
  apply zsum_ext. intros i Hi. f_equal.
  apply (cols_wsum sx0 sx1 nX Hsx0 Hsx1 HnX); lia.
Qed.

End PixelSum.


(* ================================================================== *)
(** * The colour the tabulated path computes *)

Lemma firstn_S_nth {A} (l : list A) n d :
  (n < List.length l)%nat -> firstn (S n) l = firstn n l ++ [nth n l d].
Proof.
  revert n; induction l as [|h t IH]; intros [|n] H; simpl in *; try lia; auto.
  f_equal. apply IH. lia.
Qed.

Lemma tableLoop_accum img C pix p base : forall n pc,
  0 <= p -> List.length (firstn n (skipn (Z.to_nat p) pix)) = n ->
  tableLoop img C pix p base n pc =
  accum C img
    (rev (map (fun e => (to_int (pixArea e), base + pixAddr e))
              (firstn n (skipn (Z.to_nat p) pix)))) pc.
Proof.
  induction n as [|n IH]; intros pc Hp Hl; [reflexivity|].
  rewrite length_firstn in Hl.
  cbn [tableLoop]. rewrite IH by (try rewrite length_firstn; lia).
  rewrite (firstn_S_nth _ n pix0) by lia.
  rewrite map_app, rev_app_distr. cbn [map rev app].
  unfold accum. cbn [fold_left fst snd]. rewrite nth_skipn.
  replace (Z.to_nat (p + Z.of_nat n)) with (Z.to_nat p + n)%nat by lia.
  reflexivity.
Qed.

Lemma map_flat_map {A B D} (h : B -> D) (g : A -> list B) l :
  map h (flat_map g l) = flat_map (fun a => map h (g a)) l.
Proof.
  induction l as [|a l IH]; [reflexivity|].
  cbn [flat_map]. rewrite map_app, IH. reflexivity.
Qed.

Lemma flat_map_ext_in {A B} (f g : A -> list B) l :
  (forall a, In a l -> f a = g a) -> flat_map f l = flat_map g l.
Proof.
  induction l as [|a l IH]; intros H; [reflexivity|].
  cbn [flat_map]. rewrite (H a (or_introl eq_refl)).
  rewrite IH; [reflexivity|]. intros b Hb. apply H. right. exact Hb.
Qed.

(** The geometry of an axis is periodic. *)
Lemma cols_period s0 s1 n k :
  0 < s0 -> cols s0 s1 (n + k * s0) = cols s0 s1 n.
Proof.
  intros Hs0. unfold cols, axis_e, axis_extra, axis_lenFirst.
  replace (n + k * s0 + s1) with (n + s1 + k * s0) by lia.
  rewrite !Z.div_add, !Z.mod_add by lia.
  replace ((n + s1) / s0 + k - (n / s0 + k)) with ((n + s1) / s0 - n / s0) by lia.
  reflexivity.
Qed.

Lemma rows_period s0 s1 n k :
  0 < s0 -> rows s0 s1 (n + k * s0) = rows s0 s1 n.
Proof.
  intros Hs0. unfold rows, axis_e, axis_extra, axis_lenFirst.
  replace (n + k * s0 + s1) with (n + s1 + k * s0) by lia.
  rewrite !Z.div_add, !Z.mod_add by lia.
  replace ((n + s1) / s0 + k - (n / s0 + k)) with ((n + s1) / s0 - n / s0) by lia.
  reflexivity.
Qed.

Lemma scaled_period s0 s1 X :
  0 < s0 -> X * s1 = (X mod s0) * s1 + (X / s0 * s1) * s0.
Proof.
  intros Hs0. pose proof (Z.div_mod X s0 ltac:(lia)) as E.
  rewrite E at 1. ring.
Qed.

Section TableKernel.
Context {F : Type} {FO : FloatOps F}.
Variables (H0 W0 H1 W1 C : Z) (img : raster) (in_ : Z).
Hypotheses (HH0 : 0 < H0) (HW0 : 0 < W0) (HH1 : 0 < H1) (HW1 : 0 < W1).
Hypothesis (HC : 0 < C).

Let sx0 := stepSrc W0 W1.
Let sy0 := stepSrc H0 H1.
Let sx1 := stepDst W0 W1.
Let sy1 := stepDst H0 H1.

Hypotheses (Hx16 : sx0 < 2 ^ 16) (Hy16 : sy0 < 2 ^ 16).
Hypothesis (Hfit : (sx0 + sx1) * (sy0 + sy1) < 2 ^ 31).
Hypothesis (Himg : H0 * W0 * C < 2 ^ 31).
Hypotheses (HLx : W0 * sx0 < 2 ^ 31) (HLy : H0 * sy0 < 2 ^ 31).

Let t : ResizeMappingTable :=
  ResizeMappingTable_constructTable emptyTable H0 W0 H1 W1 C DALI_INTERP_LINEAR.

Variables (X Y : Z).
Hypotheses (HX : 0 <= X) (HX1 : X * sx1 + sx1 <= W0 * sx0).
Hypotheses (HY : 0 <= Y) (HY1 : Y * sy1 + sy1 <= H0 * sy0).

Lemma pixelTable_rcSum cropX cropY x y :
  x + cropX = X -> y + cropY = Y ->
  pixelTable W0 img C sx0 sy0 sx1 sy1 cropX cropY in_
             (resizeMappingCPU t) (pixMappingCPU t) x y =
  sumColor C (rcSum W0 C img in_ sx0 sy0 sx1 sy1 (X * sx1) (Y * sy1)).
Proof.
  intros EX EY.
  destruct (steps_pos W0 W1 HW0 HW1) as (Px0 & Px1).
  destruct (steps_pos H0 H1 HH0 HH1) as (Py0 & Py1).
  fold sx0 sx1 in Px0, Px1. fold sy0 sy1 in Py0, Py1.
  assert (Harea : sx1 * sy1 < 2 ^ 31) by (clear - Hfit Px0 Px1 Py0 Py1; nia).
  assert (HnX : 0 <= X * sx1) by (clear - HX Px1; nia).
  assert (HnY : 0 <= Y * sy1) by (clear - HY Py1; nia).
  rewrite <- (accum_rows_rcSum W0 img C sx0 sy0 sx1 sy1 in_).
  destruct (table_slices H0 W0 H1 W1 C HH0 HW0 HH1 HW1 Hx16 Hy16 Hfit)
    as (Hlen & Hs).
  fold sx0 sy0 sx1 sy1 in Hlen, Hs. fold t in Hlen, Hs.
  pose proof (Z.mod_pos_bound X sx0 Px0) as HXm.
  pose proof (Z.mod_pos_bound Y sy0 Py0) as HYm.
  specialize (Hs (X mod sx0) (Y mod sy0) HXm HYm).
  unfold pixelTable. rewrite EX, EY.
  set (nX := X * sx1) in *. set (nY := Y * sy1) in *.
  destruct (axis_end_le sx0 sx1 nX W0 Px0 Px1 HnX ltac:(lia)) as (Hbx & Hex).
  destruct (axis_end_le sy0 sy1 nY H0 Py0 Py1 HnY ltac:(lia)) as (Hby & Hey).
  pose proof (Z.mod_pos_bound nX sx0 Px0) as HnXm.
  pose proof (Z.mod_pos_bound nY sy0 Py0) as HnYm.
  rewrite (u32_small nX), (u32_small nY) by lia.
  assert (Eslot : (nY mod sy0) * sx0 + nX mod sx0 =
                  slot sx0 sy0 sx1 sy1 (X mod sx0) (Y mod sy0)).
  { unfold slot, nX, nY. rewrite !Z.mul_mod_idemp_l by lia. reflexivity. }
  assert (Hcells : sx0 * sy0 < 2 ^ 31) by (clear - Hfit Px0 Px1 Py0 Py1; nia).
  rewrite (u32_small (nY mod sy0 * sx0))
    by (clear - HnYm Px0 Py0 Hcells; nia).
  rewrite Eslot.
  cbn zeta in Hs. unfold slice in Hs.
  set (m := nth (Z.to_nat (slot sx0 sy0 sx1 sy1 (X mod sx0) (Y mod sy0)))
                (resizeMappingCPU t) map0) in *.
  destruct Hs as (Hs1 & Hs2 & Hs3).
  rewrite tableLoop_accum
    by (try rewrite Hs1; try rewrite Hs2; try rewrite Nat2Z.id; auto).
  rewrite accum_rev, Hs1.
  unfold cellPairs, cellCalls. cbn [fst snd].
  assert (Ecols : cols sx0 sx1 (X mod sx0 * sx1) = cols sx0 sx1 nX).
  { unfold nX. rewrite (scaled_period sx0 sx1 X Px0). symmetry.
    apply cols_period. exact Px0. }
  assert (Erows : rows sy0 sy1 (Y mod sy0 * sy1) = rows sy0 sy1 nY).
  { unfold nY. rewrite (scaled_period sy0 sy1 Y Py0). symmetry.
    apply rows_period. exact Py0. }
  rewrite Ecols, Erows. rewrite !map_flat_map.
  f_equal. apply flat_map_ext_in. intros [a rm] Hr.
  unfold rowIdeal. rewrite !map_map. apply map_ext_in. intros [k w] Hk.
  cbn [fst snd mkCall pairOf pixArea pixAddr c_area c_addr].
  apply rows_in in Hr as (Ha & Hrm & Erm & Hay); try lia.
  apply cols_in in Hk as (Hk0 & Hw & Ew & Hkx); try lia.
  pose proof (overlap_le sx0 sx1 nX (nX / sx0 + k) ltac:(lia)) as Ow.
  pose proof (overlap_le sy0 sy1 nY (nY / sy0 + a) ltac:(lia)) as Orm.
  rewrite <- Ew in Ow. rewrite <- Erm in Orm.
  set (qy := nY / sy0) in *. set (qx := nX / sx0) in *.
  assert (Hy0 : qy + a < H0)
    by (apply (mul_lt_cancel _ _ sy0); [lia|clearbody qy; clear - Hay HY1; lia]).
  assert (Hx0 : qx + k < W0)
    by (apply (mul_lt_cancel _ _ sx0); [lia|clearbody qx; clear - Hkx HX1; lia]).
  clearbody qx qy.
  rewrite to_int_u32_small
    by (rewrite Z.mul_comm; apply (mul_bound rm w sy1 sx1);
        [lia|lia|clear - Harea; lia]).
  unfold nYoffset.
  assert (B0 : H0 * W0 * C = H0 * (W0 * C)) by ring.
  assert (B1 : 0 <= qy * (W0 * C) <= (H0 - 1) * (W0 * C)).
  { split; [apply Z.mul_nonneg_nonneg; [lia|clear - HW0 HC; nia]|].
    apply Z.mul_le_mono_nonneg_r; [clear - HW0 HC; nia|lia]. }
  assert (B2 : 0 <= qx * C <= (W0 - 1) * C).
  { split; [apply Z.mul_nonneg_nonneg; lia|].
    apply Z.mul_le_mono_nonneg_r; lia. }
  assert (B3 : 0 <= a * W0 <= (H0 - 1) * W0).
  { split; [apply Z.mul_nonneg_nonneg; lia|].
    apply Z.mul_le_mono_nonneg_r; lia. }
  assert (B4 : 0 <= (a * W0 + k) * C <= (H0 * W0 - 1) * C).
  { split; [apply Z.mul_nonneg_nonneg; lia|].
    apply Z.mul_le_mono_nonneg_r; [lia|clear - B3 Hx0 Hbx Hk0; lia]. }
  assert (B5 : 0 < W0 * C) by (clear - HW0 HC; nia).
  rewrite (u32_small (qy * (W0 * C))) by (clear - B0 B1 B5 Himg; lia).
  rewrite (u32_small (qx * C)) by (clear - B0 B2 B5 Himg HH0 HC; nia).
  rewrite (u32_small ((a * W0 + k) * C)) by (clear - B4 Himg HC; lia).
  f_equal; ring.
Qed.

End TableKernel.


(* ================================================================== *)
(** * The loops over the destination pixels *)

Lemma for_loop_ext {S} (f g : Z -> S -> S) start step bound :
  0 <= step ->
  (forall i s, start <= i < bound -> f i s = g i s) ->
  forall fuel i s, start <= i ->
    for_loop fuel i step bound f s = for_loop fuel i step bound g s.
Proof.
  intros Hstep H. induction fuel as [|fuel IH]; intros i s Hi; [reflexivity|].
  cbn [for_loop]. destruct (Z.ltb_spec i bound); [|reflexivity].
  rewrite H by lia. apply IH. lia.
Qed.

Lemma pixelLoops_ext W H C (f g : Z -> Z -> color) area
    startW stepW startH stepH outStep shift out img_out :
  0 <= stepW -> 0 <= stepH ->
  (forall x y, startW <= x < W -> startH <= y < H -> f x y = g x y) ->
  pixelLoops W H C f area startW stepW startH stepH outStep shift out img_out =
  pixelLoops W H C g area startW stepW startH stepH outStep shift out img_out.
Proof.
  intros HsW HsH Hfg. unfold pixelLoops, for_range.
  apply (for_loop_ext _ _ startH); [exact HsH| |lia].
  intros y [o m] Hy. f_equal.
  apply (for_loop_ext _ _ startW); [exact HsW| |lia].
  intros x m' Hx. rewrite Hfg by lia. reflexivity.
Qed.

Lemma steps_lcm d0 d1 : 0 < d0 -> 0 < d1 ->
  d0 * stepSrc d0 d1 = d1 * stepDst d0 d1.
Proof.
  intros H0 H1. destruct (steps_eq d0 d1 H0 H1) as (-> & -> & E0 & E1). lia.
Qed.

(** The path of [ResizeFunc] that reads the tables of the area-weighted mode
    and the path that recomputes the intersections store the same bytes. *)
Lemma table_path_fallback :
  forall (F : Type) (FO : FloatOps F) (H0 W0 H1 W1 C : Z)
         (img_in img_out : raster) (W H cropX cropY : Z)
         (pMirrorInfo : option (list MirroringInfo)) (imgIdx : Z)
         (startW stepW startH stepH : Z),
    0 < H0 -> 0 < W0 -> 0 < H1 -> 0 < W1 -> 0 < C -> 0 < W -> 0 < H ->
    stepSrc W0 W1 < 2 ^ 16 -> stepSrc H0 H1 < 2 ^ 16 ->
    (stepSrc W0 W1 + stepDst W0 W1) * (stepSrc H0 H1 + stepDst H0 H1) < 2 ^ 31 ->
    H0 * W0 * C < 2 ^ 31 ->
    W0 * stepSrc W0 W1 < 2 ^ 31 -> H0 * stepSrc H0 H1 < 2 ^ 31 ->
    0 <= cropX -> W + cropX <= W1 -> 0 <= cropY -> H + cropY <= H1 ->
    0 <= startW -> 0 < stepW -> 0 <= startH -> 0 < stepH ->
    let t := ResizeMappingTable_constructTable emptyTable H0 W0 H1 W1 C
               DALI_INTERP_LINEAR in
    let rp := gridParams (stepSrc W0 W1) (stepSrc H0 H1)
                         (stepDst W0 W1) (stepDst H0 H1) cropX cropY in
    ResizeFunc W0 H0 img_in W H img_out C rp pMirrorInfo imgIdx
               startW stepW startH stepH
               None (Some (resizeMappingCPU t)) (Some (pixMappingCPU t))
    = ResizeFunc W0 H0 img_in W H img_out C rp pMirrorInfo imgIdx
                 startW stepW startH stepH None None None.
Proof.
  intros F FO H0 W0 H1 W1 C img_in img_out W H cropX cropY pMirrorInfo imgIdx
         startW stepW startH stepH HH0 HW0 HH1 HW1 HC HW HH Hx16 Hy16 Hfit Himg HLx HLy
         HcX HcX1 HcY HcY1 HaW HsW HaH HsH t rp.
  destruct (steps_pos W0 W1 HW0 HW1) as (Px0 & Px1).
  destruct (steps_pos H0 H1 HH0 HH1) as (Py0 & Py1).
  pose proof (steps_lcm W0 W1 HW0 HW1) as ELx.
  pose proof (steps_lcm H0 H1 HH0 HH1) as ELy.
  set (sx0 := stepSrc W0 W1) in *. set (sy0 := stepSrc H0 H1) in *.
  set (sx1 := stepDst W0 W1) in *. set (sy1 := stepDst H0 H1) in *.
  assert (Harea : sx1 * sy1 < 2 ^ 31) by (clear - Hfit Px0 Px1 Py0 Py1; nia).
  assert (Hx1 : sx1 < 2 ^ 31) by (clear - Harea Px1 Py1; nia).
  assert (Hy1 : sy1 < 2 ^ 31) by (clear - Harea Px1 Py1; nia).
  assert (HW1b : W1 < 2 ^ 31) by (clear - HLx ELx Px1 HW1; nia).
  assert (HH1b : H1 < 2 ^ 31) by (clear - HLy ELy Py1 HH1; nia).
  unfold ResizeFunc, rp, gridParams, param_at. cbn [nth px py].
  rewrite (u32_small sx0), (u32_small sy0), (u32_small sx1), (u32_small sy1),
          (u32_small cropX), (u32_small cropY) by lia.
  destruct (match pMirrorInfo with Some _ => _ | None => _ end) as [[out shift] outStep].
  f_equal. apply pixelLoops_ext; [lia|lia|].
  intros x y Hx Hy.
  assert (BX : (x + cropX) * sx1 + sx1 <= W0 * sx0).
  { rewrite ELx. replace ((x + cropX) * sx1 + sx1) with ((x + cropX + 1) * sx1) by ring.
    apply Z.mul_le_mono_nonneg_r; lia. }
  assert (BY : (y + cropY) * sy1 + sy1 <= H0 * sy0).
  { rewrite ELy. replace ((y + cropY) * sy1 + sy1) with ((y + cropY + 1) * sy1) by ring.
    apply Z.mul_le_mono_nonneg_r; lia. }
  transitivity (sumColor C (rcSum W0 C img_in (H0 * nYoffset W0 C * imgIdx)
                  sx0 sy0 sx1 sy1 ((x + cropX) * sx1) ((y + cropY) * sy1))).
  { apply (@pixelTable_rcSum F FO H0 W0 H1 W1 C img_in _ HH0 HW0 HH1 HW1 HC Hx16 Hy16
             Hfit Himg HLx HLy (x + cropX) (y + cropY)); try lia; reflexivity. }
  symmetry.
  apply (pixelLinear_rcSum W0 H0 img_in C sx0 sy0 sx1 sy1 _ Px0 Py0 Px1 Py1 HC HW0 HH0
           Himg Harea HLx HLy ((x + cropX) * sx1) ((y + cropY) * sy1));
    try reflexivity; try lia.
  - apply Z.mul_nonneg_nonneg; lia.
  - apply Z.mul_nonneg_nonneg; lia.
Qed.






(* ================================================================== *)
(** * The stores of the kernel *)

Lemma writeAll_app l1 l2 m : writeAll (l1 ++ l2) m = writeAll l2 (writeAll l1 m).
Proof. unfold writeAll. apply fold_left_app. Qed.

(** An address that no store names keeps its byte. *)
Lemma writeAll_frame l : forall m a,
  (forall v, ~ In (a, v) l) -> writeAll l m a = m a.
Proof.
  induction l as [|[a0 v0] l IH]; intros m a H; [reflexivity|].
  cbn [writeAll fold_left fst snd]. fold (writeAll l (store m a0 v0)).
  rewrite IH by (intros v Hv; apply (H v); right; exact Hv).
  unfold store. destruct (Z.eqb_spec a a0) as [->|]; [|reflexivity].
  exfalso. apply (H v0). left. reflexivity.
Qed.

(** An address that the stores name with one value only holds that value. *)
Lemma writeAll_read l a v : forall m,
  In (a, v) l \/ m a = v ->
  (forall v', In (a, v') l -> v' = v) ->
  writeAll l m a = v.
Proof.
  induction l as [|[a0 v0] l IH]; intros m Hin Hfun.
  - destruct Hin as [[]|E]. exact E.
  - cbn [writeAll fold_left fst snd]. fold (writeAll l (store m a0 v0)).
    apply IH.
    + unfold store. destruct (Z.eqb_spec a a0) as [->|Hne].
      * right. apply Hfun. left. reflexivity.
      * destruct Hin as [[E|Hin]|E]; [congruence|left; exact Hin|right; exact E].
    + intros v' Hv'. apply Hfun. right. exact Hv'.
Qed.

Lemma setPixelColor_writes m out to C c area :
  setPixelColor m out to C c area = writeAll (pixelWrites C (out + to) c area) m.
Proof.
  unfold setPixelColor, pixelWrites, writeAll, quant, chan.
  destruct c as [[c0 c1] c2]. destruct (C >? 1); reflexivity.
Qed.

Lemma writeAll_flat_map {A} (g : A -> list (Z * Z)) l : forall m,
  writeAll (flat_map g l) m = fold_left (fun m a => writeAll (g a) m) l m.
Proof. intros m. unfold writeAll. apply fold_left_flat_map. Qed.

Lemma pixelLoops_writes W H C pixel area outStep shift out m :
  snd (pixelLoops W H C pixel area 0 1 0 1 outStep shift out m) =
  writeAll (loopWrites W H C pixel area outStep shift out) m.
Proof.
  unfold pixelLoops, loopWrites, locWrites. rewrite for_range_fold, writeAll_flat_map.
  unfold zrange.
  assert (G : forall n k o r,
    o = out + Z.of_nat k * shift ->
    snd (fold_left
      (fun (s : Z * raster) (j : Z) =>
         let '(out0, m0) := s in
         (out0 + shift,
          for_range 0 1 W
            (fun x m1 => setPixelColor m1 (out0 + shift) (x * outStep) C
                           (pixel x j) area) m0))
      (map Z.of_nat (seq k n)) (o, r)) =
    fold_left
      (fun m0 y => writeAll (flat_map (fun x =>
         pixelWrites C (out + (y + 1) * shift + x * outStep) (pixel x y) area)
         (map Z.of_nat (seq 0 (Z.to_nat W)))) m0)
      (map Z.of_nat (seq k n)) r).
  { induction n as [|n IH]; intros k o r Ho; [reflexivity|].
    cbn [seq map fold_left]. rewrite (IH (S k)) by lia. f_equal.
    rewrite for_range_fold, writeAll_flat_map. unfold zrange.
    apply fold_left_ext. intros s x. rewrite setPixelColor_writes.
    do 2 f_equal. subst o. lia. }
  apply G. simpl. lia.
Qed.


(* ================================================================== *)
(** * Reading the output raster *)

Lemma pixelWrites_in C a c area a' v :
  C = 1 \/ C = 3 ->
  In (a', v) (pixelWrites C a c area) <->
  exists ch, 0 <= ch < C /\ a' = a + ch /\ v = quant area (chan c ch).
Proof.
  intros [-> | ->]; unfold pixelWrites; cbn [Z.gtb Z.compare Pos.compare
    Pos.compare_cont In]; split.
  - intros [E|[]]. inversion E; subst. exists 0. split; [lia|split; [lia|reflexivity]].
  - intros (ch & Hch & -> & ->). left. replace ch with 0 by lia.
    rewrite Z.add_0_r. reflexivity.
  - intros [E|[E|[E|[]]]]; inversion E; subst;
      [exists 0|exists 1|exists 2]; (split; [lia|split; [lia|reflexivity]]).
  - intros (ch & Hch & -> & ->).
    assert (K : ch = 0 \/ ch = 1 \/ ch = 2) by lia.
    destruct K as [-> | [-> | ->]];
      [left; rewrite Z.add_0_r|right; left|right; right; left]; reflexivity.
Qed.

Lemma locWrites_in W H C loc pixel area a v :
  C = 1 \/ C = 3 ->
  In (a, v) (locWrites W H C loc pixel area) <->
  exists x y ch, 0 <= x < W /\ 0 <= y < H /\ 0 <= ch < C /\
                 a = loc x y + ch /\ v = quant area (chan (pixel x y) ch).
Proof.
  intros HC. unfold locWrites. rewrite in_flat_map. split.
  - intros (y & Hy & Hin). apply in_flat_map in Hin as (x & Hx & Hin).
    apply zrange_in in Hy, Hx. apply (pixelWrites_in _ _ _ _ _ _ HC) in Hin.
    destruct Hin as (ch & Hch & Ea & Ev). exists x, y, ch. tauto.
  - intros (x & y & ch & Hx & Hy & Hch & Ea & Ev).
    exists y. split; [apply zrange_in; exact Hy|].
    apply in_flat_map. exists x. split; [apply zrange_in; exact Hx|].
    apply (pixelWrites_in _ _ _ _ _ _ HC). exists ch. tauto.
Qed.

Section Loc.
Variables (W H C : Z) (loc : Z -> Z -> Z).
Hypothesis (HC : C = 1 \/ C = 3).
Hypothesis loc_inj : forall x y ch x' y' ch',
  0 <= x < W -> 0 <= y < H -> 0 <= ch < C ->
  0 <= x' < W -> 0 <= y' < H -> 0 <= ch' < C ->
  loc x y + ch = loc x' y' + ch' -> x = x' /\ y = y' /\ ch = ch'.

Lemma locWrites_read pixel area m x y ch :
  0 <= x < W -> 0 <= y < H -> 0 <= ch < C ->
  writeAll (locWrites W H C loc pixel area) m (loc x y + ch) =
  quant area (chan (pixel x y) ch).
Proof.
  intros Hx Hy Hch. apply writeAll_read.
  - left. apply (locWrites_in _ _ _ _ _ _ _ _ HC). exists x, y, ch. tauto.
  - intros v' Hv'. apply (locWrites_in _ _ _ _ _ _ _ _ HC) in Hv'.
    destruct Hv' as (x' & y' & ch' & Hx' & Hy' & Hch' & Ea & ->).
    destruct (loc_inj x y ch x' y' ch' Hx Hy Hch Hx' Hy' Hch' Ea) as (-> & -> & ->).
    reflexivity.
Qed.

Lemma locWrites_frame pixel area m a :
  (forall x y ch, 0 <= x < W -> 0 <= y < H -> 0 <= ch < C -> a <> loc x y + ch) ->
  writeAll (locWrites W H C loc pixel area) m a = m a.
Proof.
  intros Hout. apply writeAll_frame. intros v Hv.
  apply (locWrites_in _ _ _ _ _ _ _ _ HC) in Hv.
  destruct Hv as (x & y & ch & Hx & Hy & Hch & Ea & _).
  exact (Hout x y ch Hx Hy Hch Ea).
Qed.

End Loc.

(** Offsets [(p * W + c) * C + ch] with [c < W] and [ch < C] determine
    [p], [c] and [ch]. *)
Lemma pixel_offset_inj W C p c ch p' c' ch' :
  0 <= c < W -> 0 <= ch < C -> 0 <= c' < W -> 0 <= ch' < C ->
  (p * W + c) * C + ch = (p' * W + c') * C + ch' ->
  p = p' /\ c = c' /\ ch = ch'.
Proof.
  intros Hc Hch Hc' Hch' E.
  destruct (Z.div_mod_unique C (p * W + c) (p' * W + c') ch ch') as (E1 & E2);
    [left; lia|left; lia|lia|].
  destruct (Z.div_mod_unique W p p' c c') as (E3 & E4);
    [left; lia|left; lia|lia|].
  tauto.
Qed.

Lemma outLoc_inj W H C fl imgIdx x y ch x' y' ch' :
  0 <= x < W -> 0 <= y < H -> 0 <= ch < C ->
  0 <= x' < W -> 0 <= y' < H -> 0 <= ch' < C ->
  outLoc W H C fl imgIdx x y + ch = outLoc W H C fl imgIdx x' y' + ch' ->
  x = x' /\ y = y' /\ ch = ch'.
Proof.
  intros Hx Hy Hch Hx' Hy' Hch' E. unfold outLoc in E.
  apply pixel_offset_inj in E; try lia.
  - destruct fl as [[] []]; cbn [fst snd] in *; lia.
  - destruct (fst fl); lia.
  - destruct (fst fl); lia.
Qed.

(** The offsets of the pixels of image [imgIdx] fill the image. *)
Lemma outLoc_range W H C fl imgIdx x y ch :
  0 <= x < W -> 0 <= y < H -> 0 <= ch < C ->
  H * imgIdx * W * C <= outLoc W H C fl imgIdx x y + ch
    < H * (imgIdx + 1) * W * C.
Proof.
  intros Hx Hy Hch. unfold outLoc.
  set (r := if snd fl then H - 1 - y else y).
  set (c := if fst fl then W - 1 - x else x).
  assert (Hr : 0 <= r < H) by (subst r; destruct (snd fl); lia).
  assert (Hc : 0 <= c < W) by (subst c; destruct (fst fl); lia).
  clearbody r c. clear Hx Hy.
  assert (K1 : 0 <= r * W) by (apply Z.mul_nonneg_nonneg; lia).
  assert (K2 : r * W <= (H - 1) * W) by (apply Z.mul_le_mono_nonneg_r; lia).
  assert (K3 : 0 <= (r * W + c) * C) by (apply Z.mul_nonneg_nonneg; lia).
  assert (K4 : (r * W + c) * C <= (H * W - 1) * C)
    by (apply Z.mul_le_mono_nonneg_r; lia).
  replace ((H * imgIdx + r) * W + c) with (H * imgIdx * W + (r * W + c)) by ring.
  rewrite Z.mul_add_distr_r.
  replace (H * (imgIdx + 1) * W * C) with (H * imgIdx * W * C + H * W * C) by ring.
  lia.
Qed.

Lemma outLoc_onto W H C fl imgIdx a :
  0 < W -> 0 < H -> 0 < C ->
  H * imgIdx * W * C <= a < H * (imgIdx + 1) * W * C ->
  exists x y ch, 0 <= x < W /\ 0 <= y < H /\ 0 <= ch < C /\
                 a = outLoc W H C fl imgIdx x y + ch.
Proof.
  intros HW HH HC Ha.
  set (d := a - H * imgIdx * W * C).
  assert (Hd : 0 <= d < (H * W) * C)
    by (subst d; replace (H * (imgIdx + 1) * W * C)
          with (H * imgIdx * W * C + H * W * C) in Ha by ring; lia).
  pose proof (Z.div_mod d C ltac:(lia)) as E1.
  pose proof (Z.mod_pos_bound d C HC) as B1.
  assert (Bp : 0 <= d / C < H * W).
  { split; [apply Z.div_pos; lia|apply Z.div_lt_upper_bound; lia]. }
  set (p := d / C) in *.
  pose proof (Z.div_mod p W ltac:(lia)) as E2.
  pose proof (Z.mod_pos_bound p W HW) as B2.
  assert (Br : 0 <= p / W < H).
  { split; [apply Z.div_pos; lia|apply Z.div_lt_upper_bound; lia]. }
  set (r := p / W) in *. set (c := p mod W) in *. set (ch := d mod C) in *.
  exists (if fst fl then W - 1 - c else c), (if snd fl then H - 1 - r else r), ch.
  split; [destruct (fst fl); lia|]. split; [destruct (snd fl); lia|].
  split; [lia|]. unfold outLoc.
  replace (if snd fl then H - 1 - (if snd fl then H - 1 - r else r)
           else if snd fl then H - 1 - r else r) with r
    by (destruct (snd fl); lia).
  replace (if fst fl then W - 1 - (if fst fl then W - 1 - c else c)
           else if fst fl then W - 1 - c else c) with c
    by (destruct (fst fl); lia).
  replace ((H * imgIdx + r) * W + c) with (H * imgIdx * W + (W * r + c)) by ring.
  rewrite <- E2, Z.mul_add_distr_r.
  clearbody p ch. clear - E1. subst d. lia.
Qed.


(* ================================================================== *)
(** * The kernel as a list of stores *)

Lemma locWrites_ext W H C loc loc' pixel pixel' area :
  (forall x y, 0 <= x < W -> 0 <= y < H -> loc x y = loc' x y) ->
  (forall x y, 0 <= x < W -> 0 <= y < H -> pixel x y = pixel' x y) ->
  locWrites W H C loc pixel area = locWrites W H C loc' pixel' area.
Proof.
  intros Hl Hp. unfold locWrites.
  apply flat_map_ext_in. intros y Hy. apply zrange_in in Hy.
  apply flat_map_ext_in. intros x Hx. apply zrange_in in Hx.
  rewrite Hl, Hp by lia. reflexivity.
Qed.

Section Stores.
Variables (W H C imgIdx : Z).
Hypotheses (HW : 0 < W) (HH : 0 < H) (HC : 0 < C) (Hidx : 0 <= imgIdx).
Hypothesis (Hout : H * (imgIdx + 1) * W * C < 2 ^ 31).

Lemma out_bounds :
  0 < W * C /\ W * C <= H * (W * C) /\ 0 <= H * imgIdx * (W * C) /\
  H * imgIdx * (W * C) + H * (W * C) < 2 ^ 31.
Proof.
  assert (K0 : 0 < W * C) by (apply Z.mul_pos_pos; lia).
  assert (K1 : 1 * (W * C) <= H * (W * C))
    by (apply Z.mul_le_mono_nonneg_r; lia).
  assert (K2 : 0 <= H * imgIdx) by (apply Z.mul_nonneg_nonneg; lia).
  assert (K3 : 0 <= H * imgIdx * (W * C)) by (apply Z.mul_nonneg_nonneg; lia).
  replace (H * (imgIdx + 1) * W * C)
    with (H * imgIdx * (W * C) + H * (W * C)) in Hout by ring.
  lia.
Qed.

(** The start, the row stride and the pixel stride that [ResizeFunc] derives
    from the mirror flags place pixel [(x, y)] at [outLoc]. *)
Lemma mirror_strides (pm : option (list MirroringInfo)) :
  let offset := u32 (nYoffset W C) in
  let shift := to_int (u32 (1 * offset)) in
  let out := u32 ((H * imgIdx + 0) * offset) - shift in
  exists out' shift' outStep',
    match pm with
    | Some mi =>
        let m := nth (Z.to_nat imgIdx) mi grid0 in
        let '(out, shift) :=
          if py m =? 0 then (out, shift)
          else
            let shift := shift * -1 in
            (out + u32 (u32 ((H - 2 * 0 - 1) * offset) - 2 * shift), shift) in
        if px m =? 0 then (out, shift, C)
        else (out + u32 (offset + - C), shift, - C)
    | None => (out, shift, C)
    end = (out', shift', outStep') /\
    forall x y, out' + (y + 1) * shift' + x * outStep' =
                outLoc W H C (flagsOf pm imgIdx) imgIdx x y.
Proof.
  destruct out_bounds as (K0 & K1 & K2 & K3).
  assert (KC : C <= W * C) by (clear - HW HC; nia).
  assert (KH : 0 <= (H - 1) * (W * C)) by (apply Z.mul_nonneg_nonneg; lia).
  assert (KH' : (H - 1) * (W * C) = H * (W * C) - W * C) by ring.
  cbv zeta. unfold nYoffset.
  rewrite (u32_small (W * C)) by lia. rewrite Z.mul_1_l.
  rewrite (u32_small (W * C)) by lia. rewrite to_int_small by lia.
  rewrite Z.add_0_r, (u32_small (H * imgIdx * (W * C))) by lia.
  rewrite Z.mul_0_r, Z.sub_0_r.
  rewrite (u32_small ((H - 1) * (W * C))) by lia.
  rewrite (u32_small ((H - 1) * (W * C) - 2 * (W * C * -1))) by lia.
  rewrite (u32_small (W * C + - C)) by lia.
  unfold flagsOf, outLoc.
  destruct pm as [mi|].
  - cbv zeta. unfold MirroringInfo in *.
    destruct (py (nth (Z.to_nat imgIdx) mi grid0) =? 0) eqn:Ey;
      destruct (px (nth (Z.to_nat imgIdx) mi grid0) =? 0) eqn:Ex;
      do 3 eexists; (split; [reflexivity|]); intros x y; cbn [fst snd];
      rewrite ?Ex, ?Ey; cbn [negb]; ring.
  - do 3 eexists. split; [reflexivity|]. intros x y. cbn [fst snd]. ring.
Qed.

(** The fallback path of the area-weighted mode, run over the whole
    output: the stores it makes. *)
Lemma ResizeFunc_fallback_stores W0 H0 img_in img_out rp pm :
  ResizeFunc W0 H0 img_in W H img_out C rp pm imgIdx 0 1 0 1 None None None =
  writeAll
    (locWrites W H C (outLoc W H C (flagsOf pm imgIdx) imgIdx)
       (pixelLinear W0 img_in C
          (u32 (px (param_at rp 0))) (u32 (py (param_at rp 0)))
          (u32 (px (param_at rp 1))) (u32 (py (param_at rp 1)))
          (u32 (px (param_at rp 2))) (u32 (py (param_at rp 2)))
          (H0 * nYoffset W0 C * imgIdx))
       (u32 (u32 (px (param_at rp 1)) * u32 (py (param_at rp 1)))))
    img_out.
Proof.
  unfold ResizeFunc. cbv zeta.
  destruct (mirror_strides pm) as (o & s & os & E & Hloc). cbv zeta in E.
  rewrite E. rewrite pixelLoops_writes. unfold loopWrites. f_equal.
  apply locWrites_ext; intros x y _ _; [apply Hloc|reflexivity].
Qed.

End Stores.


(* ================================================================== *)
(** * The bytes of the resized image *)

Lemma chan_sumColor C S ch :
  C = 1 \/ C = 3 -> 0 <= ch < C -> chan (sumColor C S) ch = S ch.
Proof.
  intros [-> | ->] Hch; unfold sumColor, chan; cbn [Z.gtb Z.compare Pos.compare
    Pos.compare_cont].
  - replace ch with 0 by lia. reflexivity.
  - assert (K : ch = 0 \/ ch = 1 \/ ch = 2) by lia.
    destruct K as [-> | [-> | ->]]; reflexivity.
Qed.

Section LinearRead.
Variables (W0 H0 W H C imgIdx : Z) (img_in img_out : raster).
Variables (sx0 sy0 sx1 sy1 cropX cropY : Z).
Variable (pm : option (list MirroringInfo)).
Hypothesis (HC : C = 1 \/ C = 3).
Hypotheses (HW : 0 < W) (HH : 0 < H) (HW0 : 0 < W0) (HH0 : 0 < H0).
Hypothesis (Hidx : 0 <= imgIdx).
Hypothesis (Hout : H * (imgIdx + 1) * W * C < 2 ^ 31).
Hypotheses (Hsx0 : 0 < sx0) (Hsy0 : 0 < sy0) (Hsx1 : 0 < sx1) (Hsy1 : 0 < sy1).
Hypothesis (Himg : H0 * W0 * C < 2 ^ 31).
Hypothesis (Harea : sx1 * sy1 < 2 ^ 31).
Hypotheses (HLx : W0 * sx0 < 2 ^ 31) (HLy : H0 * sy0 < 2 ^ 31).
Hypotheses (HcX : 0 <= cropX) (HcX1 : (W + cropX) * sx1 <= W0 * sx0).
Hypotheses (HcY : 0 <= cropY) (HcY1 : (H + cropY) * sy1 <= H0 * sy0).

Let rp := gridParams sx0 sy0 sx1 sy1 cropX cropY.
Let in_ := H0 * nYoffset W0 C * imgIdx.
Let fl := flagsOf pm imgIdx.

Lemma grid_fits :
  sx0 < 2 ^ 31 /\ sy0 < 2 ^ 31 /\ sx1 < 2 ^ 31 /\ sy1 < 2 ^ 31 /\
  cropX < 2 ^ 31 /\ cropY < 2 ^ 31.
Proof.
  assert (K1 : sx0 <= W0 * sx0) by (clear - HW0 Hsx0; nia).
  assert (K2 : sy0 <= H0 * sy0) by (clear - HH0 Hsy0; nia).
  assert (K3 : sx1 <= sx1 * sy1) by (clear - Hsx1 Hsy1; nia).
  assert (K4 : sy1 <= sx1 * sy1) by (clear - Hsx1 Hsy1; nia).
  assert (K5 : cropX <= (W + cropX) * sx1) by (clear - HW HcX Hsx1; nia).
  assert (K6 : cropY <= (H + cropY) * sy1) by (clear - HH HcY Hsy1; nia).
  lia.
Qed.

Lemma fallback_stores :
  ResizeFunc W0 H0 img_in W H img_out C rp pm imgIdx 0 1 0 1 None None None =
  writeAll
    (locWrites W H C (outLoc W H C fl imgIdx)
       (pixelLinear W0 img_in C sx0 sy0 sx1 sy1 cropX cropY in_) (sx1 * sy1))
    img_out.
Proof.
  destruct grid_fits as (F1 & F2 & F3 & F4 & F5 & F6).
  rewrite ResizeFunc_fallback_stores by (lia || assumption).
  unfold rp, gridParams, param_at. cbn [nth px py].
  rewrite (u32_small sx0), (u32_small sy0), (u32_small sx1), (u32_small sy1),
          (u32_small cropX), (u32_small cropY) by lia.
  rewrite (u32_small (sx1 * sy1)) by (clear - Harea Hsx1 Hsy1; nia).
  reflexivity.
Qed.

Lemma pixelLinear_value x y ch :
  0 <= x < W -> 0 <= y < H -> 0 <= ch < C ->
  chan (pixelLinear W0 img_in C sx0 sy0 sx1 sy1 cropX cropY in_ x y) ch =
  areaSum W0 H0 C img_in in_ sx0 sy0 sx1 sy1
          ((x + cropX) * sx1) ((y + cropY) * sy1) ch.
Proof.
  intros Hx Hy Hch.
  assert (HC0 : 0 < C) by lia.
  assert (BX0 : 0 <= (x + cropX) * sx1) by (apply Z.mul_nonneg_nonneg; lia).
  assert (BY0 : 0 <= (y + cropY) * sy1) by (apply Z.mul_nonneg_nonneg; lia).
  assert (BX : (x + cropX) * sx1 + sx1 <= W0 * sx0).
  { replace ((x + cropX) * sx1 + sx1) with ((x + cropX + 1) * sx1) by ring.
    etransitivity; [|exact HcX1]. apply Z.mul_le_mono_nonneg_r; lia. }
  assert (BY : (y + cropY) * sy1 + sy1 <= H0 * sy0).
  { replace ((y + cropY) * sy1 + sy1) with ((y + cropY + 1) * sy1) by ring.
    etransitivity; [|exact HcY1]. apply Z.mul_le_mono_nonneg_r; lia. }
  rewrite (pixelLinear_rcSum W0 H0 img_in C sx0 sy0 sx1 sy1 in_ Hsx0 Hsy0 Hsx1 Hsy1
             HC0 HW0 HH0 Himg Harea HLx HLy _ _ BX0 BX BY0 BY cropX cropY x y
             eq_refl eq_refl).
  rewrite chan_sumColor by assumption.
  apply rcSum_areaSum; assumption.
Qed.

(** The byte at the place of channel [ch] of pixel [(x, y)] after the
    fallback path has run. *)
Lemma fallback_read x y ch :
  0 <= x < W -> 0 <= y < H -> 0 <= ch < C ->
  ResizeFunc W0 H0 img_in W H img_out C rp pm imgIdx 0 1 0 1 None None None
             (outLoc W H C fl imgIdx x y + ch) =
  linearValue W0 H0 C img_in in_ sx0 sy0 sx1 sy1 cropX cropY x y ch.
Proof.
  intros Hx Hy Hch. rewrite fallback_stores.
  rewrite (locWrites_read W H C _ HC (outLoc_inj W H C fl imgIdx)) by assumption.
  unfold linearValue. f_equal. apply pixelLinear_value; assumption.
Qed.

(** The bytes outside the image stay as they were. *)
Lemma fallback_frame a :
  ~ (H * imgIdx * W * C <= a < H * (imgIdx + 1) * W * C) ->
  ResizeFunc W0 H0 img_in W H img_out C rp pm imgIdx 0 1 0 1 None None None a =
  img_out a.
Proof.
  intros Ha. rewrite fallback_stores.
  apply (locWrites_frame W H C _ HC). intros x y ch Hx Hy Hch ->.
  apply Ha. apply outLoc_range; assumption.
Qed.

End LinearRead.


(* ================================================================== *)
(** * Resizing to the same size *)





Lemma quant_unit v : 0 <= v < 256 -> quant 1 v = v.
Proof.
  intros Hv. unfold quant. change (Z.shiftr 1 1) with 0.
  rewrite Z.add_0_r, Z.div_1_r. rewrite u32_small by lia.
  unfold u8. apply Z.mod_small. lia.
Qed.




(* ================================================================== *)
(** * Mirroring on X *)

(** The intersections with the source pixels, read from the right edge of a
    row of [T] source pixels. *)
Lemma overlap_mirror s0 s1 n T j :
  overlap s0 s1 (T * s0 - n - s1) (T - 1 - j) = overlap s0 s1 n j.
Proof.
  unfold overlap.
  replace ((T - 1 - j + 1) * s0) with (T * s0 - j * s0) by ring.
  replace ((T - 1 - j) * s0) with (T * s0 - (j + 1) * s0) by ring.
  replace (T * s0 - n - s1 + s1) with (T * s0 - n) by ring.
  set (a := j * s0). set (b := (j + 1) * s0). set (t := T * s0).
  clearbody a b t. lia.
Qed.

Lemma mirrorX_at W0 C img K i j ch :
  0 < W0 -> 0 <= j < W0 -> 0 <= ch < C ->
  mirrorX W0 C img (K * W0 * C + (i * W0 + j) * C + ch) =
  img (K * W0 * C + (i * W0 + (W0 - 1 - j)) * C + ch).
Proof.
  intros HW0 Hj Hch. unfold mirrorX. cbv zeta.
  set (a := K * W0 * C + (i * W0 + j) * C + ch).
  assert (Ea : a = C * ((K + i) * W0 + j) + ch) by (subst a; ring).
  rewrite <- (Z.div_unique_pos a C ((K + i) * W0 + j) ch Hch Ea).
  rewrite <- (Z.mod_unique_pos a C ((K + i) * W0 + j) ch Hch Ea).
  assert (Ep : (K + i) * W0 + j = W0 * (K + i) + j) by ring.
  rewrite <- (Z.div_unique_pos _ W0 (K + i) j Hj Ep).
  rewrite <- (Z.mod_unique_pos _ W0 (K + i) j Hj Ep).
  f_equal. ring.
Qed.

(** The area-weighted sum over the mirrored image is the sum over the image
    for the resized pixel mirrored in the scaled row. *)
Lemma areaSum_mirror W0 H0 C img K sx0 sy0 sx1 sy1 nX nY ch :
  0 < W0 -> 0 <= ch < C ->
  areaSum W0 H0 C (mirrorX W0 C img) (K * W0 * C) sx0 sy0 sx1 sy1
          (W0 * sx0 - nX - sx1) nY ch =
  areaSum W0 H0 C img (K * W0 * C) sx0 sy0 sx1 sy1 nX nY ch.
Proof.
  intros HW0 Hch. unfold areaSum. apply zsum_ext. intros i Hi. f_equal.
  rewrite (zsum_rev (fun j => overlap sx0 sx1 nX j *
                              img (K * W0 * C + (i * W0 + j) * C + ch))).
  apply zsum_ext. intros j Hj. rewrite Z2Nat.id by lia.
  rewrite mirrorX_at by lia.
  rewrite <- (overlap_mirror sx0 sx1 nX W0 (W0 - 1 - j)).
  replace (W0 - 1 - (W0 - 1 - j)) with j by ring. reflexivity.
Qed.


Section MirrorX.
Variables (W0 H0 W1 H1 W H C imgIdx : Z) (img_in img_out : raster).
Variables (cropX cropY : Z) (pm pm0 : option (list MirroringInfo)) (my : bool).
Hypothesis (HC : C = 1 \/ C = 3).
Hypotheses (HW0 : 0 < W0) (HH0 : 0 < H0) (HW1 : 0 < W1) (HH1 : 0 < H1).
Hypotheses (HW : 0 < W) (HH : 0 < H) (Hidx : 0 <= imgIdx).
Hypothesis (Hout : H * (imgIdx + 1) * W * C < 2 ^ 31).
Hypothesis (Himg : H0 * W0 * C < 2 ^ 31).
Hypotheses (HLx : W0 * stepSrc W0 W1 < 2 ^ 31) (HLy : H0 * stepSrc H0 H1 < 2 ^ 31).
Hypothesis (Harea : stepDst W0 W1 * stepDst H0 H1 < 2 ^ 31).
Hypotheses (HcX : 0 <= cropX) (Hcentre : W1 = W + 2 * cropX).
Hypotheses (HcY : 0 <= cropY) (HcY1 : H + cropY <= H1).
Hypotheses (Hfl : flagsOf pm imgIdx = (true, my))
           (Hfl0 : flagsOf pm0 imgIdx = (false, my)).

Let rp := gridParams (stepSrc W0 W1) (stepSrc H0 H1)
                     (stepDst W0 W1) (stepDst H0 H1) cropX cropY.

(** On the path that recomputes the intersections, storing the resized
    pixels mirrored on X gives the bytes of the resize of the mirrored
    image, when the crop window is centred in the scaled row. *)
Lemma fallback_mirror a :
  ResizeFunc W0 H0 img_in W H img_out C rp pm imgIdx 0 1 0 1 None None None a =
  ResizeFunc W0 H0 (mirrorX W0 C img_in) W H img_out C rp pm0 imgIdx 0 1 0 1
             None None None a.
Proof.
  destruct (steps_pos W0 W1 HW0 HW1) as (Px0 & Px1).
  destruct (steps_pos H0 H1 HH0 HH1) as (Py0 & Py1).
  pose proof (steps_lcm W0 W1 HW0 HW1) as ELx.
  pose proof (steps_lcm H0 H1 HH0 HH1) as ELy.
  unfold rp.
  set (sx0 := stepSrc W0 W1) in *. set (sy0 := stepSrc H0 H1) in *.
  set (sx1 := stepDst W0 W1) in *. set (sy1 := stepDst H0 H1) in *.
  assert (HC0 : 0 < C) by lia.
  assert (BX : (W + cropX) * sx1 <= W0 * sx0)
    by (rewrite ELx; apply Z.mul_le_mono_nonneg_r; lia).
  assert (BY : (H + cropY) * sy1 <= H0 * sy0)
    by (rewrite ELy; apply Z.mul_le_mono_nonneg_r; lia).
  destruct (Z_le_gt_dec (H * imgIdx * W * C) a) as [Hlo|Hlo];
    [destruct (Z_lt_le_dec a (H * (imgIdx + 1) * W * C)) as [Hhi|Hhi]|].
  - destruct (outLoc_onto W H C (true, my) imgIdx a HW HH HC0 (conj Hlo Hhi))
      as (x & y & ch & Hx & Hy & Hch & ->).
    transitivity (linearValue W0 H0 C img_in (H0 * nYoffset W0 C * imgIdx)
                    sx0 sy0 sx1 sy1 cropX cropY x y ch).
    { rewrite <- Hfl. apply fallback_read; assumption. }
    assert (Ea : outLoc W H C (true, my) imgIdx x y =
                 outLoc W H C (false, my) imgIdx (W - 1 - x) y)
      by reflexivity.
    rewrite Ea, <- Hfl0.
    rewrite fallback_read; try assumption; try lia.
    unfold linearValue. f_equal.
    replace (H0 * nYoffset W0 C * imgIdx) with (H0 * imgIdx * W0 * C)
      by (unfold nYoffset; ring).
    replace ((W - 1 - x + cropX) * sx1)
      with (W0 * sx0 - (x + cropX) * sx1 - sx1)
      by (rewrite ELx, Hcentre; ring).
    symmetry. apply areaSum_mirror; lia.
  - rewrite !fallback_frame; first [assumption | lia].
  - rewrite !fallback_frame; first [assumption | lia].
Qed.

End MirrorX.

(** C7 (amended). With the area-weighted interpolation, one or three
    channels, and the crop window centred in the scaled row
    ([W1 = W + 2 * cropX], in particular without crop), storing the resized
    pixels mirrored on X yields the same output raster as resizing the image
    mirrored on X without the X flag; the Y flag is the same on both sides.
    This holds on the path that recomputes the intersections and, for a
    table built in a table object that holds no earlier table, with the
    steps [sx0], [sy0] below [2 ^ 16] and [(sx0 + sx1) * (sy0 + sy1)] below
    [2 ^ 31], on the path that reads the table. *)
Theorem C7_mirror_x_commutes_centred :
  forall (F : Type) (FO : FloatOps F) (W0 H0 W1 H1 W H C imgIdx : Z)
         (img_in img_out : raster) (cropX cropY : Z)
         (pm pm0 : option (list MirroringInfo)) (my : bool),
    C = 1 \/ C = 3 ->
    0 < W0 -> 0 < H0 -> 0 < W1 -> 0 < H1 -> 0 < W -> 0 < H -> 0 <= imgIdx ->
    H * (imgIdx + 1) * W * C < 2 ^ 31 ->
    H0 * W0 * C < 2 ^ 31 ->
    W0 * stepSrc W0 W1 < 2 ^ 31 -> H0 * stepSrc H0 H1 < 2 ^ 31 ->
    stepDst W0 W1 * stepDst H0 H1 < 2 ^ 31 ->
    0 <= cropX -> W1 = W + 2 * cropX -> 0 <= cropY -> H + cropY <= H1 ->
    flagsOf pm imgIdx = (true, my) -> flagsOf pm0 imgIdx = (false, my) ->
    let rp := gridParams (stepSrc W0 W1) (stepSrc H0 H1)
                         (stepDst W0 W1) (stepDst H0 H1) cropX cropY in
    let t := ResizeMappingTable_constructTable emptyTable H0 W0 H1 W1 C
               DALI_INTERP_LINEAR in
    forall a,
      ResizeFunc W0 H0 img_in W H img_out C rp pm imgIdx 0 1 0 1
                 None None None a =
      ResizeFunc W0 H0 (mirrorX W0 C img_in) W H img_out C rp pm0 imgIdx
                 0 1 0 1 None None None a /\
      (stepSrc W0 W1 < 2 ^ 16 -> stepSrc H0 H1 < 2 ^ 16 ->
       (stepSrc W0 W1 + stepDst W0 W1) * (stepSrc H0 H1 + stepDst H0 H1) < 2 ^ 31 ->
       ResizeFunc W0 H0 img_in W H img_out C rp pm imgIdx 0 1 0 1
                  None (Some (resizeMappingCPU t)) (Some (pixMappingCPU t)) a =
       ResizeFunc W0 H0 (mirrorX W0 C img_in) W H img_out C rp pm0 imgIdx
                  0 1 0 1
                  None (Some (resizeMappingCPU t)) (Some (pixMappingCPU t)) a).
Proof.
  intros F FO W0 H0 W1 H1 W H C imgIdx img_in img_out cropX cropY pm pm0 my
         HC HW0 HH0 HW1 HH1 HW HH Hidx Hout Himg HLx HLy Harea HcX Hcentre HcY HcY1
         Hfl Hfl0 rp t a.
  assert (E : ResizeFunc W0 H0 img_in W H img_out C rp pm imgIdx 0 1 0 1
                None None None a =
              ResizeFunc W0 H0 (mirrorX W0 C img_in) W H img_out C rp pm0 imgIdx
                0 1 0 1 None None None a)
    by (apply (fallback_mirror W0 H0 W1 H1 W H C imgIdx img_in img_out cropX cropY
                 pm pm0 my); assumption).
  split; [exact E|]. intros Hx16 Hy16 Hfit. unfold rp, t.
  rewrite !table_path_fallback; first [assumption | lia].
Qed.

Lemma C7_mirror_x_commutes_centred_witness :
  let img_in : raster := fun a => (7 * a + 3) mod 256 in
  let img_out : raster := fun _ => 0 in
  let rp := gridParams (stepSrc 2 4) (stepSrc 1 1) (stepDst 2 4) (stepDst 1 1)
                       1 0 in
  ResizeFunc 2 1 img_in 2 1 img_out 1 rp (Some [ {| px := 1; py := 0 |} ]) 0
             0 1 0 1 None None None 0 =
  ResizeFunc 2 1 (mirrorX 2 1 img_in) 2 1 img_out 1 rp None 0
             0 1 0 1 None None None 0.
Proof.
  intros img_in img_out.
  apply (C7_mirror_x_commutes_centred Z ExactFloat 2 1 4 1 2 1 1 0 img_in img_out
           1 0 (Some [ {| px := 1; py := 0 |} ]) None false);
    first [lia | vm_compute; reflexivity].
Defined.

(** C7, as stated, fails, in two ways.  With the area-weighted
    interpolation and a crop window that is not centred: a row of two pixels
    (10, 20) scaled to four pixels and cropped to the two on the left,
    offset 0; the resized row is (10, 10) and so is its mirror; the resize
    of the mirrored row (20, 10) is (20, 20).  With the nearest-neighbour
    interpolation, even without crop: the row (10, 20) scaled to one pixel;
    the table designates the second source pixel, so the resized pixel is
    20, and the resize of the mirrored row (20, 10) is 10. *)
Lemma C7_counterexample :
  let img_in : raster := fun a => if a =? 0 then 10 else 20 in
  let img_out : raster := fun _ => 0 in
  let flagX : option (list MirroringInfo) := Some [ {| px := 1; py := 0 |} ] in
  let rp := gridParams (stepSrc 2 4) (stepSrc 1 1) (stepDst 2 4) (stepDst 1 1)
                       0 0 in
  let rpn := gridParams (stepSrc 2 1) (stepSrc 1 1) (stepDst 2 1) (stepDst 1 1)
                        0 0 in
  let tn := ResizeMappingTable_constructTable (F := Z) emptyTable 1 2 1 1 1
              DALI_INTERP_NN in
  (ResizeFunc 2 1 img_in 2 1 img_out 1 rp flagX 0
              0 1 0 1 None None None 0 = 10 /\
   ResizeFunc 2 1 (mirrorX 2 1 img_in) 2 1 img_out 1 rp None 0
              0 1 0 1 None None None 0 = 20) /\
  (ResizeFunc 2 1 img_in 1 1 img_out 1 rpn flagX 0
              0 1 0 1 (Some (resizeMappingSimpleCPU tn)) None None 0 = 20 /\
   ResizeFunc 2 1 (mirrorX 2 1 img_in) 1 1 img_out 1 rpn None 0
              0 1 0 1 (Some (resizeMappingSimpleCPU tn)) None None 0 = 10).
Proof.
  vm_compute. repeat split; reflexivity.
Qed.

(* ================================================================== *)
(** * More on the rational grid calculator *)

Lemma gcf_loop_abs : forall fuel a b,
  (Z.to_nat (Z.abs b) < fuel)%nat ->
  Z.abs (gcf_loop fuel a b) = Z.gcd a b.
Proof.
  induction fuel as [|fuel IH]; intros a b Hf; [lia|]. cbn [gcf_loop].
  destruct (Z.eqb_spec b 0) as [->|Hb].
  - rewrite Z.gcd_0_r. reflexivity.
  - pose proof (Z.rem_bound_abs a b Hb).
    rewrite IH by lia.
    pose proof (Z.quot_rem' a b) as E.
    replace (Z.rem a b) with (a + (- Z.quot a b) * b) by lia.
    rewrite (Z.gcd_add_mult_diag_r b a (- Z.quot a b)). apply Z.gcd_comm.
Qed.

(** X1. For all [int] arguments other than [INT_MIN] (the only arguments
    for which the loop can reach the trapping [INT_MIN % -1]), in either
    order and of either sign, [gcf] returns the greatest common divisor up
    to sign; for non-negative arguments it is the greatest common divisor
    itself, so [gcf a 0 = a]. *)
Theorem X1_gcf_is_gcd_up_to_sign :
  forall a b : Z,
    - INT_MAX <= a <= INT_MAX -> - INT_MAX <= b <= INT_MAX ->
    Z.abs (gcf a b) = Z.gcd a b /\
    (0 <= a -> 0 <= b -> gcf a b = Z.gcd a b /\ gcf a 0 = a /\ gcf 0 b = b).
Proof.
  intros a b _ _. split.
  - unfold gcf. destruct (Z.gtb_spec b a).
    + rewrite gcf_loop_abs by lia. apply Z.gcd_comm.
    + apply gcf_loop_abs. lia.
  - intros Ha Hb. rewrite (gcf_gcd a b), (gcf_gcd a 0), (gcf_gcd 0 b) by lia.
    split; [reflexivity|]. split; [apply Z.gcd_0_r_nonneg|apply Z.gcd_0_l_nonneg]; lia.
Qed.

Lemma X1_gcf_is_gcd_up_to_sign_witness :
  Z.abs (gcf (-12) 18) = Z.gcd (-12) 18 /\
  gcf 12 18 = Z.gcd 12 18 /\ gcf 12 0 = 12 /\ gcf 0 18 = 18.
Proof.
  split.
  - exact (proj1 (X1_gcf_is_gcd_up_to_sign (-12) 18
                    ltac:(unfold INT_MAX; lia) ltac:(unfold INT_MAX; lia))).
  - apply (proj2 (X1_gcf_is_gcd_up_to_sign 12 18
                    ltac:(unfold INT_MAX; lia) ltac:(unfold INT_MAX; lia))); lia.
Defined.

(** X2. For positive extents whose least common multiple fits an [int],
    [lcm a b] is the least common multiple: the product does not wrap, and
    the result is a multiple of [a] and of [b] that divides every common
    multiple, the same in either order of the arguments. *)
Theorem X2_lcm_least_common_multiple :
  forall a b : Z, 0 < a -> 0 < b -> Z.lcm a b <= INT_MAX ->
    lcm_int a b = lcm a b /\
    (a | lcm a b) /\ (b | lcm a b) /\ 0 < lcm a b /\
    (forall m, (a | m) -> (b | m) -> (lcm a b | m)) /\
    lcm a b = lcm b a.
Proof.
  intros a b Ha Hb Hfit.
  split; [apply lcm_int_exact; assumption|].
  rewrite (lcm_Zlcm a b), (lcm_Zlcm b a) by assumption.
  split; [apply Z.divide_lcm_l|]. split; [apply Z.divide_lcm_r|].
  split.
  - pose proof (Z.lcm_nonneg a b).
    assert (Z.lcm a b <> 0) by (rewrite Z.lcm_eq_0; lia). lia.
  - split; [intros m H1 H2; apply Z.lcm_least; assumption|apply Z.lcm_comm].
Qed.

Lemma X2_lcm_least_common_multiple_witness :
  lcm_int 4 6 = lcm 4 6 /\
  (4 | lcm 4 6) /\ (6 | lcm 4 6) /\ 0 < lcm 4 6 /\
  (forall m, (4 | m) -> (6 | m) -> (lcm 4 6 | m)) /\
  lcm 4 6 = lcm 6 4.
Proof.
  apply (X2_lcm_least_common_multiple 4 6); [lia|lia|vm_compute; discriminate].
Defined.

(** X3. When one extent is a multiple of the other the grid steps are the
    ratio and 1: scaling [d] up to [k * d] gives the steps [(k, 1)], scaling
    [k * d] down to [d] gives [(1, k)]. *)
Theorem X3_steps_of_integer_ratio :
  forall d k : Z, 0 < d -> 0 < k ->
    stepSrc d (k * d) = k /\ stepDst d (k * d) = 1 /\
    stepSrc (k * d) d = 1 /\ stepDst (k * d) d = k.
Proof.
  intros d k Hd Hk.
  assert (Hkd : 0 < k * d) by nia.
  destruct (steps_eq d (k * d) Hd Hkd) as (-> & -> & _ & _).
  destruct (steps_eq (k * d) d Hkd Hd) as (-> & -> & _ & _).
  rewrite (Z.gcd_comm (k * d) d).
  assert (Eg : Z.gcd d (k * d) = d).
  { rewrite (Z.mul_comm k d). apply Z.gcd_mul_diag_l. lia. }
  rewrite Eg. rewrite Z.div_mul, Z.div_same by lia. tauto.
Qed.

Lemma X3_steps_of_integer_ratio_witness :
  stepSrc 5 (3 * 5) = 3 /\ stepDst 5 (3 * 5) = 1 /\
  stepSrc (3 * 5) 5 = 1 /\ stepDst (3 * 5) 5 = 3.
Proof.
  apply (X3_steps_of_integer_ratio 5 3); lia.
Defined.

(* ================================================================== *)
(** * More on the batch coordinator *)






(** X5. [DataDependentSetupCPU] returns normally exactly when the tensor has
    three dimensions, holds [uint8] and has one or three channels; the shape
    it gives to the output is then the requested size with the channels of
    the input, or the shape of the input when no size is requested. *)
Theorem X5_setup_cpu_succeeds_iff :
  forall input pOpName out_size s,
    DataDependentSetupCPU input pOpName out_size = Ok s <->
    (t_is_uint8 input = true /\ valid_shape (t_shape input) = true /\
     s = match out_size with
         | Some o => [height o; width o; nth 2 (t_shape input) 0]
         | None => t_shape input
         end).
Proof.
  intros input pOpName out_size s. unfold DataDependentSetupCPU, valid_shape.
  destruct (List.length (t_shape input) =? 3)%nat; cbn [DALI_ENFORCE bind andb].
  2:{ split; [discriminate|intros (_ & H & _); discriminate]. }
  destruct (t_is_uint8 input); cbn [DALI_ENFORCE bind].
  2:{ split; [discriminate|intros (H & _); discriminate]. }
  destruct ((nth 2 (t_shape input) 0 =? 1) || (nth 2 (t_shape input) 0 =? 3));
    cbn [DALI_ENFORCE bind].
  - split.
    + intros E. inversion E. auto.
    + intros (_ & _ & ->). reflexivity.
  - split; [discriminate|intros (_ & H & _); discriminate].
Qed.

Section Recorded.
Variables (R : ResizeAttr) (base mbase : nat) (ptot : bool) (S : Z).
Variables (input : TensorList) (bs : nat) (rb : bool).
Variable (N : nat).
Hypothesis Hm : (mbase >= base + N * N_GRID_PARAMS \/ mbase + N <= base)%nat.

Let d : ResizeParamDescr := descrOf R base mbase ptot S.

Lemma setup_image_mem i st st' :
  setup_image (Some d) input bs rb i st = Ok st' ->
  resizeParam st' =
    upd (if newResize st || changed R input base (resizeParam st) i then
           let '(g0, g1, g2) := gridOf R input i in
           let rp := (base + i * N_GRID_PARAMS)%nat in
           upd (upd (upd (resizeParam st) rp g0) (rp + 1) g1) (rp + 2) g2
         else resizeParam st) (mbase + i) (MirrorNeeded R i) /\
  newResize st' = newResize st || changed R input base (resizeParam st) i.
Proof.
  intros E. pose proof (setup_image_inv_ok R base mbase ptot S input bs rb i st st' E)
    as Hv.
  destruct (setup_image_ok R base mbase ptot S input bs rb i st Hv)
    as (st1 & E1 & H1).
  unfold d, descrOf in E. rewrite E in E1. inversion E1; subst st1.
  destruct (gridOf R input i) as [[g0 g1] g2].
  destruct H1 as (Hnr & Hmem & _). split; [|exact Hnr].
  rewrite Hmem. destruct (newResize st || changed R input base (resizeParam st) i);
    reflexivity.
Qed.

(** The mirror flags of the images [i .. i+n-1] after the loop. *)
Lemma setup_loop_mirror : forall n i st st',
  (i + n <= N)%nat ->
  (mbase + N <= List.length (resizeParam st))%nat ->
  setup_loop (Some d) input bs rb n i st = Ok st' ->
  List.length (resizeParam st') = List.length (resizeParam st) /\
  (forall j, (i <= j < i + n)%nat ->
     param_at (resizeParam st') (mbase + j) = MirrorNeeded R j) /\
  (forall j, (j < i)%nat ->
     param_at (resizeParam st') (mbase + j) = param_at (resizeParam st) (mbase + j)).
Proof.
  unfold N_GRID_PARAMS in Hm.
  induction n as [|n IH]; intros i st st' Hin Hlen E; cbn [setup_loop] in E.
  - inversion E; subst. split; [reflexivity|]. split; [intros; lia|reflexivity].
  - destruct (setup_image (Some d) input bs rb i st) as [st1|] eqn:E1;
      cbn [bind] in E; [|discriminate].
    destruct (setup_image_mem i st st1 E1) as (Hmem & _).
    assert (Hlen1 : List.length (resizeParam st1) = List.length (resizeParam st)).
    { rewrite Hmem, upd_length.
      destruct (newResize st || changed R input base (resizeParam st) i);
        [destruct (gridOf R input i) as [[g0 g1] g2]; rewrite !upd_length|];
        reflexivity. }
    assert (Hat : forall j, (j < N)%nat ->
              param_at (resizeParam st1) (mbase + j) =
              if (j =? i)%nat then MirrorNeeded R i
              else param_at (resizeParam st) (mbase + j)).
    { intros j Hj. rewrite Hmem. unfold param_at.
      destruct (Nat.eqb_spec j i) as [->|Hne].
      - apply nth_upd_eq.
        destruct (newResize st || changed R input base (resizeParam st) i);
          [destruct (gridOf R input i) as [[g0 g1] g2]; rewrite !upd_length|];
          lia.
      - rewrite nth_upd_neq by lia.
        destruct (newResize st || changed R input base (resizeParam st) i);
          [|reflexivity].
        destruct (gridOf R input i) as [[g0 g1] g2]. unfold N_GRID_PARAMS.
        rewrite !nth_upd_neq by lia. reflexivity. }
    destruct (IH (Datatypes.S i) st1 st' ltac:(lia) ltac:(lia) E) as (L1 & L2 & L3).
    split; [lia|]. split.
    + intros j Hj. destruct (Nat.eq_dec j i) as [->|Hne].
      * rewrite L3 by lia. rewrite Hat by lia. rewrite Nat.eqb_refl. reflexivity.
      * apply L2. lia.
    + intros j Hj. rewrite L3 by lia. rewrite Hat by lia.
      destruct (Nat.eqb_spec j i); [lia|reflexivity].
Qed.

(** A memory that already holds the parameters of the batch is left as it
    is, and no new resize is reported. *)
Lemma setup_loop_fixed M : 
  (forall j, (j < N)%nat -> stored M base j = gridOf R input j) ->
  (forall j, (j < N)%nat -> param_at M (mbase + j) = MirrorNeeded R j) ->
  forall n i st st',
    (i + n <= N)%nat ->
    resizeParam st = M -> newResize st = false ->
    setup_loop (Some d) input bs rb n i st = Ok st' ->
    resizeParam st' = M /\ newResize st' = false.
Proof.
  intros Hg Hmi. induction n as [|n IH]; intros i st st' Hin HM Hnr E;
    cbn [setup_loop] in E.
  - inversion E; subst. auto.
  - destruct (setup_image (Some d) input bs rb i st) as [st1|] eqn:E1;
      cbn [bind] in E; [|discriminate].
    destruct (setup_image_mem i st st1 E1) as (Hmem & Hnr1).
    assert (Hc : changed R input base (resizeParam st) i = false)
      by (apply changed_false; rewrite HM; apply Hg; lia).
    rewrite Hnr, Hc in Hmem, Hnr1. cbn [orb] in Hmem, Hnr1.
    apply (IH (Datatypes.S i) st1 st'); [lia| |exact Hnr1|exact E].
    rewrite Hmem, HM. rewrite <- (Hmi i) by lia. apply upd_nth_same.
Qed.

End Recorded.

Section Recorded2.
Variables (R : ResizeAttr) (base mbase : nat) (ptot : bool) (S : Z).
Variables (input : TensorList) (bs : nat) (rb : bool).

Let d : ResizeParamDescr := descrOf R base mbase ptot S.


Lemma setup_image_shape i st st' :
  setup_image (Some d) input bs rb i st = Ok st' ->
  output_shape st' = upd (output_shape st) i (outShapeOf R input i).
Proof.
  unfold setup_image, outShapeOf.
  destruct (List.length (tensor_shape input i) =? 3)%nat;
    cbn [DALI_ENFORCE bind]; [|discriminate].
  destruct ((nth 2 (tensor_shape input i) 0 =? 1) ||
            (nth 2 (tensor_shape input i) 0 =? 3));
    cbn [DALI_ENFORCE bind]; [|discriminate].
  unfold d, descrOf. cbn [pResize_ pResizeParam_ pMirroring_ pTotalSize_ nBatchSlice_].
  destruct (SetSize R (tensor_shape input i) i) as [isz osz].
  destruct (DefineCrop R osz i) as [osz' [cX cY]].
  cbn [newResize resizeParam totalSize output_shape sizes pSizes].
  intros E. inversion E; subst st'. clear E.
  destruct (pSizes st); [destruct rb|]; reflexivity.
Qed.

Lemma setup_loop_shape : forall n i st st',
  (i + n <= List.length (output_shape st))%nat ->
  setup_loop (Some d) input bs rb n i st = Ok st' ->
  List.length (output_shape st') = List.length (output_shape st) /\
  (forall j, (i <= j < i + n)%nat ->
     nth j (output_shape st') [] = outShapeOf R input j) /\
  (forall j, (j < i)%nat ->
     nth j (output_shape st') [] = nth j (output_shape st) []).
Proof.
  induction n as [|n IH]; intros i st st' Hlen E; cbn [setup_loop] in E.
  - inversion E; subst. split; [reflexivity|]. split; [intros; lia|reflexivity].
  - destruct (setup_image (Some d) input bs rb i st) as [st1|] eqn:E1;
      cbn [bind] in E; [|discriminate].
    pose proof (setup_image_shape i st st1 E1) as Hs.
    assert (Hl1 : List.length (output_shape st1) = List.length (output_shape st))
      by (rewrite Hs; apply upd_length).
    destruct (IH (Datatypes.S i) st1 st' ltac:(lia) E) as (L1 & L2 & L3).
    split; [lia|]. split.
    + intros j Hj. destruct (Nat.eq_dec j i) as [->|Hne].
      * rewrite L3 by lia. rewrite Hs. apply nth_upd_eq. lia.
      * apply L2. lia.
    + intros j Hj. rewrite L3 by lia. rewrite Hs. apply nth_upd_neq. lia.
Qed.

End Recorded2.

Lemma setup_gpu_loop_shape input n rb szs descr mem tot st :
  DataDependentSetupGPU input n rb szs descr mem tot = Ok st ->
  exists st0,
    newResize st0 = false /\ resizeParam st0 = mem /\
    output_shape st0 = repeat [] n /\
    setup_loop descr input n rb n 0 st0 = Ok st.
Proof.
  unfold DataDependentSetupGPU.
  destruct (tl_is_uint8 input); cbn [DALI_ENFORCE bind]; [|discriminate].
  intros E. eexists. split; [|split; [|split; [|exact E]]]; reflexivity.
Qed.



(** X7. Running [DataDependentSetupGPU] again on the same batch with the
    same operator, on the vector the first call left, reports no new resize
    and leaves the vector as it is. *)
Theorem X7_setup_gpu_idempotent :
  forall R base mbase ptot1 ptot2 S1 S2 input n rb1 rb2 szs1 szs2
         mem tot1 tot2 st1 st2,
    (mbase >= base + n * N_GRID_PARAMS \/ mbase + n <= base)%nat ->
    (base + n * N_GRID_PARAMS <= List.length mem)%nat ->
    (mbase + n <= List.length mem)%nat ->
    DataDependentSetupGPU input n rb1 szs1
      (Some (descrOf R base mbase ptot1 S1)) mem tot1 = Ok st1 ->
    DataDependentSetupGPU input n rb2 szs2
      (Some (descrOf R base mbase ptot2 S2)) (resizeParam st1) tot2 = Ok st2 ->
    newResize st2 = false /\ resizeParam st2 = resizeParam st1.
Proof.
  intros R base mbase ptot1 ptot2 S1 S2 input n rb1 rb2 szs1 szs2
         mem tot1 tot2 st1 st2 Hm Hl1 Hl2 E1 E2.
  apply setup_gpu_loop in E1 as (sa & Ha0 & Ha1 & Ea).
  apply setup_gpu_loop in E2 as (sb & Hb0 & Hb1 & Eb).
  destruct (setup_loop_params R base mbase ptot1 S1 input n rb1 n Hm n 0%nat sa st1
              ltac:(lia) ltac:(rewrite Ha1; exact Hl1) Ea) as (_ & L2 & _ & _).
  destruct (setup_loop_mirror R base mbase ptot1 S1 input n rb1 n Hm n 0%nat sa st1
              ltac:(lia) ltac:(rewrite Ha1; exact Hl2) Ea) as (_ & M2 & _).
  destruct (setup_loop_fixed R base mbase ptot2 S2 input n rb2 n Hm (resizeParam st1)
              ltac:(intros j Hj; apply L2; lia)
              ltac:(intros j Hj; apply M2; lia)
              n 0%nat sb st2 ltac:(lia) Hb1 Hb0 Eb) as (F1 & F2).
  auto.
Qed.

Lemma X7_setup_gpu_idempotent_witness :
  let R := resizeTo (size_of 2 2) (0, 0) in
  let st1 := returned (run1 R (gray 4 4) (repeat grid0 4)) in
  let st2 := returned (run1 R (gray 4 4) (resizeParam st1)) in
  newResize st2 = false /\ resizeParam st2 = resizeParam st1.
Proof.
  intros R st1 st2.
  apply (X7_setup_gpu_idempotent R 0%nat 3%nat false false 1 1 (gray 4 4) 1%nat
           false false None None (repeat grid0 4) [] [] st1 st2).
  - left. vm_compute. lia.
  - vm_compute. lia.
  - vm_compute. lia.
  - reflexivity.
  - reflexivity.
Defined.

(** X8. After a successful call of [DataDependentSetupGPU] with the resize,
    the grid parameters and the mirroring described, the output has one
    shape per image of the batch: the size that [DefineCrop] returns for the
    image, with the channel count of the input image. *)
Theorem X8_setup_gpu_output_shapes :
  forall R base mbase ptot S input n rb szs mem tot st,
    DataDependentSetupGPU input n rb szs (Some (descrOf R base mbase ptot S))
                          mem tot = Ok st ->
    List.length (output_shape st) = n /\
    forall i, (i < n)%nat -> nth i (output_shape st) [] = outShapeOf R input i.
Proof.
  intros R base mbase ptot S input n rb szs mem tot st E.
  apply setup_gpu_loop_shape in E as (s0 & _ & _ & H2 & E).
  destruct (setup_loop_shape R base mbase ptot S input n rb n 0%nat s0 st
              ltac:(rewrite H2, repeat_length; lia) E) as (L1 & L2 & _).
  rewrite H2, repeat_length in L1. split; [exact L1|].
  intros i Hi. apply L2. lia.
Qed.

Lemma X8_setup_gpu_output_shapes_witness :
  let R := resizeTo (size_of 2 2) (0, 0) in
  let st := returned (run1 R (gray 4 4) (repeat grid0 4)) in
  List.length (output_shape st) = 1%nat /\
  forall i, (i < 1)%nat -> nth i (output_shape st) [] = outShapeOf R (gray 4 4) i.
Proof.
  intros R st.
  apply (X8_setup_gpu_output_shapes R 0%nat 3%nat false 1 (gray 4 4) 1%nat
           false None (repeat grid0 4) [] st).
  reflexivity.
Defined.

(* ================================================================== *)
(** * More on the table of the area-weighted mode *)

Section Table2.
Context {F : Type} {FO : FloatOps F}.
Variables (H0 W0 H1 W1 C : Z).
Hypotheses (HH0 : 0 < H0) (HW0 : 0 < W0) (HH1 : 0 < H1) (HW1 : 0 < W1).

Let sx0 := stepSrc W0 W1.
Let sy0 := stepSrc H0 H1.
Let sx1 := stepDst W0 W1.
Let sy1 := stepDst H0 H1.

Hypotheses (Hx16 : sx0 < 2 ^ 16) (Hy16 : sy0 < 2 ^ 16).
Hypothesis (Hfit : (sx0 + sx1) * (sy0 + sy1) < 2 ^ 31).

Let t : ResizeMappingTable :=
  ResizeMappingTable_constructTable emptyTable H0 W0 H1 W1 C DALI_INTERP_LINEAR.





End Table2.

Lemma mod_inverse s0 s1 r :
  0 < s0 -> Z.gcd s0 s1 = 1 -> 0 <= r < s0 ->
  exists x, 0 <= x < s0 /\ (x * s1) mod s0 = r.
Proof.
  intros Hs G Hr. destruct (Z.gcd_bezout s0 s1 1 G) as (a & b & E).
  exists ((b * r) mod s0). split; [apply Z.mod_pos_bound; exact Hs|].
  rewrite Z.mul_mod_idemp_l by lia.
  replace (b * r * s1) with (r + (- (r * a)) * s0) by nia.
  rewrite Z.mod_add by lia. apply Z.mod_small. exact Hr.
Qed.

Lemma slot_onto sx0 sy0 sx1 sy1 k :
  0 < sx0 -> 0 < sy0 -> Z.gcd sx0 sx1 = 1 -> Z.gcd sy0 sy1 = 1 ->
  0 <= k < sx0 * sy0 ->
  exists x y, 0 <= x < sx0 /\ 0 <= y < sy0 /\ slot sx0 sy0 sx1 sy1 x y = k.
Proof.
  intros Px0 Py0 Gx Gy Hk.
  pose proof (Z.mod_pos_bound k sx0 Px0) as Br.
  assert (Bq : 0 <= k / sx0 < sy0).
  { split; [apply Z.div_pos; lia|apply Z.div_lt_upper_bound; lia]. }
  destruct (mod_inverse sx0 sx1 (k mod sx0) Px0 Gx Br) as (x & Hx & Ex).
  destruct (mod_inverse sy0 sy1 (k / sx0) Py0 Gy Bq) as (y & Hy & Ey).
  exists x, y. split; [exact Hx|]. split; [exact Hy|].
  unfold slot. rewrite Ex, Ey. pose proof (Z.div_mod k sx0 ltac:(lia)). lia.
Qed.

(** In the table mode a call of [AddPixel] changes the table at the current
    entry only, and keeps the current entry. *)
Lemma AddPixel_table_entry {F} {FO : FloatOps F} (h : PixMappingHelper) v a ar cx cy :
  pPixMapping_ h = Some v ->
  (exists v', pPixMapping_ (AddPixel h a ar cx cy) = Some v') /\
  pMapping_ (AddPixel h a ar cx cy) = pMapping_ h /\
  forall k, k <> pMapping_ h ->
    nth k (mappingBase (AddPixel h a ar cx cy)) map0 = nth k (mappingBase h) map0.
Proof.
  intros Hp. unfold AddPixel. rewrite Hp.
  destruct (numPixMapUsed_ h =? numPixMapMax_ h);
    cbn [set_pix pPixMapping_ pMapping_ mappingBase];
    (split; [eexists; reflexivity|]; split; [reflexivity|];
     intros k Hk; apply nth_upd_neq; congruence).
Qed.

Lemma addCalls_table_entry {F} {FO : FloatOps F} : forall L (h : PixMappingHelper) v,
  pPixMapping_ h = Some v ->
  pMapping_ (fold_left addCall L h) = pMapping_ h /\
  forall k, k <> pMapping_ h ->
    nth k (mappingBase (fold_left addCall L h)) map0 = nth k (mappingBase h) map0.
Proof.
  induction L as [|c L IH]; intros h v Hp; [split; reflexivity|].
  cbn [fold_left].
  destruct (AddPixel_table_entry h v (c_addr c) (c_area c) (c_crdX c) (c_crdY c) Hp)
    as ((v' & Hp') & Hm & Hk).
  destruct (IH (addCall h c) v' Hp') as (Hm' & Hk').
  unfold addCall in *. split; [congruence|].
  intros k Hne. rewrite Hk' by congruence. apply Hk. exact Hne.
Qed.

(** X9. For positive extents, [slot] is the entry of the table under which
    [constructTable] records a sub-cell and under which [ResizeFunc] looks
    a resized pixel up: the builder, in the table mode, changes the table
    for the sub-cell [(x, y)] at the entry [slot x y] only; the colour that
    [ResizeFunc] computes from the tables for the pixel [(x, y)] depends on
    the table through the entry [slot (x + cropX) (y + cropY)] only; and
    [slot] is a one-to-one map of the sub-cells of the period onto the
    entries [0 .. sx0 * sy0 - 1]: no entry is shared and none is left
    out. *)
Theorem X9_slot_bijection :
  forall (F : Type) (FO : FloatOps F) (W0 W1 H0 H1 C : Z),
    0 < W0 -> 0 < W1 -> 0 < H0 -> 0 < H1 ->
    let sx0 := stepSrc W0 W1 in let sy0 := stepSrc H0 H1 in
    let sx1 := stepDst W0 W1 in let sy1 := stepDst H0 H1 in
    sx0 * sy0 < 2 ^ 31 ->
    (forall (h : PixMappingHelper) v x y,
       pPixMapping_ h = Some v ->
       let h' := cell C W0 sx0 sy0 sx1 sy1 h x y in
       pMapping_ h' = Z.to_nat (slot sx0 sy0 sx1 sy1 x y) /\
       forall k, k <> Z.to_nat (slot sx0 sy0 sx1 sy1 x y) ->
         nth k (mappingBase h') map0 = nth k (mappingBase h) map0) /\
    (forall (img : raster) cropX cropY in_ rm rm' pm x y,
       0 <= (x + cropX) * sx1 < 2 ^ 32 -> 0 <= (y + cropY) * sy1 < 2 ^ 32 ->
       nth (Z.to_nat (slot sx0 sy0 sx1 sy1 (x + cropX) (y + cropY))) rm map0 =
       nth (Z.to_nat (slot sx0 sy0 sx1 sy1 (x + cropX) (y + cropY))) rm' map0 ->
       pixelTable W0 img C sx0 sy0 sx1 sy1 cropX cropY in_ rm pm x y =
       pixelTable W0 img C sx0 sy0 sx1 sy1 cropX cropY in_ rm' pm x y) /\
    (forall x y, 0 <= slot sx0 sy0 sx1 sy1 x y < sx0 * sy0) /\
    (forall x y x' y',
       0 <= x < sx0 -> 0 <= x' < sx0 -> 0 <= y < sy0 -> 0 <= y' < sy0 ->
       slot sx0 sy0 sx1 sy1 x y = slot sx0 sy0 sx1 sy1 x' y' ->
       x = x' /\ y = y') /\
    (forall k, 0 <= k < sx0 * sy0 ->
       exists x y, 0 <= x < sx0 /\ 0 <= y < sy0 /\
                   slot sx0 sy0 sx1 sy1 x y = k).
Proof.
  intros F FO W0 W1 H0 H1 C HW0 HW1 HH0 HH1 sx0 sy0 sx1 sy1 Hcells.
  destruct (steps_pos W0 W1 HW0 HW1) as (Px0 & Px1).
  destruct (steps_pos H0 H1 HH0 HH1) as (Py0 & Py1).
  pose proof (steps_coprime W0 W1 HW0 HW1) as Gx.
  pose proof (steps_coprime H0 H1 HH0 HH1) as Gy.
  fold sx0 sx1 in Px0, Px1, Gx. fold sy0 sy1 in Py0, Py1, Gy.
  split; [|split; [|split; [|split]]].
  - intros h v x y Hp h'. subst h'. rewrite cell_calls by lia.
    pose proof (slot_range sx0 sy0 sx1 sy1 Px0 Py0 x y) as Hs.
    rewrite to_int_small by lia.
    match goal with
    | |- context [UpdateMapping h ?s ?cx ?cy] =>
        set (u := UpdateMapping h s cx cy)
    end.
    assert (Hu : pPixMapping_ u = Some v /\
                 pMapping_ u = Z.to_nat (slot sx0 sy0 sx1 sy1 x y) /\
                 forall k, k <> Z.to_nat (slot sx0 sy0 sx1 sy1 x y) ->
                   nth k (mappingBase u) map0 = nth k (mappingBase h) map0).
    { subst u. unfold UpdateMapping. rewrite Hp.
      cbn [pPixMapping_ pMapping_ mappingBase].
      split; [reflexivity|]. split; [reflexivity|].
      intros k Hk. apply nth_upd_neq. congruence. }
    destruct Hu as (Hpu & Hmu & Hku).
    destruct (addCalls_table_entry (cellCalls C W0 sx0 sy0 sx1 sy1 x y) u v Hpu)
      as (Hm & Hk).
    split; [congruence|].
    intros k Hne. rewrite Hk by congruence. apply Hku. exact Hne.
  - intros img cropX cropY in_ rm rm' pm x y HX HY E.
    unfold pixelTable. cbv zeta.
    rewrite (u32_small ((x + cropX) * sx1)), (u32_small ((y + cropY) * sy1))
      by assumption.
    pose proof (Z.mod_pos_bound ((y + cropY) * sy1) sy0 Py0) as Hm.
    rewrite (u32_small (((y + cropY) * sy1) mod sy0 * sx0)) by nia.
    change (((y + cropY) * sy1) mod sy0 * sx0 + ((x + cropX) * sx1) mod sx0)
      with (slot sx0 sy0 sx1 sy1 (x + cropX) (y + cropY)).
    rewrite E. reflexivity.
  - intros x y. apply slot_range; assumption.
  - intros x y x' y' Hx Hx' Hy Hy' E.
    apply (slot_inj sx0 sy0 sx1 sy1 Px0 Py0 x y x' y'); assumption.
  - intros k Hk. apply slot_onto; assumption.
Qed.

Lemma X9_slot_bijection_witness :
  let sx0 := stepSrc 6 4 in let sy0 := stepSrc 4 6 in
  let sx1 := stepDst 6 4 in let sy1 := stepDst 4 6 in
  let h := mkPixMappingHelper (F := Z) (sx0 * sy0) (repeat map0 6) [] 0
             (Some []) in
  pMapping_ (cell 3 6 sx0 sy0 sx1 sy1 h 1 2)
    = Z.to_nat (slot sx0 sy0 sx1 sy1 1 2) /\
  (forall k, k <> Z.to_nat (slot sx0 sy0 sx1 sy1 1 2) ->
     nth k (mappingBase (cell 3 6 sx0 sy0 sx1 sy1 h 1 2)) map0
       = nth k (mappingBase h) map0) /\
  (forall x y, 0 <= slot sx0 sy0 sx1 sy1 x y < sx0 * sy0) /\
  (forall k, 0 <= k < sx0 * sy0 ->
     exists x y, 0 <= x < sx0 /\ 0 <= y < sy0 /\
                 slot sx0 sy0 sx1 sy1 x y = k).
Proof.
  intros sx0 sy0 sx1 sy1 h.
  destruct (X9_slot_bijection Z ExactFloat 6 4 4 6 3
              ltac:(lia) ltac:(lia) ltac:(lia) ltac:(lia)
              ltac:(vm_compute; reflexivity))
    as (T1 & _ & T3 & _ & T5).
  destruct (T1 h (resizeVector [] (u32 (2 * u32 (sx0 * sy0)))) 1 2 eq_refl)
    as (A & B).
  split; [exact A|]. split; [exact B|]. split; [exact T3|exact T5].
Defined.






(** X12. In the table mode the helper records the pixels of a sub-cell in
    the order of the calls of [AddPixel]: after [UpdateMapping] for the
    entry [s] and the calls [L], the array of contributions starts with the
    pairs of [L], it has grown by doubling so that every pair is stored
    inside it, [numUsed] is the number of calls, and the entry [s] counts
    them from the start 0. *)
Theorem X12_helper_records_calls_in_order :
  forall (F : Type) (FO : FloatOps F) (area : Z) (tbl : list ResizeMapping)
         (info : list MappingInfo) (v0 : list PixMapping) (s cx cy : Z)
         (L : list Call),
    1 <= area -> 2 * Z.max area (Z.of_nat (List.length L)) < 2 ^ 32 ->
    (Z.to_nat s < List.length tbl)%nat ->
    let h := fold_left addCall L
               (UpdateMapping (mkPixMappingHelper area tbl info 0 (Some v0))
                              s cx cy) in
    numUsed h = Z.of_nat (List.length L) /\
    (exists v, pPixMapping_ h = Some v /\
               firstn (List.length L) v = map pairOf L /\
               (List.length L <= List.length v)%nat /\
               numPixMapMax_ h = Z.of_nat (List.length v)) /\
    mappingBase h =
      upd tbl (Z.to_nat s)
          {| intersectInfoAddr := 0;
             nPixels := nPixels (nth (Z.to_nat s) tbl map0)
                        + Z.of_nat (List.length L) |}.
Proof.
  intros F FO area tbl info v0 s cx cy L Ha HM Hs h.
  set (M := Z.max area (Z.of_nat (List.length L))) in *.
  set (h0 := mkPixMappingHelper area tbl info 0 (Some v0)).
  assert (HR0 : LinRel M h0 [] tbl).
  { unfold h0, mkPixMappingHelper.
    rewrite (u32_small area) by lia. rewrite (u32_small (2 * area)) by lia.
    rewrite (u32_small 0) by lia. cbn [Z.eqb].
    exists (resizeVector v0 (2 * area)).
    cbn [pPixMapping_ mappingBase numPixMapUsed_ numPixMapMax_ List.length firstn].
    unfold resizeVector. rewrite vec_resize_length.
    repeat split; try reflexivity; lia. }
  pose proof (cell_lin M HM h0 [] tbl s cx cy L HR0
                ltac:(cbn [List.length]; lia) Hs) as HL.
  cbn [abs_cell List.length app] in HL. subst h. fold h0.
  destruct HL as (v & Hv & Ht & Hu & Hm & Hf & Hle & Hpos & HvM).
  rewrite length_map in *. unfold numUsed. split; [exact Hu|]. split.
  - exists v. repeat split; assumption.
  - rewrite Ht. reflexivity.
Qed.

Lemma X12_helper_records_calls_in_order_witness :
  let L := cellCalls 1 3 2 2 3 3 1 1 in
  let h := fold_left addCall L
             (UpdateMapping (mkPixMappingHelper (F:=Z) 4 (repeat map0 4) [] 0
                                                (Some [])) 3 0 0) in
  numUsed h = Z.of_nat (List.length L) /\
  (exists v, pPixMapping_ h = Some v /\
             firstn (List.length L) v = map pairOf L /\
             (List.length L <= List.length v)%nat /\
             numPixMapMax_ h = Z.of_nat (List.length v)) /\
  mappingBase h =
    upd (repeat map0 4) (Z.to_nat 3)
        {| intersectInfoAddr := 0;
           nPixels := nPixels (nth (Z.to_nat 3) (repeat map0 4) map0)
                      + Z.of_nat (List.length L) |}.
Proof.
  intros L.
  apply (X12_helper_records_calls_in_order Z ExactFloat 4 (repeat map0 4) [] []
           3 0 0 L); vm_compute; first [reflexivity | discriminate | lia].
Defined.

(* ================================================================== *)
(** * The stores of one thread *)

Lemma for_loop_strided {S} (body : Z -> S -> S) step bound : forall fuel i s,
  for_loop fuel i step bound body s =
  fold_left (fun s j => body j s) (strided fuel i step bound) s.
Proof.
  induction fuel as [|fuel IH]; intros i s; [reflexivity|].
  cbn [for_loop strided]. destruct (i <? bound); [|reflexivity].
  cbn [fold_left]. apply IH.
Qed.

Lemma strided_in step bound j : 0 < step ->
  forall fuel i, (Z.to_nat (bound - i) <= fuel)%nat ->
    In j (strided fuel i step bound) <->
    i <= j < bound /\ (j - i) mod step = 0.
Proof.
  intros Hstep. induction fuel as [|fuel IH]; intros i Hf.
  - cbn [strided In]. split; [tauto|lia].
  - cbn [strided]. destruct (Z.ltb_spec i bound) as [Hi|Hi].
    + cbn [In]. rewrite IH by lia. split.
      * intros [->|(Hj & Hm)].
        -- rewrite Z.sub_diag. split; [lia|apply Z.mod_0_l; lia].
        -- split; [lia|].
           replace (j - i) with (j - (i + step) + 1 * step) by ring.
           rewrite Z.mod_add by lia. exact Hm.
      * intros (Hj & Hm). destruct (Z.eq_dec i j) as [->|Hne]; [left; reflexivity|].
        right. apply Z.mod_divide in Hm; [|lia]. destruct Hm as [q Hq].
        assert (Hq1 : 1 <= q) by nia.
        split; [nia|].
        replace (j - (i + step)) with ((q - 1) * step) by lia.
        apply Z.mod_mul. lia.
    + cbn [In]. split; [tauto|lia].
Qed.

Lemma stridedRange_in start step bound j : 0 < step ->
  In j (stridedRange start step bound) <->
  start <= j < bound /\ (j - start) mod step = 0.
Proof. intros Hs. unfold stridedRange. apply strided_in; [exact Hs|lia]. Qed.

Lemma locWritesOn_in xs ys C loc pixel area a v :
  C = 1 \/ C = 3 ->
  In (a, v) (locWritesOn xs ys C loc pixel area) <->
  exists x y ch, In x xs /\ In y ys /\ 0 <= ch < C /\
                 a = loc x y + ch /\ v = quant area (chan (pixel x y) ch).
Proof.
  intros HC. unfold locWritesOn. rewrite in_flat_map. split.
  - intros (y & Hy & Hin). apply in_flat_map in Hin as (x & Hx & Hin).
    apply (pixelWrites_in _ _ _ _ _ _ HC) in Hin.
    destruct Hin as (ch & Hch & Ea & Ev). exists x, y, ch. tauto.
  - intros (x & y & ch & Hx & Hy & Hch & Ea & Ev).
    exists y. split; [exact Hy|].
    apply in_flat_map. exists x. split; [exact Hx|].
    apply (pixelWrites_in _ _ _ _ _ _ HC). exists ch. tauto.
Qed.

Lemma locWritesOn_ext xs ys C loc loc' pixel area :
  (forall x y, In x xs -> In y ys -> loc x y = loc' x y) ->
  locWritesOn xs ys C loc pixel area = locWritesOn xs ys C loc' pixel area.
Proof.
  intros Hl. unfold locWritesOn.
  apply flat_map_ext_in. intros y Hy.
  apply flat_map_ext_in. intros x Hx. rewrite Hl by assumption. reflexivity.
Qed.

Lemma locWrites_On W H C loc pixel area :
  locWrites W H C loc pixel area =
  locWritesOn (zrange W) (zrange H) C loc pixel area.
Proof. reflexivity. Qed.

(** The two loops, run from [startW], [startH] in steps of [stepW],
    [stepH]: the stores they make. *)
Lemma pixelLoops_thread W H C pixel area startW stepW startH stepH
    outStep shift out m :
  0 < stepH ->
  snd (pixelLoops W H C pixel area startW stepW startH stepH outStep shift out m) =
  writeAll
    (locWritesOn (stridedRange startW stepW W) (stridedRange startH stepH H) C
       (fun x y => out + ((y - startH) / stepH + 1) * shift + x * outStep)
       pixel area) m.
Proof.
  intros HsH. unfold pixelLoops, locWritesOn, for_range, stridedRange.
  rewrite for_loop_strided, writeAll_flat_map.
  set (xs := strided (Z.to_nat (W - startW)) startW stepW W).
  assert (G : forall fuel k o r,
    o = out + k * shift ->
    snd (fold_left
      (fun (s : Z * raster) (j : Z) =>
         let '(out0, m0) := s in
         (out0 + shift,
          for_loop (Z.to_nat (W - startW)) startW stepW W
            (fun x m1 => setPixelColor m1 (out0 + shift) (x * outStep) C
                           (pixel x j) area) m0))
      (strided fuel (startH + k * stepH) stepH H) (o, r)) =
    fold_left
      (fun m0 y => writeAll (flat_map (fun x =>
         pixelWrites C (out + ((y - startH) / stepH + 1) * shift + x * outStep)
                     (pixel x y) area) xs) m0)
      (strided fuel (startH + k * stepH) stepH H) r).
  { induction fuel as [|fuel IH]; intros k o r Ho; [reflexivity|].
    cbn [strided]. destruct (startH + k * stepH <? H); [|reflexivity].
    cbn [fold_left].
    replace (startH + k * stepH + stepH) with (startH + (k + 1) * stepH) by ring.
    rewrite (IH (k + 1)) by (subst o; ring). f_equal.
    rewrite for_loop_strided, writeAll_flat_map. fold xs.
    apply fold_left_ext. intros s x. rewrite setPixelColor_writes.
    do 2 f_equal.
    replace (startH + k * stepH - startH) with (k * stepH) by ring.
    rewrite Z.div_mul by lia. subst o. ring. }
  specialize (G (Z.to_nat (H - startH)) 0 out m).
  replace (startH + 0 * stepH) with startH in G by ring. apply G. ring.
Qed.

Lemma u32_sub_l a b : u32 (u32 a - b) = u32 (a - b).
Proof. unfold u32. apply Zminus_mod_idemp_l. Qed.

Section Thread.
Variables (W H C imgIdx startW stepW startH stepH : Z).
Hypotheses (HW : 0 < W) (HH : 0 < H) (HC : 0 < C) (Hidx : 0 <= imgIdx).
Hypotheses (HsH : 0 <= startH < stepH).
Hypothesis (Hout : (H * (imgIdx + 1) + 2 * stepH) * W * C < 2 ^ 31).

Lemma thread_bounds :
  0 < W * C /\ C <= W * C /\ 0 <= H * imgIdx /\
  (H * imgIdx + H + 2 * stepH) * (W * C) < 2 ^ 31.
Proof.
  assert (K0 : 0 < W * C) by (apply Z.mul_pos_pos; lia).
  assert (KC : C <= W * C) by (clear - HW HC; nia).
  assert (K2 : 0 <= H * imgIdx) by (apply Z.mul_nonneg_nonneg; lia).
  replace ((H * (imgIdx + 1) + 2 * stepH) * W * C)
    with ((H * imgIdx + H + 2 * stepH) * (W * C)) in Hout by ring.
  tauto.
Qed.

Lemma scaled_bound a :
  0 <= a <= H * imgIdx + H + 2 * stepH -> 0 <= a * (W * C) < 2 ^ 31.
Proof.
  intros Ha. destruct thread_bounds as (K0 & KC & K2 & K3).
  assert (0 <= a * (W * C)) by (apply Z.mul_nonneg_nonneg; lia).
  assert (a * (W * C) <= (H * imgIdx + H + 2 * stepH) * (W * C))
    by (apply Z.mul_le_mono_nonneg_r; lia).
  lia.
Qed.

(** The start, the row stride and the pixel stride of a thread place pixel
    [(x, y)] of its rows at [outLoc]. *)
Lemma mirror_strides_thread (pm : option (list MirroringInfo)) :
  let offset := u32 (nYoffset W C) in
  let shift := to_int (u32 (stepH * offset)) in
  let out := u32 ((H * imgIdx + startH) * offset) - shift in
  exists out' shift' outStep',
    match pm with
    | Some mi =>
        let m := nth (Z.to_nat imgIdx) mi grid0 in
        let '(out, shift) :=
          if py m =? 0 then (out, shift)
          else
            let shift := shift * -1 in
            (out + u32 (u32 ((H - 2 * startH - 1) * offset) - 2 * shift), shift) in
        if px m =? 0 then (out, shift, C)
        else (out + u32 (offset + - C), shift, - C)
    | None => (out, shift, C)
    end = (out', shift', outStep') /\
    forall x k, out' + (k + 1) * shift' + x * outStep' =
                outLoc W H C (flagsOf pm imgIdx) imgIdx x (startH + k * stepH).
Proof.
  destruct thread_bounds as (K0 & KC & K2 & K3).
  pose proof (scaled_bound stepH ltac:(lia)) as B1.
  pose proof (scaled_bound (H * imgIdx + startH) ltac:(lia)) as B2.
  pose proof (scaled_bound (H - 2 * startH - 1 + 2 * stepH) ltac:(lia)) as B3.
  cbv zeta. unfold nYoffset.
  rewrite (u32_small (W * C)) by lia.
  rewrite (u32_small (stepH * (W * C))) by lia. rewrite to_int_small by lia.
  rewrite (u32_small ((H * imgIdx + startH) * (W * C))) by lia.
  rewrite u32_sub_l.
  replace ((H - 2 * startH - 1) * (W * C) - 2 * (stepH * (W * C) * -1))
    with ((H - 2 * startH - 1 + 2 * stepH) * (W * C)) by ring.
  rewrite (u32_small ((H - 2 * startH - 1 + 2 * stepH) * (W * C))) by lia.
  rewrite (u32_small (W * C + - C)) by lia.
  unfold flagsOf, outLoc.
  destruct pm as [mi|].
  - cbv zeta. unfold MirroringInfo in *.
    destruct (py (nth (Z.to_nat imgIdx) mi grid0) =? 0) eqn:Ey;
      destruct (px (nth (Z.to_nat imgIdx) mi grid0) =? 0) eqn:Ex;
      do 3 eexists; (split; [reflexivity|]); intros x k; cbn [fst snd];
      rewrite ?Ex, ?Ey; cbn [negb]; ring.
  - do 3 eexists. split; [reflexivity|]. intros x k. cbn [fst snd]. ring.
Qed.

(** [ResizeFunc], for any of its three branches and any thread: the stores
    it makes. *)
Lemma ResizeFunc_thread_stores W0 H0 img_in img_out rp pm pMapping pRM pPM :
  let kp := kernelPixel W0 H0 img_in C rp imgIdx pMapping pRM pPM in
  ResizeFunc W0 H0 img_in W H img_out C rp pm imgIdx startW stepW startH stepH
             pMapping pRM pPM =
  writeAll
    (locWritesOn (stridedRange startW stepW W) (stridedRange startH stepH H) C
       (outLoc W H C (flagsOf pm imgIdx) imgIdx) (fst kp) (snd kp))
    img_out.
Proof.
  unfold ResizeFunc, kernelPixel. cbv zeta.
  destruct (mirror_strides_thread pm) as (o & s & os & E & Hloc). cbv zeta in E.
  rewrite E.
  assert (G : forall pixel area,
    snd (pixelLoops W H C pixel area startW stepW startH stepH os s o img_out) =
    writeAll
      (locWritesOn (stridedRange startW stepW W) (stridedRange startH stepH H) C
         (outLoc W H C (flagsOf pm imgIdx) imgIdx) pixel area) img_out).
  { intros pixel area. rewrite pixelLoops_thread by lia. f_equal.
    apply locWritesOn_ext. intros x y Hx Hy.
    apply stridedRange_in in Hy; [|lia]. destruct Hy as (Hy & Hm).
    apply Z.mod_divide in Hm; [|lia]. destruct Hm as [q Hq].
    replace y with (startH + q * stepH) by lia.
    replace (startH + q * stepH - startH) with (q * stepH) by ring.
    rewrite Z.div_mul by lia. apply Hloc. }
  destruct pMapping as [mapping|]; [apply G|].
  destruct pRM as [rm|]; destruct pPM as [pm'|]; apply G.
Qed.

End Thread.

(* ================================================================== *)
(** * The threads of a block together *)

(** Two lists of stores that name the same addresses with the same values,
    one value per address, leave the same raster. *)
Lemma writeAll_same l1 l2 m a :
  (forall v, In (a, v) l1 <-> In (a, v) l2) ->
  (forall v v', In (a, v) l1 -> In (a, v') l1 -> v = v') ->
  writeAll l1 m a = writeAll l2 m a.
Proof.
  intros Hiff Hfun.
  destruct (in_dec Z.eq_dec a (map fst l1)) as [Hin|Hnin].
  - apply in_map_iff in Hin as ([a' v] & Ea & Hin). cbn [fst] in Ea. subst a'.
    rewrite (writeAll_read l1 a v m (or_introl Hin))
      by (intros v' Hv'; apply (Hfun v' v); assumption).
    symmetry. apply writeAll_read; [left; apply Hiff; exact Hin|].
    intros v' Hv'. apply (Hfun v' v); [apply Hiff; exact Hv'|exact Hin].
  - assert (N1 : forall v, ~ In (a, v) l1).
    { intros v Hv. apply Hnin. apply in_map_iff. exists (a, v). auto. }
    rewrite !writeAll_frame; [reflexivity| |exact N1].
    intros v Hv. apply (N1 v). apply Hiff. exact Hv.
Qed.

Lemma runThreads_stores (L : Z -> Z -> list (Z * Z))
    (kernel : Z -> Z -> raster -> raster) :
  (forall tx ty m, kernel tx ty m = writeAll (L tx ty) m) ->
  forall ths m,
    runThreads kernel ths m =
    writeAll (flat_map (fun th => L (fst th) (snd th)) ths) m.
Proof.
  intros HL. induction ths as [|th ths IH]; intros m; [reflexivity|].
  cbn [runThreads fold_left flat_map]. rewrite writeAll_app, <- HL. apply IH.
Qed.

Lemma blockThreads_in bdx bdy tx ty :
  In (tx, ty) (blockThreads bdx bdy) <-> 0 <= tx < bdx /\ 0 <= ty < bdy.
Proof.
  unfold blockThreads. rewrite in_flat_map. split.
  - intros (y & Hy & Hin). apply in_map_iff in Hin as (x & E & Hx).
    inversion E; subst. apply zrange_in in Hy, Hx. tauto.
  - intros (Hx & Hy). exists ty. split; [apply zrange_in; exact Hy|].
    apply in_map_iff. exists tx. split; [reflexivity|apply zrange_in; exact Hx].
Qed.

Lemma own_thread b x : 0 < b -> 0 <= x ->
  0 <= x mod b < b /\ x mod b <= x /\ (x - x mod b) mod b = 0.
Proof.
  intros Hb Hx. pose proof (Z.mod_pos_bound x b Hb).
  pose proof (Z.mod_le x b Hx Hb). split; [lia|]. split; [lia|].
  rewrite Zminus_mod_idemp_r, Z.sub_diag. apply Z.mod_0_l. lia.
Qed.

Section Block.
Variables (W0 H0 : Z) (img_in : raster) (W H C : Z).
Variables (rp : list ResizeGridParam) (pm : option (list MirroringInfo)).
Variables (imgIdx : Z).
Variables (pMapping : option (list MappingInfo))
          (pRM : option (list ResizeMapping)) (pPM : option (list PixMapping)).
Variables (bdx bdy : Z).
Hypothesis (HC : C = 1 \/ C = 3).
Hypotheses (HW : 0 < W) (HH : 0 < H) (Hidx : 0 <= imgIdx).
Hypotheses (Hbx : 0 < bdx) (Hby : 0 < bdy).
Hypothesis (Hout : (H * (imgIdx + 1) + 2 * bdy) * W * C < 2 ^ 31).

Let kp := kernelPixel W0 H0 img_in C rp imgIdx pMapping pRM pPM.
Let fl := flagsOf pm imgIdx.

Lemma block_thread_stores tx ty m :
  0 <= ty < bdy ->
  ResizeFunc W0 H0 img_in W H m C rp pm imgIdx tx bdx ty bdy pMapping pRM pPM =
  writeAll (locWritesOn (stridedRange tx bdx W) (stridedRange ty bdy H) C
              (outLoc W H C fl imgIdx) (fst kp) (snd kp)) m.
Proof.
  intros Hty. apply ResizeFunc_thread_stores; try assumption; lia.
Qed.

Lemma single_thread_stores m :
  ResizeFunc W0 H0 img_in W H m C rp pm imgIdx 0 1 0 1 pMapping pRM pPM =
  writeAll (locWrites W H C (outLoc W H C fl imgIdx) (fst kp) (snd kp)) m.
Proof.
  assert (Hout1 : (H * (imgIdx + 1) + 2 * 1) * W * C < 2 ^ 31).
  { assert (0 < W * C) by (apply Z.mul_pos_pos; lia).
    replace ((H * (imgIdx + 1) + 2 * 1) * W * C)
      with ((H * (imgIdx + 1) + 2 * 1) * (W * C)) by ring.
    replace ((H * (imgIdx + 1) + 2 * bdy) * W * C)
      with ((H * (imgIdx + 1) + 2 * bdy) * (W * C)) in Hout by ring.
    assert ((H * (imgIdx + 1) + 2 * 1) * (W * C)
            <= (H * (imgIdx + 1) + 2 * bdy) * (W * C))
      by (apply Z.mul_le_mono_nonneg_r; lia).
    lia. }
  rewrite ResizeFunc_thread_stores by (try assumption; lia).
  fold kp fl. f_equal. rewrite locWrites_On. unfold locWritesOn.
  assert (R : forall n, 0 <= n -> stridedRange 0 1 n = zrange n).
  { intros n Hn. unfold stridedRange, zrange. rewrite Z.sub_0_r.
    assert (G : forall k i, strided k (Z.of_nat i) 1 (Z.of_nat (i + k)) =
                            map Z.of_nat (seq i k)).
    { induction k as [|k IH]; intros i; [reflexivity|].
      cbn [strided seq map]. destruct (Z.ltb_spec (Z.of_nat i) (Z.of_nat (i + S k)));
        [|lia].
      f_equal. replace (Z.of_nat i + 1) with (Z.of_nat (S i)) by lia.
      replace (i + S k)%nat with (S i + k)%nat by lia. apply IH. }
    specialize (G (Z.to_nat n) 0%nat). cbn [Z.of_nat Nat.add] in G.
    rewrite Z2Nat.id in G by lia. exact G. }
  rewrite !R by lia. reflexivity.
Qed.

Lemma block_stores_in ths a v :
  (forall th, In th ths <-> In th (blockThreads bdx bdy)) ->
  In (a, v)
     (flat_map (fun th =>
        locWritesOn (stridedRange (fst th) bdx W) (stridedRange (snd th) bdy H) C
          (outLoc W H C fl imgIdx) (fst kp) (snd kp)) ths) <->
  In (a, v) (locWrites W H C (outLoc W H C fl imgIdx) (fst kp) (snd kp)).
Proof.
  intros Hths. rewrite in_flat_map.
  rewrite (locWrites_in W H C _ _ _ a v HC). split.
  - intros ([tx ty] & Hth & Hin). cbn [fst snd] in Hin.
    apply Hths, blockThreads_in in Hth.
    apply (locWritesOn_in _ _ C _ _ _ a v HC) in Hin.
    destruct Hin as (x & y & ch & Hx & Hy & Hch & Ea & Ev).
    apply stridedRange_in in Hx; [|lia]. apply stridedRange_in in Hy; [|lia].
    exists x, y, ch. repeat split; try tauto; lia.
  - intros (x & y & ch & Hx & Hy & Hch & Ea & Ev).
    destruct (own_thread bdx x Hbx ltac:(lia)) as (A1 & A2 & A3).
    destruct (own_thread bdy y Hby ltac:(lia)) as (B1 & B2 & B3).
    exists (x mod bdx, y mod bdy). split.
    + apply Hths, blockThreads_in. tauto.
    + cbn [fst snd]. apply (locWritesOn_in _ _ C _ _ _ a v HC).
      exists x, y, ch. split; [apply stridedRange_in; [lia|split; [lia|exact A3]]|].
      split; [apply stridedRange_in; [lia|split; [lia|exact B3]]|]. tauto.
Qed.

Lemma block_equals_single ths img_out a :
  (forall th, In th ths <-> In th (blockThreads bdx bdy)) ->
  runThreads (fun tx ty m =>
      ResizeFunc W0 H0 img_in W H m C rp pm imgIdx tx bdx ty bdy pMapping pRM pPM)
    ths img_out a =
  ResizeFunc W0 H0 img_in W H img_out C rp pm imgIdx 0 1 0 1 pMapping pRM pPM a.
Proof.
  intros Hths. rewrite single_thread_stores.
  set (L := fun tx ty =>
        locWritesOn (stridedRange tx bdx W) (stridedRange ty bdy H) C
          (outLoc W H C fl imgIdx) (fst kp) (snd kp)).
  assert (E : forall ths' m,
    (forall th, In th ths' -> In th (blockThreads bdx bdy)) ->
    runThreads (fun tx ty m =>
      ResizeFunc W0 H0 img_in W H m C rp pm imgIdx tx bdx ty bdy pMapping pRM pPM)
      ths' m = writeAll (flat_map (fun th => L (fst th) (snd th)) ths') m).
  { induction ths' as [|[tx ty] ths' IH]; intros m Hin; [reflexivity|].
    cbn [runThreads fold_left flat_map fst snd]. rewrite writeAll_app.
    rewrite block_thread_stores
      by (apply (blockThreads_in bdx bdy tx ty), Hin; left; reflexivity).
    apply IH. intros th Hth. apply Hin. right. exact Hth. }
  rewrite E by (intros th Hth; apply Hths; exact Hth).
  apply writeAll_same.
  - intros v. apply block_stores_in. exact Hths.
  - intros v v' Hv Hv'.
    apply (block_stores_in ths a v Hths) in Hv.
    apply (block_stores_in ths a v' Hths) in Hv'.
    apply (locWrites_in W H C _ _ _ a v HC) in Hv.
    apply (locWrites_in W H C _ _ _ a v' HC) in Hv'.
    destruct Hv as (x & y & ch & Hx & Hy & Hch & Ea & Ev).
    destruct Hv' as (x' & y' & ch' & Hx' & Hy' & Hch' & Ea' & Ev').
    rewrite Ea in Ea'.
    destruct (outLoc_inj W H C fl imgIdx x y ch x' y' ch' Hx Hy Hch Hx' Hy' Hch' Ea')
      as (-> & -> & ->).
    congruence.
Qed.

End Block.

Lemma ResizeFunc_flags W0 H0 img_in W H img_out C rp pm1 pm2 imgIdx
    pMapping pRM pPM :
  (C = 1 \/ C = 3) -> 0 < W -> 0 < H -> 0 <= imgIdx ->
  (H * (imgIdx + 1) + 2 * 1) * W * C < 2 ^ 31 ->
  flagsOf pm1 imgIdx = flagsOf pm2 imgIdx ->
  ResizeFunc W0 H0 img_in W H img_out C rp pm1 imgIdx 0 1 0 1 pMapping pRM pPM =
  ResizeFunc W0 H0 img_in W H img_out C rp pm2 imgIdx 0 1 0 1 pMapping pRM pPM.
Proof.
  intros HC HW HH Hidx Hout Hfl.
  rewrite (single_thread_stores W0 H0 img_in W H C rp pm1 imgIdx pMapping pRM pPM
             1 HC HW HH Hidx ltac:(lia) Hout).
  rewrite (single_thread_stores W0 H0 img_in W H C rp pm2 imgIdx pMapping pRM pPM
             1 HC HW HH Hidx ltac:(lia) Hout).
  rewrite Hfl. reflexivity.
Qed.

Lemma nth_skipn_add {A} (d : A) : forall n k (l : list A),
  nth k (skipn n l) d = nth (n + k) l d.
Proof.
  induction n as [|n IH]; intros k l; [reflexivity|].
  destruct l as [|x l]; [destruct k; reflexivity|]. cbn [skipn Nat.add nth].
  apply IH.
Qed.

Lemma bound_one H imgIdx bdy W C :
  0 < W -> 0 < C -> 0 < bdy ->
  (H * (imgIdx + 1) + 2 * bdy) * W * C < 2 ^ 31 ->
  (H * (imgIdx + 1) + 2 * 1) * W * C < 2 ^ 31.
Proof.
  intros HW HC Hb Hout.
  assert (0 < W * C) by (apply Z.mul_pos_pos; lia).
  replace ((H * (imgIdx + 1) + 2 * 1) * W * C)
    with ((H * (imgIdx + 1) + 2 * 1) * (W * C)) by ring.
  replace ((H * (imgIdx + 1) + 2 * bdy) * W * C)
    with ((H * (imgIdx + 1) + 2 * bdy) * (W * C)) in Hout by ring.
  assert ((H * (imgIdx + 1) + 2 * 1) * (W * C)
          <= (H * (imgIdx + 1) + 2 * bdy) * (W * C))
    by (apply Z.mul_le_mono_nonneg_r; lia).
  lia.
Qed.

(** X13. The work of [ResizeFunc] is partitioned by the strided loops: when
    the threads of a block of [bdx] by [bdy] threads run one after the other,
    in any order that lists every thread, each with its own start
    [(tx, ty)] and the steps [(bdx, bdy)], the output raster is the one of a
    single run with start 0 and step 1.  This holds for the three branches
    of [ResizeFunc] and any mirror flags. *)
Theorem X13_block_of_threads_equals_single_run :
  forall (W0 H0 : Z) (img_in : raster) (W H C : Z)
         (rp : list ResizeGridParam) (pm : option (list MirroringInfo))
         (imgIdx : Z) (pMapping : option (list MappingInfo))
         (pRM : option (list ResizeMapping)) (pPM : option (list PixMapping))
         (bdx bdy : Z) (ths : list (Z * Z)) (img_out : raster) (a : Z),
    C = 1 \/ C = 3 -> 0 < W -> 0 < H -> 0 <= imgIdx -> 0 < bdx -> 0 < bdy ->
    (H * (imgIdx + 1) + 2 * bdy) * W * C < 2 ^ 31 ->
    (forall th, In th ths <-> In th (blockThreads bdx bdy)) ->
    runThreads (fun tx ty m =>
        ResizeFunc W0 H0 img_in W H m C rp pm imgIdx tx bdx ty bdy
                   pMapping pRM pPM) ths img_out a =
    ResizeFunc W0 H0 img_in W H img_out C rp pm imgIdx 0 1 0 1
               pMapping pRM pPM a.
Proof.
  intros W0 H0 img_in W H C rp pm imgIdx pMapping pRM pPM bdx bdy ths img_out a
         HC HW HH Hidx Hbx Hby Hout Hths.
  apply block_equals_single; assumption.
Qed.

Lemma X13_block_of_threads_equals_single_run_witness :
  let img_in : raster := fun a => (7 * a + 3) mod 256 in
  let rp := gridParams (stepSrc 6 4) (stepSrc 4 2) (stepDst 6 4) (stepDst 4 2)
                       0 0 in
  runThreads (fun tx ty m =>
      ResizeFunc 6 4 img_in 4 2 m 3 rp None 0 tx 2 ty 2 None None None)
    (rev (blockThreads 2 2)) (fun _ => 0) 7 =
  ResizeFunc 6 4 img_in 4 2 (fun _ => 0) 3 rp None 0 0 1 0 1 None None None 7.
Proof.
  intros img_in rp.
  apply (X13_block_of_threads_equals_single_run 6 4 img_in 4 2 3 rp None 0
           None None None 2 2 (rev (blockThreads 2 2)) (fun _ => 0) 7);
    try lia.
  intros th. symmetry. apply in_rev.
Defined.

(** X14. A thread of [ResizeFunc] stores only at the places of the pixels
    that its strided loops visit: a byte of the output raster that belongs
    to no such pixel, in particular any byte outside the image
    [H * W * C] bytes long at [imgIdx], is left as it was. *)
Theorem X14_thread_writes_only_its_pixels :
  forall (W0 H0 : Z) (img_in img_out : raster) (W H C : Z)
         (rp : list ResizeGridParam) (pm : option (list MirroringInfo))
         (imgIdx : Z) (pMapping : option (list MappingInfo))
         (pRM : option (list ResizeMapping)) (pPM : option (list PixMapping))
         (startW stepW startH stepH a : Z),
    C = 1 \/ C = 3 -> 0 < W -> 0 < H -> 0 <= imgIdx ->
    0 <= startW -> 0 < stepW -> 0 <= startH < stepH ->
    (H * (imgIdx + 1) + 2 * stepH) * W * C < 2 ^ 31 ->
    (~ (H * imgIdx * W * C <= a < H * (imgIdx + 1) * W * C) \/
     forall x y ch,
       startW <= x < W -> (x - startW) mod stepW = 0 ->
       startH <= y < H -> (y - startH) mod stepH = 0 -> 0 <= ch < C ->
       a <> outLoc W H C (flagsOf pm imgIdx) imgIdx x y + ch) ->
    ResizeFunc W0 H0 img_in W H img_out C rp pm imgIdx startW stepW startH stepH
               pMapping pRM pPM a = img_out a.
Proof.
  intros W0 H0 img_in img_out W H C rp pm imgIdx pMapping pRM pPM
         startW stepW startH stepH a HC HW HH Hidx HaW HsW HsH Hout Ha.
  rewrite ResizeFunc_thread_stores by (try assumption; lia).
  apply writeAll_frame. intros v Hv.
  apply (locWritesOn_in _ _ C _ _ _ a v HC) in Hv.
  destruct Hv as (x & y & ch & Hx & Hy & Hch & Ea & _).
  apply stridedRange_in in Hx; [|lia]. apply stridedRange_in in Hy; [|lia].
  destruct Ha as [Ha|Ha].
  - apply Ha. rewrite Ea. apply outLoc_range; lia.
  - apply (Ha x y ch); tauto.
Qed.

Lemma X14_thread_writes_only_its_pixels_witness :
  let img_in : raster := fun a => (7 * a + 3) mod 256 in
  let rp := gridParams (stepSrc 6 4) (stepSrc 4 2) (stepDst 6 4) (stepDst 4 2)
                       0 0 in
  ResizeFunc 6 4 img_in 4 2 (fun _ => 9) 3 rp None 1 1 2 0 2 None None None 5
  = 9.
Proof.
  intros img_in rp.
  apply (X14_thread_writes_only_its_pixels 6 4 img_in (fun _ => 9) 4 2 3 rp None 1
           None None None 1 2 0 2 5); try lia.
Defined.

(* ================================================================== *)
(** * The two kernels *)

(** X15. In [BatchedResizeKernel] every image of the batch is resized with its
    own sizes, rasters, grid parameters and nearest-neighbour table: the
    threads of block [imagIdx], run one after the other in any order, leave
    in the output of the image the raster of a single run of [ResizeFunc]
    on entry [imagIdx] of each array, with the mirror flags of entry
    [imagIdx] and, for the area-weighted interpolation, without the
    tables. *)
Theorem X15_BatchedResizeKernel_uses_own_descriptor :
  forall (C : Z) (resizeDescr : list ResizeGridParam)
         (ppMapping : option (list (list MappingInfo)))
         (pMirrorInfo : list MirroringInfo)
         (in_sizes : list DALISize) (imgs_in : list raster)
         (out_sizes : list DALISize) (img_out : raster)
         (imagIdx bdx bdy : Z) (ths : list (Z * Z)) (a : Z),
    let i := Z.to_nat imagIdx in
    let W0 := width (nth i in_sizes {| height := 0; width := 0 |}) in
    let H0 := height (nth i in_sizes {| height := 0; width := 0 |}) in
    let W := width (nth i out_sizes {| height := 0; width := 0 |}) in
    let H := height (nth i out_sizes {| height := 0; width := 0 |}) in
    C = 1 \/ C = 3 -> 0 < W -> 0 < H -> 0 < bdx -> 0 < bdy ->
    (H + 2 * bdy) * W * C < 2 ^ 31 ->
    (forall th, In th ths <-> In th (blockThreads bdx bdy)) ->
    runThreads (fun tx ty m =>
        BatchedResizeKernel C resizeDescr ppMapping pMirrorInfo in_sizes imgs_in
                            out_sizes m imagIdx bdx bdy tx ty) ths img_out a =
    ResizeFunc W0 H0 (nth i imgs_in (fun _ => 0)) W H img_out C
               (skipn (N_GRID_PARAMS * i) resizeDescr)
               (Some [nth i pMirrorInfo grid0]) 0 0 1 0 1
               (match ppMapping with
                | Some pp => Some (nth i pp [])
                | None => None
                end) None None a.
Proof.
  intros C resizeDescr ppMapping pMirrorInfo in_sizes imgs_in out_sizes img_out
         imagIdx bdx bdy ths a i W0 H0 W H HC HW HH Hbx Hby Hout Hths.
  unfold BatchedResizeKernel. fold i W0 H0 W H.
  assert (Hout' : (H * (0 + 1) + 2 * bdy) * W * C < 2 ^ 31)
    by (replace (H * (0 + 1)) with H by ring; exact Hout).
  rewrite (block_equals_single W0 H0 (nth i imgs_in (fun _ => 0)) W H C
             (skipn (N_GRID_PARAMS * i) resizeDescr) (Some (skipn i pMirrorInfo)) 0
             _ None None bdx bdy HC HW HH ltac:(lia) Hbx Hby Hout' ths img_out a Hths).
  refine (f_equal (fun r : raster => r a) _).
  apply ResizeFunc_flags; try assumption; try lia.
  - apply (bound_one H 0 bdy W C); try assumption; lia.
  - unfold flagsOf. cbn [Z.to_nat nth]. rewrite nth_skipn_add, Nat.add_0_r.
    reflexivity.
Qed.

Lemma X15_BatchedResizeKernel_uses_own_descriptor_witness :
  let img1 : raster := fun a => (7 * a + 3) mod 256 in
  let rd := gridParams 1 1 1 1 0 0 ++
            gridParams (stepSrc 6 4) (stepSrc 4 2) (stepDst 6 4) (stepDst 4 2) 0 0 in
  let mi := [grid0; {| px := 1; py := 0 |}] in
  let isz := [size_of 1 1; size_of 4 6] in
  let osz := [size_of 1 1; size_of 2 4] in
  runThreads (fun tx ty m =>
      BatchedResizeKernel 3 rd None mi isz [fun _ => 0; img1] osz m 1 2 2 tx ty)
    (blockThreads 2 2) (fun _ => 0) 7 =
  ResizeFunc 6 4 img1 4 2 (fun _ => 0) 3 (skipn (N_GRID_PARAMS * 1) rd)
             (Some [{| px := 1; py := 0 |}]) 0 0 1 0 1 None None None 7.
Proof.
  intros img1 rd mi isz osz.
  apply (X15_BatchedResizeKernel_uses_own_descriptor 3 rd None mi isz
           [fun _ => 0; img1] osz (fun _ => 0) 1 2 2 (blockThreads 2 2) 7);
    first [lia | vm_compute; reflexivity | tauto].
Defined.

(** X16. In [BatchedCongenericResizeKernel] the array of mirror flags is
    advanced by the image index twice, once by the kernel and once by
    [ResizeFunc]: the threads of block [imagIdx] leave the raster of a
    single run of [ResizeFunc] for the image [imagIdx] with the mirror
    flags of entry [2 * imagIdx] of the array. *)
Theorem X16_congeneric_kernel_mirror_entry :
  forall (H0 W0 : Z) (img_in : raster) (H W : Z) (img_out : raster) (C : Z)
         (rp : list ResizeGridParam) (pMirrorInfo : list MirroringInfo)
         (ppMapping : option (list (list MappingInfo)))
         (pRM : option (list ResizeMapping)) (pPM : option (list PixMapping))
         (imagIdx bdx bdy : Z) (ths : list (Z * Z))
         (pm : option (list MirroringInfo)) (a : Z),
    C = 1 \/ C = 3 -> 0 < W -> 0 < H -> 0 <= imagIdx -> 0 < bdx -> 0 < bdy ->
    (H * (imagIdx + 1) + 2 * bdy) * W * C < 2 ^ 31 ->
    (forall th, In th ths <-> In th (blockThreads bdx bdy)) ->
    flagsOf pm imagIdx =
      flagsOf (Some [nth (2 * Z.to_nat imagIdx) pMirrorInfo grid0]) 0 ->
    runThreads (fun tx ty m =>
        BatchedCongenericResizeKernel H0 W0 img_in H W m C rp pMirrorInfo
          ppMapping pRM pPM imagIdx bdx bdy tx ty) ths img_out a =
    ResizeFunc W0 H0 img_in W H img_out C rp pm imagIdx 0 1 0 1
               (match ppMapping with
                | Some pp => Some (nth 0 pp [])
                | None => None
                end) pRM pPM a.
Proof.
  intros H0 W0 img_in H W img_out C rp pMirrorInfo ppMapping pRM pPM
         imagIdx bdx bdy ths pm a HC HW HH Hidx Hbx Hby Hout Hths Hfl.
  unfold BatchedCongenericResizeKernel.
  rewrite (block_equals_single W0 H0 img_in W H C rp
             (Some (skipn (Z.to_nat imagIdx) pMirrorInfo)) imagIdx
             _ pRM pPM bdx bdy HC HW HH Hidx Hbx Hby Hout ths img_out a Hths).
  refine (f_equal (fun r : raster => r a) _).
  apply ResizeFunc_flags; try assumption.
  - apply (bound_one H imagIdx bdy W C); try assumption; lia.
  - rewrite Hfl. unfold flagsOf. cbn [Z.to_nat nth].
    rewrite nth_skipn_add. replace (Z.to_nat imagIdx + Z.to_nat imagIdx)%nat
      with (2 * Z.to_nat imagIdx)%nat by lia. reflexivity.
Qed.

Lemma X16_congeneric_kernel_mirror_entry_witness :
  let img_in : raster := fun a => (7 * a + 3) mod 256 in
  let rp := gridParams (stepSrc 6 4) (stepSrc 4 2) (stepDst 6 4) (stepDst 4 2)
                       0 0 in
  let mi := [grid0; grid0; {| px := 1; py := 0 |}] in
  runThreads (fun tx ty m =>
      BatchedCongenericResizeKernel 4 6 img_in 2 4 m 3 rp mi None None None
                                    1 2 2 tx ty)
    (blockThreads 2 2) (fun _ => 0) 30 =
  ResizeFunc 6 4 img_in 4 2 (fun _ => 0) 3 rp
             (Some [grid0; {| px := 1; py := 0 |}]) 1 0 1 0 1 None None None 30.
Proof.
  intros img_in rp mi.
  apply (X16_congeneric_kernel_mirror_entry 4 6 img_in 2 4 (fun _ => 0) 3 rp mi
           None None None 1 2 2 (blockThreads 2 2)
           (Some [grid0; {| px := 1; py := 0 |}]) 30);
    first [lia | vm_compute; reflexivity | tauto].
Defined.

(* ================================================================== *)
(** * The value of a resized pixel *)

Lemma overlap_nonneg s0 s1 n j : 0 <= overlap s0 s1 n j.
Proof. unfold overlap. lia. Qed.

(** The intersections of a resized pixel with the source pixels of a row
    add up to its length. *)
Lemma overlap_total s0 s1 n (T : nat) :
  0 < s0 -> 0 < s1 -> 0 <= n -> n + s1 <= Z.of_nat T * s0 ->
  zsum (overlap s0 s1 n) 0 T = s1.
Proof.
  intros Hs0 Hs1 Hn HT.
  pose proof (cols_total s0 s1 n Hs0 Hs1 Hn) as E.
  rewrite (cols_wsum s0 s1 n Hs0 Hs1 Hn (fun _ => 1) T HT) in E.
  etransitivity; [|exact E]. apply zsum_ext. intros j _. lia.
Qed.

Lemma zsum_bounds w g lo hi : forall len start,
  (forall j, start <= j < start + Z.of_nat len -> 0 <= w j) ->
  (forall j, start <= j < start + Z.of_nat len -> lo <= g j <= hi) ->
  lo * zsum w start len <= zsum (fun j => w j * g j) start len
    <= hi * zsum w start len.
Proof.
  induction len as [|len IH]; intros start Hw Hg; cbn [zsum]; [lia|].
  specialize (IH (start + 1) ltac:(intros j Hj; apply Hw; lia)
                 ltac:(intros j Hj; apply Hg; lia)).
  pose proof (Hw start ltac:(lia)). pose proof (Hg start ltac:(lia)).
  nia.
Qed.

Lemma areaSum_bounds W0 H0 C img in_ sx0 sy0 sx1 sy1 nX nY ch lo hi :
  0 < sx0 -> 0 < sy0 -> 0 < sx1 -> 0 < sy1 -> 0 < W0 -> 0 < H0 ->
  0 <= nX -> nX + sx1 <= W0 * sx0 -> 0 <= nY -> nY + sy1 <= H0 * sy0 ->
  (forall a, lo <= img a <= hi) ->
  lo * (sx1 * sy1) <= areaSum W0 H0 C img in_ sx0 sy0 sx1 sy1 nX nY ch
    <= hi * (sx1 * sy1).
Proof.
  intros Hsx0 Hsy0 Hsx1 Hsy1 HW0 HH0 HnX HnX1 HnY HnY1 Himg. unfold areaSum.
  pose proof (overlap_total sx0 sx1 nX (Z.to_nat W0) Hsx0 Hsx1 HnX
                ltac:(rewrite Z2Nat.id by lia; exact HnX1)) as Tx.
  pose proof (overlap_total sy0 sy1 nY (Z.to_nat H0) Hsy0 Hsy1 HnY
                ltac:(rewrite Z2Nat.id by lia; exact HnY1)) as Ty.
  pose proof (zsum_bounds (overlap sy0 sy1 nY)
                (fun i => zsum (fun j => overlap sx0 sx1 nX j *
                                         img (in_ + (i * W0 + j) * C + ch))
                               0 (Z.to_nat W0))
                (lo * sx1) (hi * sx1) (Z.to_nat H0) 0
                ltac:(intros; apply overlap_nonneg)) as B.
  rewrite Ty in B.
  replace (lo * (sx1 * sy1)) with (lo * sx1 * sy1) by ring.
  replace (hi * (sx1 * sy1)) with (hi * sx1 * sy1) by ring.
  apply B. intros i _.
  pose proof (zsum_bounds (overlap sx0 sx1 nX)
                (fun j => img (in_ + (i * W0 + j) * C + ch)) lo hi (Z.to_nat W0) 0
                ltac:(intros; apply overlap_nonneg)
                ltac:(intros; apply Himg)) as B'.
  rewrite Tx in B'. exact B'.
Qed.

(** The byte stored for a sum between [lo * area] and [hi * area]. *)
Lemma quant_mean area S lo hi :
  0 < area < 2 ^ 23 -> 0 <= lo -> hi <= 255 ->
  lo * area <= S <= hi * area ->
  quant area S = (S + area / 2) / area /\ lo <= quant area S <= hi.
Proof.
  intros Ha Hlo Hhi HS. unfold quant.
  rewrite Z.shiftr_div_pow2 by lia. change (2 ^ 1) with 2.
  pose proof (Z.div_pos area 2 ltac:(lia) ltac:(lia)) as H2.
  assert (H2' : area / 2 < area) by (apply Z.div_lt_upper_bound; lia).
  assert (Hq1 : lo <= (S + area / 2) / area)
    by (apply Z.div_le_lower_bound; nia).
  assert (Hq2 : (S + area / 2) / area < hi + 1)
    by (apply Z.div_lt_upper_bound; nia).
  rewrite u32_small by nia.
  unfold u8. rewrite Z.mod_small by lia. lia.
Qed.

(** X17. On the path that recomputes the intersections, the byte of channel
    [ch] of the resized pixel [(x, y)] is the area-weighted mean of the
    source bytes over the resized pixel, rounded half up; it lies between
    the least and the greatest source byte, so an image of one colour stays
    of that colour. *)
Theorem X17_linear_byte_is_rounded_mean :
  forall (W0 H0 W H C imgIdx : Z) (img_in img_out : raster)
         (sx0 sy0 sx1 sy1 cropX cropY : Z) (pm : option (list MirroringInfo))
         (lo hi x y ch : Z),
    C = 1 \/ C = 3 -> 0 < W -> 0 < H -> 0 < W0 -> 0 < H0 -> 0 <= imgIdx ->
    H * (imgIdx + 1) * W * C < 2 ^ 31 ->
    0 < sx0 -> 0 < sy0 -> 0 < sx1 -> 0 < sy1 ->
    H0 * W0 * C < 2 ^ 31 -> sx1 * sy1 < 2 ^ 23 ->
    W0 * sx0 < 2 ^ 31 -> H0 * sy0 < 2 ^ 31 ->
    0 <= cropX -> (W + cropX) * sx1 <= W0 * sx0 ->
    0 <= cropY -> (H + cropY) * sy1 <= H0 * sy0 ->
    0 <= lo -> hi <= 255 -> (forall a, lo <= img_in a <= hi) ->
    0 <= x < W -> 0 <= y < H -> 0 <= ch < C ->
    let v := ResizeFunc W0 H0 img_in W H img_out C
               (gridParams sx0 sy0 sx1 sy1 cropX cropY) pm imgIdx 0 1 0 1
               None None None
               (outLoc W H C (flagsOf pm imgIdx) imgIdx x y + ch) in
    v = (areaSum W0 H0 C img_in (H0 * nYoffset W0 C * imgIdx) sx0 sy0 sx1 sy1
                 ((x + cropX) * sx1) ((y + cropY) * sy1) ch
         + sx1 * sy1 / 2) / (sx1 * sy1) /\
    lo <= v <= hi.
Proof.
  intros W0 H0 W H C imgIdx img_in img_out sx0 sy0 sx1 sy1 cropX cropY pm
         lo hi x y ch HC HW HH HW0 HH0 Hidx Hout Hsx0 Hsy0 Hsx1 Hsy1 Himg Harea
         HLx HLy HcX HcX1 HcY HcY1 Hlo Hhi Hb Hx Hy Hch v.
  subst v.
  rewrite (fallback_read W0 H0 W H C imgIdx img_in img_out sx0 sy0 sx1 sy1
             cropX cropY pm HC HW HH HW0 HH0 Hidx Hout Hsx0 Hsy0 Hsx1 Hsy1
             Himg ltac:(lia) HLx HLy HcX HcX1 HcY HcY1 x y ch Hx Hy Hch).
  unfold linearValue.
  assert (BX0 : 0 <= (x + cropX) * sx1) by (apply Z.mul_nonneg_nonneg; lia).
  assert (BY0 : 0 <= (y + cropY) * sy1) by (apply Z.mul_nonneg_nonneg; lia).
  assert (BX : (x + cropX) * sx1 + sx1 <= W0 * sx0).
  { replace ((x + cropX) * sx1 + sx1) with ((x + cropX + 1) * sx1) by ring.
    etransitivity; [|exact HcX1]. apply Z.mul_le_mono_nonneg_r; lia. }
  assert (BY : (y + cropY) * sy1 + sy1 <= H0 * sy0).
  { replace ((y + cropY) * sy1 + sy1) with ((y + cropY + 1) * sy1) by ring.
    etransitivity; [|exact HcY1]. apply Z.mul_le_mono_nonneg_r; lia. }
  apply (quant_mean (sx1 * sy1) _ lo hi); try assumption.
  - split; [apply Z.mul_pos_pos; lia|exact Harea].
  - apply areaSum_bounds; assumption.
Qed.

Lemma X17_linear_byte_is_rounded_mean_witness :
  let img_in : raster := fun a => 10 + a mod 7 in
  let v := ResizeFunc 6 4 img_in 4 2 (fun _ => 0) 3
             (gridParams 2 1 3 2 0 0) None 0 0 1 0 1 None None None
             (outLoc 4 2 3 (flagsOf None 0) 0 1 1 + 2) in
  v = (areaSum 6 4 3 img_in (4 * nYoffset 6 3 * 0) 2 1 3 2
               ((1 + 0) * 3) ((1 + 0) * 2) 2 + 3 * 2 / 2) / (3 * 2) /\
  10 <= v <= 16.
Proof.
  intros img_in.
  apply (X17_linear_byte_is_rounded_mean 6 4 4 2 3 0 img_in (fun _ => 0)
           2 1 3 2 0 0 None 10 16 1 1 2); try lia.
  intros a. unfold img_in. pose proof (Z.mod_pos_bound a 7 ltac:(lia)). lia.
Defined.

(* ================================================================== *)
(** * Scaling by a whole factor *)

Lemma steps_ratio d k : 0 < d -> 0 < k ->
  stepSrc d (k * d) = k /\ stepDst d (k * d) = 1 /\
  stepSrc (k * d) d = 1 /\ stepDst (k * d) d = k.
Proof.
  intros Hd Hk.
  assert (Hkd : 0 < k * d) by nia.
  destruct (steps_eq d (k * d) Hd Hkd) as (-> & -> & _ & _).
  destruct (steps_eq (k * d) d Hkd Hd) as (-> & -> & _ & _).
  rewrite (Z.gcd_comm (k * d) d).
  assert (Eg : Z.gcd d (k * d) = d).
  { rewrite (Z.mul_comm k d). apply Z.gcd_mul_diag_l. lia. }
  rewrite Eg. rewrite Z.div_mul, Z.div_same by lia. tauto.
Qed.

Lemma zsum_single w g q : forall len lo,
  lo <= q < lo + Z.of_nat len -> w q = 1 ->
  (forall j, lo <= j < lo + Z.of_nat len -> j <> q -> w j = 0) ->
  zsum (fun j => w j * g j) lo len = g q.
Proof.
  induction len as [|len IH]; intros lo Hq Hw1 Hw0; [lia|].
  cbn [zsum]. destruct (Z.eq_dec lo q) as [->|Hne].
  - rewrite Hw1. rewrite zsum_zero; [lia|].
    intros j Hj. rewrite Hw0 by lia. lia.
  - rewrite (Hw0 lo) by lia. rewrite IH; [lia|lia|exact Hw1|].
    intros j Hj Hjq. apply Hw0; lia.
Qed.

(** A resized pixel of length 1 lies in one source pixel of length [k]. *)
Lemma overlap_up k n j : 0 < k -> 0 <= n ->
  overlap k 1 n j = if j =? n / k then 1 else 0.
Proof.
  intros Hk Hn. unfold overlap.
  pose proof (Z.mul_div_le n k Hk) as L1.
  pose proof (Z.mod_pos_bound n k Hk) as L2.
  pose proof (Z.div_mod n k ltac:(lia)) as L3.
  set (q := n / k) in *. clearbody q.
  destruct (Z.eqb_spec j q) as [->|Hne].
  - replace ((q + 1) * k) with (k * q + k) by ring.
    replace (q * k) with (k * q) by ring. lia.
  - destruct (Z_lt_le_dec j q) as [Hlt|Hge].
    + assert ((j + 1) * k <= q * k) by (apply Z.mul_le_mono_nonneg_r; lia).
      replace (q * k) with (k * q) in H by ring. lia.
    + assert ((q + 1) * k <= j * k) by (apply Z.mul_le_mono_nonneg_r; lia).
      replace ((q + 1) * k) with (k * q + k) in H by ring. lia.
Qed.

(** A resized pixel of length [k] covers [k] source pixels of length 1. *)
Lemma overlap_down k n j :
  0 < k -> overlap 1 k n j = if (n <=? j) && (j <? n + k) then 1 else 0.
Proof.
  intros Hk. unfold overlap. rewrite !Z.mul_1_r.
  destruct (Z.leb_spec n j); destruct (Z.ltb_spec j (n + k)); cbn [andb]; lia.
Qed.

Lemma zsum_window k n g (T : nat) :
  0 < k -> 0 <= n -> n + k <= Z.of_nat T ->
  zsum (fun j => overlap 1 k n j * g j) 0 T = zsum g n (Z.to_nat k).
Proof.
  intros Hk Hn HT.
  replace T with (Z.to_nat n + (Z.to_nat k + (T - Z.to_nat n - Z.to_nat k)))%nat
    by lia.
  rewrite !zsum_app. rewrite Z.add_0_l, Z2Nat.id by lia.
  rewrite (zsum_zero _ 0).
  2:{ intros j Hj. rewrite overlap_down by lia.
      destruct (Z.leb_spec n j); [lia|]. cbn [andb]. lia. }
  rewrite (zsum_zero _ (n + Z.of_nat (Z.to_nat k))).
  2:{ intros j Hj. rewrite overlap_down by lia.
      destruct (Z.ltb_spec j (n + k)); [lia|]. rewrite andb_false_r. lia. }
  rewrite Z.add_0_l, Z.add_0_r. apply zsum_ext. intros j Hj.
  rewrite overlap_down by lia.
  destruct (Z.leb_spec n j); [|lia]. destruct (Z.ltb_spec j (n + k)); [|lia].
  cbn [andb]. lia.
Qed.

Lemma areaSum_up W0 H0 C img in_ kx ky nX nY ch :
  0 < kx -> 0 < ky -> 0 < W0 -> 0 < H0 ->
  0 <= nX < W0 * kx -> 0 <= nY < H0 * ky ->
  areaSum W0 H0 C img in_ kx ky 1 1 nX nY ch =
  img (in_ + ((nY / ky) * W0 + nX / kx) * C + ch).
Proof.
  intros Hkx Hky HW0 HH0 HnX HnY. unfold areaSum.
  assert (Qx : 0 <= nX / kx < W0).
  { split; [apply Z.div_pos; lia|apply Z.div_lt_upper_bound; lia]. }
  assert (Qy : 0 <= nY / ky < H0).
  { split; [apply Z.div_pos; lia|apply Z.div_lt_upper_bound; lia]. }
  rewrite (zsum_single (overlap ky 1 nY) _ (nY / ky)); try lia.
  - apply (zsum_single (overlap kx 1 nX)
             (fun j => img (in_ + (nY / ky * W0 + j) * C + ch)) (nX / kx));
      try lia.
    + rewrite overlap_up by lia. rewrite Z.eqb_refl. reflexivity.
    + intros j _ Hj. rewrite overlap_up by lia.
      destruct (Z.eqb_spec j (nX / kx)); [contradiction|reflexivity].
  - rewrite overlap_up by lia. rewrite Z.eqb_refl. reflexivity.
  - intros i _ Hi. rewrite overlap_up by lia.
    destruct (Z.eqb_spec i (nY / ky)); [contradiction|reflexivity].
Qed.

Lemma areaSum_down W0 H0 C img in_ kx ky nX nY ch :
  0 < kx -> 0 < ky -> 0 < W0 -> 0 < H0 ->
  0 <= nX -> nX + kx <= W0 -> 0 <= nY -> nY + ky <= H0 ->
  areaSum W0 H0 C img in_ 1 1 kx ky nX nY ch =
  blockSum W0 C img in_ nY nX ky kx ch.
Proof.
  intros Hkx Hky HW0 HH0 HnX HnX1 HnY HnY1. unfold areaSum, blockSum.
  rewrite (zsum_window ky nY _ (Z.to_nat H0)) by lia.
  apply zsum_ext. intros i Hi.
  apply (zsum_window kx nX (fun j => img (in_ + (i * W0 + j) * C + ch))
                     (Z.to_nat W0)); lia.
Qed.

(** X18. Scaling an image up by whole factors [kx] and [ky] with the
    area-weighted interpolation replicates pixels: the resized pixel
    [(x, y)] of the crop window takes the bytes of the source pixel
    [((y + cropY) / ky, (x + cropX) / kx)]. *)
Theorem X18_integer_upscale_replicates_pixels :
  forall (W0 H0 kx ky W H C imgIdx : Z) (img_in img_out : raster)
         (cropX cropY : Z) (pm : option (list MirroringInfo)) (x y ch : Z),
    C = 1 \/ C = 3 -> 0 < W -> 0 < H -> 0 < W0 -> 0 < H0 -> 0 < kx -> 0 < ky ->
    0 <= imgIdx -> H * (imgIdx + 1) * W * C < 2 ^ 31 ->
    H0 * W0 * C < 2 ^ 31 -> W0 * kx < 2 ^ 31 -> H0 * ky < 2 ^ 31 ->
    0 <= cropX -> W + cropX <= kx * W0 -> 0 <= cropY -> H + cropY <= ky * H0 ->
    bytes img_in ->
    0 <= x < W -> 0 <= y < H -> 0 <= ch < C ->
    let rp := gridParams (stepSrc W0 (kx * W0)) (stepSrc H0 (ky * H0))
                         (stepDst W0 (kx * W0)) (stepDst H0 (ky * H0))
                         cropX cropY in
    ResizeFunc W0 H0 img_in W H img_out C rp pm imgIdx 0 1 0 1 None None None
               (outLoc W H C (flagsOf pm imgIdx) imgIdx x y + ch) =
    img_in (H0 * nYoffset W0 C * imgIdx
            + (((y + cropY) / ky) * W0 + (x + cropX) / kx) * C + ch).
Proof.
  intros W0 H0 kx ky W H C imgIdx img_in img_out cropX cropY pm x y ch
         HC HW HH HW0 HH0 Hkx Hky Hidx Hout Himg HLx HLy HcX HcX1 HcY HcY1 Hb
         Hx Hy Hch rp.
  destruct (steps_ratio W0 kx HW0 Hkx) as (Ex0 & Ex1 & _ & _).
  destruct (steps_ratio H0 ky HH0 Hky) as (Ey0 & Ey1 & _ & _).
  unfold rp. rewrite Ex0, Ex1, Ey0, Ey1.
  rewrite (fallback_read W0 H0 W H C imgIdx img_in img_out kx ky 1 1
             cropX cropY pm); try assumption; try lia.
  unfold linearValue. rewrite !Z.mul_1_r.
  rewrite areaSum_up by lia. apply quant_unit. apply Hb.
Qed.

Lemma X18_integer_upscale_replicates_pixels_witness :
  let img_in : raster := fun a => (7 * a + 3) mod 256 in
  let rp := gridParams (stepSrc 3 (2 * 3)) (stepSrc 2 (3 * 2))
                       (stepDst 3 (2 * 3)) (stepDst 2 (3 * 2)) 1 0 in
  ResizeFunc 3 2 img_in 5 6 (fun _ => 0) 3 rp None 0 0 1 0 1 None None None
             (outLoc 5 6 3 (flagsOf None 0) 0 2 4 + 1) =
  img_in (2 * nYoffset 3 3 * 0 + (((4 + 0) / 3) * 3 + (2 + 1) / 2) * 3 + 1).
Proof.
  intros img_in.
  apply (X18_integer_upscale_replicates_pixels 3 2 2 3 5 6 3 0 img_in (fun _ => 0)
           1 0 None 2 4 1); try lia.
  intros a. apply Z.mod_pos_bound. lia.
Defined.

(** X19. Scaling an image down by whole factors [kx] and [ky] with the
    area-weighted interpolation is a box filter: the byte of a resized
    pixel is the mean of the bytes of its block of [ky] rows and [kx]
    columns of source pixels, rounded half up. *)
Theorem X19_integer_downscale_is_box_mean :
  forall (W1 H1 kx ky W H C imgIdx : Z) (img_in img_out : raster)
         (cropX cropY : Z) (pm : option (list MirroringInfo)) (x y ch : Z),
    C = 1 \/ C = 3 -> 0 < W -> 0 < H -> 0 < W1 -> 0 < H1 -> 0 < kx -> 0 < ky ->
    0 <= imgIdx -> H * (imgIdx + 1) * W * C < 2 ^ 31 ->
    (ky * H1) * (kx * W1) * C < 2 ^ 31 -> kx * ky < 2 ^ 23 ->
    0 <= cropX -> W + cropX <= W1 -> 0 <= cropY -> H + cropY <= H1 ->
    bytes img_in ->
    0 <= x < W -> 0 <= y < H -> 0 <= ch < C ->
    let W0 := kx * W1 in let H0 := ky * H1 in
    let rp := gridParams (stepSrc W0 W1) (stepSrc H0 H1)
                         (stepDst W0 W1) (stepDst H0 H1) cropX cropY in
    ResizeFunc W0 H0 img_in W H img_out C rp pm imgIdx 0 1 0 1 None None None
               (outLoc W H C (flagsOf pm imgIdx) imgIdx x y + ch) =
    (blockSum W0 C img_in (H0 * nYoffset W0 C * imgIdx)
              ((y + cropY) * ky) ((x + cropX) * kx) ky kx ch
     + kx * ky / 2) / (kx * ky).
Proof.
  intros W1 H1 kx ky W H C imgIdx img_in img_out cropX cropY pm x y ch
         HC HW HH HW1 HH1 Hkx Hky Hidx Hout Himg Harea HcX HcX1 HcY HcY1 Hb
         Hx Hy Hch W0 H0 rp.
  destruct (steps_ratio W1 kx HW1 Hkx) as (_ & _ & Ex0 & Ex1).
  destruct (steps_ratio H1 ky HH1 Hky) as (_ & _ & Ey0 & Ey1).
  assert (HW0 : 0 < W0) by (subst W0; nia).
  assert (HH0 : 0 < H0) by (subst H0; nia).
  assert (Hmul : 0 < (H0 * W0) * C)
    by (apply Z.mul_pos_pos; [apply Z.mul_pos_pos|]; lia).
  assert (HW31 : W0 < 2 ^ 31) by (clear - Hmul Himg HW0 HH0 HC; fold W0 H0 in Himg; nia).
  assert (HH31 : H0 < 2 ^ 31) by (clear - Hmul Himg HW0 HH0 HC; fold W0 H0 in Himg; nia).
  assert (BX1 : (W + cropX) * kx <= W0 * 1)
    by (subst W0; rewrite Z.mul_1_r, (Z.mul_comm kx W1);
        apply Z.mul_le_mono_nonneg_r; lia).
  assert (BY1 : (H + cropY) * ky <= H0 * 1)
    by (subst H0; rewrite Z.mul_1_r, (Z.mul_comm ky H1);
        apply Z.mul_le_mono_nonneg_r; lia).
  assert (NX : 0 <= (x + cropX) * kx) by (apply Z.mul_nonneg_nonneg; lia).
  assert (NY : 0 <= (y + cropY) * ky) by (apply Z.mul_nonneg_nonneg; lia).
  assert (NX1 : (x + cropX) * kx + kx <= W0).
  { replace ((x + cropX) * kx + kx) with ((x + cropX + 1) * kx) by ring.
    rewrite Z.mul_1_r in BX1. etransitivity; [|exact BX1].
    apply Z.mul_le_mono_nonneg_r; lia. }
  assert (NY1 : (y + cropY) * ky + ky <= H0).
  { replace ((y + cropY) * ky + ky) with ((y + cropY + 1) * ky) by ring.
    rewrite Z.mul_1_r in BY1. etransitivity; [|exact BY1].
    apply Z.mul_le_mono_nonneg_r; lia. }
  unfold rp. fold W0 H0 in Ex0, Ex1, Ey0, Ey1. rewrite Ex0, Ex1, Ey0, Ey1.
  rewrite (fallback_read W0 H0 W H C imgIdx img_in img_out 1 1 kx ky
             cropX cropY pm); try assumption; try lia.
  unfold linearValue.
  pose proof (areaSum_bounds W0 H0 C img_in (H0 * nYoffset W0 C * imgIdx)
                1 1 kx ky ((x + cropX) * kx) ((y + cropY) * ky) ch 0 255
                ltac:(lia) ltac:(lia) Hkx Hky HW0 HH0 NX ltac:(lia) NY ltac:(lia)
                ltac:(intros a; pose proof (Hb a); lia)) as B.
  destruct (quant_mean (kx * ky) _ 0 255 ltac:(nia) ltac:(lia) ltac:(lia) B)
    as (E & _).
  rewrite E. rewrite areaSum_down by lia. reflexivity.
Qed.

Lemma X19_integer_downscale_is_box_mean_witness :
  let img_in : raster := fun a => (7 * a + 3) mod 256 in
  let rp := gridParams (stepSrc (2 * 3) 3) (stepSrc (2 * 2) 2)
                       (stepDst (2 * 3) 3) (stepDst (2 * 2) 2) 0 0 in
  ResizeFunc (2 * 3) (2 * 2) img_in 3 2 (fun _ => 0) 3 rp None 0 0 1 0 1
             None None None
             (outLoc 3 2 3 (flagsOf None 0) 0 1 1 + 2) =
  (blockSum (2 * 3) 3 img_in (2 * 2 * nYoffset (2 * 3) 3 * 0)
            ((1 + 0) * 2) ((1 + 0) * 2) 2 2 2 + 2 * 2 / 2) / (2 * 2).
Proof.
  intros img_in.
  apply (X19_integer_downscale_is_box_mean 3 2 2 2 3 2 3 0 img_in (fun _ => 0)
           0 0 None 1 1 2); try lia.
  intros a. apply Z.mod_pos_bound. lia.
Defined.

(* ================================================================== *)
(** * Mirroring on Y *)

Lemma mirrorY_at W0 H0 C img K i j ch :
  0 < W0 -> 0 < H0 -> 0 <= i < H0 -> 0 <= j < W0 -> 0 <= ch < C ->
  mirrorY W0 H0 C img (K * H0 * W0 * C + (i * W0 + j) * C + ch) =
  img (K * H0 * W0 * C + ((H0 - 1 - i) * W0 + j) * C + ch).
Proof.
  intros HW0 HH0 Hi Hj Hch. unfold mirrorY. cbv zeta.
  set (a := K * H0 * W0 * C + (i * W0 + j) * C + ch).
  assert (Ea : a = C * ((K * H0 + i) * W0 + j) + ch) by (subst a; ring).
  rewrite <- (Z.div_unique_pos a C ((K * H0 + i) * W0 + j) ch Hch Ea).
  rewrite <- (Z.mod_unique_pos a C ((K * H0 + i) * W0 + j) ch Hch Ea).
  assert (Ep : (K * H0 + i) * W0 + j = W0 * (K * H0 + i) + j) by ring.
  rewrite <- (Z.div_unique_pos _ W0 (K * H0 + i) j Hj Ep).
  rewrite <- (Z.mod_unique_pos _ W0 (K * H0 + i) j Hj Ep).
  assert (Er : K * H0 + i = H0 * K + i) by ring.
  rewrite <- (Z.div_unique_pos _ H0 K i Hi Er).
  rewrite <- (Z.mod_unique_pos _ H0 K i Hi Er).
  f_equal. ring.
Qed.

Lemma areaSum_mirrorY W0 H0 C img K sx0 sy0 sx1 sy1 nX nY ch :
  0 < W0 -> 0 < H0 -> 0 <= ch < C ->
  areaSum W0 H0 C (mirrorY W0 H0 C img) (K * H0 * W0 * C) sx0 sy0 sx1 sy1
          nX (H0 * sy0 - nY - sy1) ch =
  areaSum W0 H0 C img (K * H0 * W0 * C) sx0 sy0 sx1 sy1 nX nY ch.
Proof.
  intros HW0 HH0 Hch. unfold areaSum.
  rewrite (zsum_rev (fun i => overlap sy0 sy1 nY i *
             zsum (fun j => overlap sx0 sx1 nX j *
                             img (K * H0 * W0 * C + (i * W0 + j) * C + ch))
                  0 (Z.to_nat W0))).
  apply zsum_ext. intros i Hi. rewrite Z2Nat.id by lia.
  rewrite <- (overlap_mirror sy0 sy1 nY H0 (H0 - 1 - i)).
  replace (H0 - 1 - (H0 - 1 - i)) with i by ring. f_equal.
  apply zsum_ext. intros j Hj. rewrite mirrorY_at by lia. reflexivity.
Qed.

Section MirrorY.
Variables (W0 H0 W1 H1 W H C imgIdx : Z) (img_in img_out : raster).
Variables (cropX cropY : Z) (pm pm0 : option (list MirroringInfo)) (mx : bool).
Hypothesis (HC : C = 1 \/ C = 3).
Hypotheses (HW0 : 0 < W0) (HH0 : 0 < H0) (HW1 : 0 < W1) (HH1 : 0 < H1).
Hypotheses (HW : 0 < W) (HH : 0 < H) (Hidx : 0 <= imgIdx).
Hypothesis (Hout : H * (imgIdx + 1) * W * C < 2 ^ 31).
Hypothesis (Himg : H0 * W0 * C < 2 ^ 31).
Hypotheses (HLx : W0 * stepSrc W0 W1 < 2 ^ 31) (HLy : H0 * stepSrc H0 H1 < 2 ^ 31).
Hypothesis (Harea : stepDst W0 W1 * stepDst H0 H1 < 2 ^ 31).
Hypotheses (HcX : 0 <= cropX) (HcX1 : W + cropX <= W1).
Hypotheses (HcY : 0 <= cropY) (Hcentre : H1 = H + 2 * cropY).
Hypotheses (Hfl : flagsOf pm imgIdx = (mx, true))
           (Hfl0 : flagsOf pm0 imgIdx = (mx, false)).

Let rp := gridParams (stepSrc W0 W1) (stepSrc H0 H1)
                     (stepDst W0 W1) (stepDst H0 H1) cropX cropY.

Lemma fallback_mirrorY a :
  ResizeFunc W0 H0 img_in W H img_out C rp pm imgIdx 0 1 0 1 None None None a =
  ResizeFunc W0 H0 (mirrorY W0 H0 C img_in) W H img_out C rp pm0 imgIdx 0 1 0 1
             None None None a.
Proof.
  destruct (steps_pos W0 W1 HW0 HW1) as (Px0 & Px1).
  destruct (steps_pos H0 H1 HH0 HH1) as (Py0 & Py1).
  pose proof (steps_lcm W0 W1 HW0 HW1) as ELx.
  pose proof (steps_lcm H0 H1 HH0 HH1) as ELy.
  unfold rp.
  set (sx0 := stepSrc W0 W1) in *. set (sy0 := stepSrc H0 H1) in *.
  set (sx1 := stepDst W0 W1) in *. set (sy1 := stepDst H0 H1) in *.
  assert (HC0 : 0 < C) by lia.
  assert (BX : (W + cropX) * sx1 <= W0 * sx0)
    by (rewrite ELx; apply Z.mul_le_mono_nonneg_r; lia).
  assert (BY : (H + cropY) * sy1 <= H0 * sy0)
    by (rewrite ELy; apply Z.mul_le_mono_nonneg_r; lia).
  destruct (Z_le_gt_dec (H * imgIdx * W * C) a) as [Hlo|Hlo];
    [destruct (Z_lt_le_dec a (H * (imgIdx + 1) * W * C)) as [Hhi|Hhi]|].
  - destruct (outLoc_onto W H C (mx, true) imgIdx a HW HH HC0 (conj Hlo Hhi))
      as (x & y & ch & Hx & Hy & Hch & ->).
    transitivity (linearValue W0 H0 C img_in (H0 * nYoffset W0 C * imgIdx)
                    sx0 sy0 sx1 sy1 cropX cropY x y ch).
    { rewrite <- Hfl. apply fallback_read; assumption. }
    assert (Ea : outLoc W H C (mx, true) imgIdx x y =
                 outLoc W H C (mx, false) imgIdx x (H - 1 - y))
      by reflexivity.
    rewrite Ea, <- Hfl0.
    rewrite fallback_read; try assumption; try lia.
    unfold linearValue. f_equal.
    replace (H0 * nYoffset W0 C * imgIdx) with (imgIdx * H0 * W0 * C)
      by (unfold nYoffset; ring).
    replace ((H - 1 - y + cropY) * sy1)
      with (H0 * sy0 - (y + cropY) * sy1 - sy1)
      by (rewrite ELy, Hcentre; ring).
    symmetry. apply areaSum_mirrorY; lia.
  - rewrite !fallback_frame; first [assumption | lia].
  - rewrite !fallback_frame; first [assumption | lia].
Qed.

End MirrorY.

(** X20. With the area-weighted interpolation (on either of its paths), one
    or three channels and the crop window centred in the scaled column
    ([H1 = H + 2 * cropY]), storing the rows of the resized image in reverse
    order, as the Y flag does, yields the raster of resizing the image
    mirrored on Y without the Y flag; the X flag is the same on both
    sides. *)
Theorem X20_mirror_y_commutes_centred :
  forall (F : Type) (FO : FloatOps F) (W0 H0 W1 H1 W H C imgIdx : Z)
         (img_in img_out : raster) (cropX cropY : Z)
         (pm pm0 : option (list MirroringInfo)) (mx : bool),
    C = 1 \/ C = 3 ->
    0 < W0 -> 0 < H0 -> 0 < W1 -> 0 < H1 -> 0 < W -> 0 < H -> 0 <= imgIdx ->
    H * (imgIdx + 1) * W * C < 2 ^ 31 ->
    H0 * W0 * C < 2 ^ 31 ->
    W0 * stepSrc W0 W1 < 2 ^ 31 -> H0 * stepSrc H0 H1 < 2 ^ 31 ->
    stepDst W0 W1 * stepDst H0 H1 < 2 ^ 31 ->
    0 <= cropX -> W + cropX <= W1 -> 0 <= cropY -> H1 = H + 2 * cropY ->
    flagsOf pm imgIdx = (mx, true) -> flagsOf pm0 imgIdx = (mx, false) ->
    let rp := gridParams (stepSrc W0 W1) (stepSrc H0 H1)
                         (stepDst W0 W1) (stepDst H0 H1) cropX cropY in
    let t := ResizeMappingTable_constructTable emptyTable H0 W0 H1 W1 C
               DALI_INTERP_LINEAR in
    forall a,
      ResizeFunc W0 H0 img_in W H img_out C rp pm imgIdx 0 1 0 1
                 None None None a =
      ResizeFunc W0 H0 (mirrorY W0 H0 C img_in) W H img_out C rp pm0 imgIdx
                 0 1 0 1 None None None a /\
      (stepSrc W0 W1 < 2 ^ 16 -> stepSrc H0 H1 < 2 ^ 16 ->
       (stepSrc W0 W1 + stepDst W0 W1) * (stepSrc H0 H1 + stepDst H0 H1) < 2 ^ 31 ->
       ResizeFunc W0 H0 img_in W H img_out C rp pm imgIdx 0 1 0 1
                  None (Some (resizeMappingCPU t)) (Some (pixMappingCPU t)) a =
       ResizeFunc W0 H0 (mirrorY W0 H0 C img_in) W H img_out C rp pm0 imgIdx
                  0 1 0 1
                  None (Some (resizeMappingCPU t)) (Some (pixMappingCPU t)) a).
Proof.
  intros F FO W0 H0 W1 H1 W H C imgIdx img_in img_out cropX cropY pm pm0 mx
         HC HW0 HH0 HW1 HH1 HW HH Hidx Hout Himg HLx HLy Harea HcX HcX1 HcY Hcentre
         Hfl Hfl0 rp t a.
  assert (E : ResizeFunc W0 H0 img_in W H img_out C rp pm imgIdx 0 1 0 1
                None None None a =
              ResizeFunc W0 H0 (mirrorY W0 H0 C img_in) W H img_out C rp pm0 imgIdx
                0 1 0 1 None None None a)
    by (apply (fallback_mirrorY W0 H0 W1 H1 W H C imgIdx img_in img_out cropX cropY
                 pm pm0 mx); assumption).
  split; [exact E|]. intros Hx16 Hy16 Hfit. unfold rp, t.
  rewrite !table_path_fallback; first [assumption | lia].
Qed.

Lemma X20_mirror_y_commutes_centred_witness :
  let img_in : raster := fun a => (7 * a + 3) mod 256 in
  let img_out : raster := fun _ => 0 in
  let rp := gridParams (stepSrc 1 1) (stepSrc 2 4) (stepDst 1 1) (stepDst 2 4)
                       0 1 in
  ResizeFunc 1 2 img_in 1 2 img_out 1 rp (Some [ {| px := 0; py := 1 |} ]) 0
             0 1 0 1 None None None 0 =
  ResizeFunc 1 2 (mirrorY 1 2 1 img_in) 1 2 img_out 1 rp None 0
             0 1 0 1 None None None 0.
Proof.
  intros img_in img_out.
  apply (X20_mirror_y_commutes_centred Z ExactFloat 1 2 1 4 1 2 1 0 img_in img_out
           0 1 (Some [ {| px := 0; py := 1 |} ]) None false);
    first [lia | vm_compute; reflexivity].
Defined.

(* ================================================================== *)
(** * The crop kernel *)

Lemma writeAllV_frame {V} (l : list (Z * V)) : forall m a,
  (forall v, ~ In (a, v) l) -> writeAllV l m a = m a.
Proof.
  induction l as [|[a0 v0] l IH]; intros m a H; [reflexivity|].
  cbn [writeAllV fold_left fst snd]. fold (writeAllV l (storeAt m a0 v0)).
  rewrite IH by (intros v Hv; apply (H v); right; exact Hv).
  unfold storeAt. destruct (Z.eqb_spec a a0) as [->|]; [|reflexivity].
  exfalso. apply (H v0). left. reflexivity.
Qed.

Lemma writeAllV_read {V} (l : list (Z * V)) a v : forall m,
  In (a, v) l \/ m a = v ->
  (forall v', In (a, v') l -> v' = v) ->
  writeAllV l m a = v.
Proof.
  induction l as [|[a0 v0] l IH]; intros m Hin Hfun.
  - destruct Hin as [[]|E]. exact E.
  - cbn [writeAllV fold_left fst snd]. fold (writeAllV l (storeAt m a0 v0)).
    apply IH.
    + unfold storeAt. destruct (Z.eqb_spec a a0) as [->|Hne].
      * right. apply Hfun. left. reflexivity.
      * destruct Hin as [[E|Hin]|E]; [congruence|left; exact Hin|right; exact E].
    + intros v' Hv'. apply Hfun. right. exact Hv'.
Qed.

Lemma cropStores_in {V} (conv : Z -> V) C H W input stride addr a v :
  In (a, v) (cropStores conv C H W input stride addr) <->
  exists c h w, 0 <= c < C /\ 0 <= h < H /\ 0 <= w < W /\
                a = addr c h w /\ v = conv (input (h * stride + w * C + c)).
Proof.
  unfold cropStores. rewrite in_flat_map. split.
  - intros (c & Hc & Hin). apply in_flat_map in Hin as (h & Hh & Hin).
    apply in_map_iff in Hin as (w & E & Hw).
    apply zrange_in in Hc, Hh, Hw. inversion E; subst.
    exists c, h, w. tauto.
  - intros (c & h & w & Hc & Hh & Hw & -> & ->).
    exists c. split; [apply zrange_in; exact Hc|].
    apply in_flat_map. exists h. split; [apply zrange_in; exact Hh|].
    apply in_map_iff. exists w. split; [reflexivity|apply zrange_in; exact Hw].
Qed.

(** The three loops of the kernel, with the element [(c, h, w)] stored at
    [addr c h w], are the stores of [cropStores] in order. *)
Lemma cropLoops_stores {V} (conv : Z -> V) C H W input stride addr out :
  for_range 0 1 C (fun c out =>
    for_range 0 1 H (fun h out =>
      for_range 0 1 W (fun w out =>
        storeAt out (addr c h w) (conv (input (h * stride + w * C + c)))) out)
      out) out =
  writeAllV (cropStores conv C H W input stride addr) out.
Proof.
  unfold cropStores, writeAllV.
  rewrite for_range_fold, fold_left_flat_map.
  apply fold_left_ext. intros m c.
  rewrite for_range_fold, fold_left_flat_map.
  apply fold_left_ext. intros m' h.
  rewrite for_range_fold, fold_left_map. reflexivity.
Qed.

Lemma for_range_ext {S} (f g : Z -> S -> S) n s :
  (forall i s, 0 <= i < n -> f i s = g i s) ->
  for_range 0 1 n f s = for_range 0 1 n g s.
Proof.
  intros E. unfold for_range. apply (for_loop_ext _ _ 0); [lia|exact E|lia].
Qed.

(** The address of the element [(c, h, w)] of the output in each layout. *)
Lemma CropKernel_stores {V} (conv : Z -> V) C H W input stride nchw out :
  CropKernel conv C H W input stride nchw out =
  writeAllV (cropStores conv C H W input stride
               (fun c h w => if nchw then (c * H + h) * W + w
                             else (h * W + w) * C + c)) out.
Proof.
  rewrite <- cropLoops_stores. unfold CropKernel.
  destruct nchw; cbv zeta;
    apply for_range_ext; intros c m _;
    apply for_range_ext; intros h m' _;
    apply for_range_ext; intros w m'' _; f_equal;
    try (f_equal; f_equal; ring); ring.
Qed.

Lemma CropKernel_v0_stores {V} (conv : Z -> V) C H W input stride nchw out :
  CropKernel_v0 conv C H W input stride nchw out =
  writeAllV (cropStores conv C H W input stride
               (fun c h w => if nchw then (c * H + h) * W + w
                             else (h * W + w) * C + c)) out.
Proof.
  rewrite <- cropLoops_stores. unfold CropKernel_v0.
  destruct nchw; reflexivity.
Qed.

Lemma crop_addr_inj C H W (nchw : bool) c h w c' h' w' :
  0 <= c < C -> 0 <= h < H -> 0 <= w < W ->
  0 <= c' < C -> 0 <= h' < H -> 0 <= w' < W ->
  (if nchw then (c * H + h) * W + w else (h * W + w) * C + c) =
  (if nchw then (c' * H + h') * W + w' else (h' * W + w') * C + c') ->
  c = c' /\ h = h' /\ w = w'.
Proof.
  intros Hc Hh Hw Hc' Hh' Hw' E. destruct nchw.
  - apply pixel_offset_inj in E; try lia.
  - apply pixel_offset_inj in E; try lia.
Qed.

Lemma crop_addr_range C H W (nchw : bool) c h w :
  0 <= c < C -> 0 <= h < H -> 0 <= w < W ->
  0 <= (if nchw then (c * H + h) * W + w else (h * W + w) * C + c) < C * H * W.
Proof.
  intros Hc Hh Hw. destruct nchw.
  - assert (0 <= c * H + h <= C * H - 1) by nia. nia.
  - assert (0 <= h * W + w <= H * W - 1) by nia. nia.
Qed.

Lemma CropKernel_read {V} (conv : Z -> V) C H W input stride nchw out c h w :
  0 <= c < C -> 0 <= h < H -> 0 <= w < W ->
  CropKernel conv C H W input stride nchw out
    (if nchw then (c * H + h) * W + w else (h * W + w) * C + c) =
  conv (input (h * stride + w * C + c)).
Proof.
  intros Hc Hh Hw. rewrite CropKernel_stores. apply writeAllV_read.
  - left. apply cropStores_in. exists c, h, w. tauto.
  - intros v' Hv'. apply cropStores_in in Hv'
      as (c' & h' & w' & Hc' & Hh' & Hw' & E & ->).
    apply crop_addr_inj in E; try assumption.
    destruct E as (-> & -> & ->). reflexivity.
Qed.

Lemma CropKernel_frame {V} (conv : Z -> V) C H W input stride nchw out a :
  ~ 0 <= a < C * H * W ->
  CropKernel conv C H W input stride nchw out a = out a.
Proof.
  intros Ha. rewrite CropKernel_stores. apply writeAllV_frame.
  intros v Hv. apply cropStores_in in Hv as (c & h & w & Hc & Hh & Hw & E & _).
  apply Ha. rewrite E. apply crop_addr_range; assumption.
Qed.

(** X21. The crop kernel stores the converted input element
    [(h, w, c)] of the window, read with the row stride [in_stride], at
    [(c * H + h) * W + w] in the layout NCHW and at [(h * W + w) * C + c] in
    the layout NHWC, for every element of the [H x W x C] window; it stores
    nothing outside the first [C * H * W] elements of the output. *)
Theorem X21_CropKernel_layouts :
  forall (Out : Type) (conv : Z -> Out) (C H W : Z) (input_ptr : raster)
         (in_stride : Z) (nchw : bool) (output_ptr : Z -> Out),
    let r := CropKernel conv C H W input_ptr in_stride nchw output_ptr in
    (forall c h w, 0 <= c < C -> 0 <= h < H -> 0 <= w < W ->
       r (if nchw then (c * H + h) * W + w else (h * W + w) * C + c) =
       conv (input_ptr (h * in_stride + w * C + c))) /\
    (forall a, ~ 0 <= a < C * H * W -> r a = output_ptr a).
Proof.
  intros Out conv C H W input_ptr in_stride nchw output_ptr r. split.
  - intros c h w Hc Hh Hw. apply CropKernel_read; assumption.
  - intros a Ha. apply CropKernel_frame; exact Ha.
Qed.

Lemma X21_CropKernel_layouts_witness :
  let input : raster := fun a => (5 * a + 1) mod 256 in
  let r := CropKernel (fun v => v) 3 2 4 input 30 true (fun _ => 0) in
  r ((2 * 2 + 1) * 4 + 3) = input (1 * 30 + 3 * 3 + 2) /\ r 24 = 0.
Proof.
  intros input.
  pose proof (X21_CropKernel_layouts Z (fun v => v) 3 2 4 input 30 true
                (fun _ => 0)) as [R Fr].
  split; [apply (R 2 1 3); lia|apply (Fr 24); lia].
Defined.

(** X22. The kernel of the earlier version of the operator, which computes
    the two indices inside the innermost loop, leaves the same output buffer
    as the kernel that hoists them out of it, in both layouts and for any
    extents and stride. *)
Theorem X22_CropKernel_versions_agree :
  forall (Out : Type) (conv : Z -> Out) (C H W : Z) (input_ptr : raster)
         (in_stride : Z) (nchw : bool) (output_ptr : Z -> Out) (a : Z),
    CropKernel_v0 conv C H W input_ptr in_stride nchw output_ptr a =
    CropKernel conv C H W input_ptr in_stride nchw output_ptr a.
Proof.
  intros. rewrite CropKernel_v0_stores, CropKernel_stores. reflexivity.
Qed.

Lemma ValidateCrop_ok in_img H W C out_img :
  ValidateCrop in_img H W C out_img = Ok tt <->
  0 < H /\ 0 < W /\ (C = 1 \/ C = 3) /\ in_img = true /\ out_img = true.
Proof.
  unfold ValidateCrop, DALI_ENFORCE, bind.
  destruct (Z.gtb_spec H 0); [|split; [discriminate|lia]].
  destruct (Z.gtb_spec W 0); [|split; [discriminate|lia]].
  destruct (Z.eqb_spec C 1); cbn [orb].
  - destruct in_img; [|split; [discriminate|intros (_ & _ & _ & E & _); discriminate]].
    destruct out_img; [|split; [discriminate|intros (_ & _ & _ & _ & E); discriminate]].
    split; [intros _|reflexivity]. repeat split; [lia|lia|left; assumption].
  - destruct (Z.eqb_spec C 3).
    + destruct in_img; [|split; [discriminate|intros (_ & _ & _ & E & _); discriminate]].
      destruct out_img; [|split; [discriminate|intros (_ & _ & _ & _ & E); discriminate]].
      split; [intros _|reflexivity]. repeat split; [lia|lia|right; assumption].
    + split; [discriminate|lia].
Qed.

Lemma RunHelper_ok {V} (conv : Z -> V) C crop_H crop_W nchw data out W crop_y crop_x :
  0 < crop_H -> 0 < crop_W -> C = 1 \/ C = 3 ->
  RunHelper conv C crop_H crop_W nchw (Some data) (Some out) W crop_y crop_x =
  Ok (CropKernel conv C crop_H crop_W
        (fun a => data ((crop_y * W + crop_x) * C + a)) (W * C) nchw out).
Proof.
  intros HH HW HC. unfold RunHelper.
  replace (ValidateCrop true crop_H crop_W C true) with (Ok tt)
    by (symmetry; apply ValidateCrop_ok; tauto).
  reflexivity.
Qed.

(** X23. The CPU crop of a sample succeeds exactly when both crop extents are
    positive, the image has one or three channels and neither buffer is
    null; otherwise it raises an error and no buffer is returned. *)
Theorem X23_RunHelper_succeeds_iff :
  forall (Out : Type) (conv : Z -> Out) (C crop_H crop_W : Z) (nchw : bool)
         (input : option raster) (output : option (Z -> Out))
         (W crop_y crop_x : Z),
    is_ok (RunHelper conv C crop_H crop_W nchw input output W crop_y crop_x)
      = true <->
    0 < crop_H /\ 0 < crop_W /\ (C = 1 \/ C = 3) /\
    input <> None /\ output <> None.
Proof.
  intros Out conv C crop_H crop_W nchw input output W crop_y crop_x.
  unfold RunHelper.
  set (i := match input with Some _ => true | None => false end).
  set (o := match output with Some _ => true | None => false end).
  pose proof (ValidateCrop_ok i crop_H crop_W C o) as V.
  destruct (ValidateCrop i crop_H crop_W C o) as [[]|msg] eqn:E; cbn [bind].
  - destruct (proj1 V eq_refl) as (HH & HW & HC & Hi & Ho).
    destruct input as [data|]; [|discriminate].
    destruct output as [out|]; [|discriminate].
    cbn [is_ok]. split; [intros _|reflexivity].
    repeat split; try assumption; discriminate.
  - cbn [is_ok]. split; [discriminate|].
    intros (HH & HW & HC & Hi & Ho). exfalso.
    assert (Throw msg = Ok tt :> result unit); [|discriminate].
    apply V. subst i o.
    destruct input; [|congruence]. destruct output; [|congruence]. tauto.
Qed.

(** X24. A successful CPU crop copies the window: the output element
    [(h, w, c)] (at [(c * H + h) * W + w] for NCHW, at [(h * W + w) * C + c]
    for NHWC) is the converted byte of channel [c] of the input pixel
    [(crop_y + h, crop_x + w)], and the output is unchanged beyond its
    [C * H * W] elements. *)
Theorem X24_RunHelper_copies_window :
  forall (Out : Type) (conv : Z -> Out) (C crop_H crop_W : Z) (nchw : bool)
         (data : raster) (out : Z -> Out) (W crop_y crop_x : Z),
    0 < crop_H -> 0 < crop_W -> C = 1 \/ C = 3 ->
    exists r,
      RunHelper conv C crop_H crop_W nchw (Some data) (Some out) W crop_y crop_x
        = Ok r /\
      (forall c h w, 0 <= c < C -> 0 <= h < crop_H -> 0 <= w < crop_W ->
         r (if nchw then (c * crop_H + h) * crop_W + w
            else (h * crop_W + w) * C + c) =
         conv (data (((crop_y + h) * W + (crop_x + w)) * C + c))) /\
      (forall a, ~ 0 <= a < C * crop_H * crop_W -> r a = out a).
Proof.
  intros Out conv C crop_H crop_W nchw data out W crop_y crop_x HH HW HC.
  eexists. split; [apply RunHelper_ok; assumption|]. split.
  - intros c h w Hc Hh Hw. rewrite CropKernel_read by assumption.
    f_equal. f_equal. ring.
  - intros a Ha. apply CropKernel_frame. exact Ha.
Qed.

Lemma X24_RunHelper_copies_window_witness :
  let data : raster := fun a => (5 * a + 1) mod 256 in
  exists r,
    RunHelper (fun v => v) 3 2 2 false (Some data) (Some (fun _ => 0)) 5 1 2
      = Ok r /\
    (forall c h w, 0 <= c < 3 -> 0 <= h < 2 -> 0 <= w < 2 ->
       r (if false then (c * 2 + h) * 2 + w else (h * 2 + w) * 3 + c) =
       data (((1 + h) * 5 + (2 + w)) * 3 + c)) /\
    (forall a, ~ 0 <= a < 3 * 2 * 2 -> r a = 0).
Proof.
  intros data.
  apply (X24_RunHelper_copies_window Z (fun v => v) 3 2 2 false data
           (fun _ => 0) 5 1 2); lia.
Defined.

(** X25. A crop in the layout NHWC with the window of the whole image
    ([crop_y = crop_x = 0], the width of the window that of the image) is a
    copy: every element of the output is the converted input byte at the same
    offset. *)
Theorem X25_full_window_crop_is_copy :
  forall (Out : Type) (conv : Z -> Out) (C H W : Z)
         (data : raster) (out : Z -> Out),
    0 < H -> 0 < W -> C = 1 \/ C = 3 ->
    exists r,
      RunHelper conv C H W false (Some data) (Some out) W 0 0 = Ok r /\
      (forall a, 0 <= a < H * W * C -> r a = conv (data a)) /\
      (forall a, ~ 0 <= a < H * W * C -> r a = out a).
Proof.
  intros Out conv C H W data out HH HW HC.
  eexists. split; [apply RunHelper_ok; assumption|]. split.
  - intros a Ha.
    assert (HC0 : 0 < C) by lia.
    pose proof (Z.div_mod a C ltac:(lia)) as E1.
    pose proof (Z.mod_pos_bound a C HC0) as B1.
    pose proof (Z.div_mod (a / C) W ltac:(lia)) as E2.
    pose proof (Z.mod_pos_bound (a / C) W HW) as B2.
    set (c := a mod C) in *. set (p := a / C) in *.
    set (w := p mod W) in *. set (h := p / W) in *.
    assert (Hp : 0 <= p < H * W) by nia.
    assert (Hh : 0 <= h < H) by nia.
    replace a with ((h * W + w) * C + c) at 1 by lia.
    rewrite (CropKernel_read conv C H W _ (W * C) false out c h w)
      by assumption.
    f_equal. f_equal. lia.
  - intros a Ha. apply CropKernel_frame. lia.
Qed.

Lemma X25_full_window_crop_is_copy_witness :
  let data : raster := fun a => (5 * a + 1) mod 256 in
  exists r,
    RunHelper (fun v => v) 3 2 4 false (Some data) (Some (fun _ => 0)) 4 0 0
      = Ok r /\
    (forall a, 0 <= a < 2 * 4 * 3 -> r a = data a) /\
    (forall a, ~ 0 <= a < 2 * 4 * 3 -> r a = 0).
Proof.
  intros data.
  apply (X25_full_window_crop_is_copy Z (fun v => v) 3 2 4 data (fun _ => 0)); lia.
Defined.

(* ================================================================== *)
(** * Where the kernel puts the table of an image *)

(** The loop over the earlier images of the slice: from the image
    [s + j * n] on, it adds the lengths of the images [j .. k - 2]. *)
Lemma start_loop rp n s k : 0 < n ->
  forall fuel j p, 0 <= s -> 0 <= j ->
    (Z.to_nat (k - 1 - j) <= fuel)%nat ->
    snd (for_loop fuel (s + (j + 1) * n) n (s + k * n)
           (fun i '(idx, p) =>
              let g := nth (Z.to_nat idx * N_GRID_PARAMS) rp grid0 in
              (i, p + px g * py g))
           (s + j * n, p)) =
    p + zsum (fun t => tableLen rp (s + t * n)) j (Z.to_nat (k - 1 - j)).
Proof.
  intros Hn. induction fuel as [|fuel IH]; intros j p Hs Hj Hf.
  - replace (Z.to_nat (k - 1 - j)) with 0%nat by lia. cbn. lia.
  - cbn [for_loop]. destruct (Z.ltb_spec (s + (j + 1) * n) (s + k * n)) as [Hlt|Hge].
    + assert (Hjk : j + 1 < k) by nia.
      replace (s + (j + 1) * n + n) with (s + (j + 1 + 1) * n) by ring.
      rewrite (IH (j + 1)) by lia.
      replace (Z.to_nat (k - 1 - j)) with (S (Z.to_nat (k - 1 - (j + 1)))) by lia.
      cbn [zsum]. unfold tableLen at 2. cbv zeta. lia.
    + assert (Hjk : k <= j + 1) by nia.
      replace (Z.to_nat (k - 1 - j)) with 0%nat by lia. cbn. lia.
Qed.

(** X26. With more than one slice, the kernel of image [s + k * n] of slice
    [s] stores as the start of its table the start [b] of the slice plus the
    lengths [sx0 * sy0] of the images [s], [s + n], ..., [s + (k - 2) * n]:
    the length of the image just before it in the slice is not added, and
    the first two images of a slice both get the start [b]. *)
Theorem X26_table_start_of_image :
  forall (F : Type) (FO : FloatOps F) (n : Z) (resizeParam : list ResizeGridParam)
         (in_sizes : option (list DALISize)) (C W0 : Z)
         (pResizeMapping : list (option Z)) (mem : list MappingInfo)
         (bdx bdy tx ty s k b : Z),
    1 < n -> 0 <= s < n -> 0 <= k ->
    (Z.to_nat (s + k * n) < List.length pResizeMapping)%nat ->
    nth (Z.to_nat s) pResizeMapping None = Some b ->
    nth (Z.to_nat (s + k * n))
        (fst (ConstructResizeTables n resizeParam in_sizes C W0 pResizeMapping
                mem (s + k * n) bdx bdy tx ty)) None =
    Some (b + zsum (fun t => tableLen resizeParam (s + t * n)) 0
                   (Z.to_nat (k - 1))).
Proof.
  intros F FO n rp in_sizes C W0 pRM mem bdx bdy tx ty s k b Hn Hs Hk Hlen Hb.
  unfold ConstructResizeTables.
  assert (Em : (s + k * n) mod n = s)
    by (rewrite Z.mod_add by lia; apply Z.mod_small; lia).
  rewrite Em, Hb.
  destruct (Z.gtb_spec n 1) as [_|]; [|lia].
  cbn [fst]. rewrite nth_upd_eq by exact Hlen. f_equal.
  unfold for_range.
  pose proof (start_loop rp n s k ltac:(lia)
                (Z.to_nat (s + k * n - (s + n))) 0 b ltac:(lia) ltac:(lia)) as L.
  replace (s + (0 + 1) * n) with (s + n) in L by ring.
  replace (s + 0 * n) with s in L by ring.
  replace (k - 1 - 0) with (k - 1) in L by ring.
  apply L. nia.
Qed.

Lemma X26_table_start_of_image_witness :
  let rp := gridParams 2 3 1 1 0 0 ++ gridParams 5 1 1 1 0 0 ++
            gridParams 4 2 1 1 0 0 ++ gridParams 7 1 1 1 0 0 ++
            gridParams 3 3 1 1 0 0 in
  let pRM := [Some 0; Some 100; None; None; None] in
  nth (Z.to_nat (0 + 1 * 2))
      (fst (ConstructResizeTables (FO := ExactFloat) 2 rp None 1 4 pRM
              (repeat 0 200) (0 + 1 * 2) 1 1 0 0)) None =
  Some (0 + zsum (fun t => tableLen rp (0 + t * 2)) 0 (Z.to_nat (1 - 1))).
Proof.
  intros rp pRM.
  apply (X26_table_start_of_image Z ExactFloat 2 rp None 1 4 pRM (repeat 0 200)
           1 1 0 0 0 1 0); first [lia | vm_compute; lia | reflexivity].
Defined.
